(** * Concentrated-liquidity helpers of the Osmosis front-end

    A shallow embedding of the pure fragments of the front-end:

    - [utils/string]: [truncateString], [trimZerosFromEnd],
      [getShortAddress], [formatICNSName], [normalizeUrl], [ellipsisText],
      [camelCaseToSnakeCase];
    - [hooks/input/use-price-input.ts]: [multiplicationQuoteOverBase],
      [input], [toDec], [addCurrencyDecimals], [removeCurrencyDecimals];
    - the concentrated-liquidity router: [getPositionStatus],
      [getPriceFromSqrtPrice], [isPositionFullRange],
      [getTotalClaimableRewards], [getTotalEarned];
    - [hooks/ui-config/use-add-concentrated-liquidity-config.ts]: the memoised
      derivations [range], [tickRange], [baseDepositOnly], [quoteDepositOnly],
      [depositPercentages] and [error].

    The fixed-point decimals and integers of [@keplr-wallet/unit] are modelled
    concretely (raw big integers, 18 decimals, range checks that throw); a
    thrown exception is a [Throw] in the [result] monad. *)

From Stdlib Require Import ZArith List String Ascii Bool Lia.
Import ListNotations.

Open Scope Z_scope.

(** ** Exceptions *)

Inductive exn : Type :=
| IntegerOutOfRange      (* Dec / Int [checkBitLen] *)
| DivideByZero           (* big-integer division by zero *)
| TooLittlePrecision     (* [DecUtils.getTenExponentN] below -18 *)
| TooMuchPrecision       (* [DecUtils.getTenExponentNInPrecisionRange] above 18 *)
| InvalidDecimal         (* [new Dec(s)] on a string that is no decimal *)
| TypeError              (* a method called on what is not an object *)
| MathError.             (* anything thrown by [@osmosis-labs/math] *)

Inductive result (A : Type) : Type :=
| Ok (a : A)
| Throw (e : exn).
Arguments Ok {A} a.
Arguments Throw {A} e.

Definition bind {A B : Type} (m : result A) (k : A -> result B) : result B :=
  match m with
  | Ok a => k a
  | Throw e => Throw e
  end.

Notation "x <- m ;; k" := (bind m (fun x => k))
  (at level 61, m at next level, right associativity).

(** [try { body } catch (e) { handler }] when the handler ignores [e]. *)
Definition tryCatch {A : Type} (body : result A) (handler : A) : A :=
  match body with
  | Ok a => a
  | Throw _ => handler
  end.

(** ** [Dec] of [@keplr-wallet/unit]

    A [Dec] wraps a big integer [int] that stands for [int / 10^18].  Every
    constructor call ends in [checkBitLen], which throws when the absolute
    value exceeds [2^316 - 1].  The same bound stands before the rounding of
    a product or of a quotient: [mul] throws when the product of the two raw
    integers exceeds it, and [quo] when the raw quotient, which still
    carries 36 decimals, does. *)

Module Dec.

Record t : Type := mk { int : Z }.

Definition precision : Z := 18.
(** [calcPrecisionMultiplier(0)] *)
Definition precisionMultiplier : Z := 10 ^ precision.
Definition maxDec : Z := 2 ^ 316 - 1.

(** The range check on a big integer. *)
Definition checkBitLen (i : Z) : result Z :=
  if Z.abs i <=? maxDec then Ok i else Throw IntegerOutOfRange.

(** [new Dec(i, Dec.precision)]: the raw integer is taken as it is. *)
Definition make (i : Z) : result t :=
  if Z.abs i <=? maxDec then Ok (mk i) else Throw IntegerOutOfRange.

(** Literals such as [new Dec(50)]: small integers never leave the range. *)
Definition lit (n : Z) : t := mk (n * precisionMultiplier).

(** [chopPrecisionAndRound] on a non-negative integer: the quotient by
    [10^18], rounded to nearest; on a tie the library halves the quotient,
    keeps it when the half is zero and rounds up when it is not. *)
Definition chopAbs (a : Z) : Z :=
  let fivePrecision := Z.quot precisionMultiplier 2 in
  let quotient := Z.quot a precisionMultiplier in
  let remainder := Z.rem a precisionMultiplier in
  if remainder =? 0 then quotient
  else if remainder <? fivePrecision then quotient
  else if fivePrecision <? remainder then quotient + 1
  else if Z.quot quotient 2 =? 0 then quotient
  else quotient + 1.

(** [chopPrecisionAndRound]: the sign is removed first and put back. *)
Definition chopPrecisionAndRound (i : Z) : Z :=
  if i <? 0 then - chopAbs (Z.abs i) else chopAbs i.

Definition add (a b : t) : result t := make (int a + int b).
Definition sub (a b : t) : result t := make (int a - int b).

(** [mulRaw]: the product of the raw integers, checked, chopped and
    rounded. *)
Definition mulRaw (a b : t) : result Z :=
  product <- checkBitLen (int a * int b) ;;
  Ok (chopPrecisionAndRound product).
Definition mul (a b : t) : result t := i <- mulRaw a b ;; make i.

(** [quoRaw]: the precision is multiplied in twice, the big-integer division
    truncates, and the quotient is checked, chopped and rounded. *)
Definition quoRaw (a b : t) : result Z :=
  if int b =? 0 then Throw DivideByZero
  else
    quotient <-
      checkBitLen (Z.quot (int a * precisionMultiplier * precisionMultiplier) (int b)) ;;
    Ok (chopPrecisionAndRound quotient).
Definition quo (a b : t) : result t := i <- quoRaw a b ;; make i.

(** [quoTruncate]: as [quo], the decimals past the eighteenth cut off. *)
Definition quoTruncate (a b : t) : result t :=
  if int b =? 0 then Throw DivideByZero
  else
    quotient <-
      checkBitLen (Z.quot (int a * precisionMultiplier * precisionMultiplier) (int b)) ;;
    make (Z.quot quotient precisionMultiplier).

Definition isZero (a : t) : bool := int a =? 0.
Definition equals (a b : t) : bool := int a =? int b.
Definition lt (a b : t) : bool := int a <? int b.
Definition lte (a b : t) : bool := int a <=? int b.
Definition gt (a b : t) : bool := int b <? int a.
Definition gte (a b : t) : bool := int b <=? int a.

(** The loop of [pow] for a positive power [i]: [i] is halved until it is
    1; an odd [i] multiplies [base] into [tmp], and [base] is squared in
    every round. *)
Fixpoint powLoop (i : positive) (base tmp : t) : result t :=
  match i with
  | xH => mul base tmp
  | xO i' => base <- mul base base ;; powLoop i' base tmp
  | xI i' => tmp <- mul tmp base ;; base <- mul base base ;; powLoop i' base tmp
  end.

(** [d.pow(power)]: a negative power is the quotient of 1 by the positive
    one. *)
Definition pow (d : t) (power : Z) : result t :=
  match power with
  | Z0 => Ok (lit 1)
  | Zpos i => powLoop i d (lit 1)
  | Zneg i => p <- powLoop i d (lit 1) ;; quo (lit 1) p
  end.

End Dec.

(** ** [Int] of [@keplr-wallet/unit]: a big integer checked against
    [2^256 - 1] in absolute value. *)

Module Int.

Record t : Type := mk { int : Z }.

Definition maxInt : Z := 2 ^ 256 - 1.

Definition make (i : Z) : result t :=
  if Z.abs i <=? maxInt then Ok (mk i) else Throw IntegerOutOfRange.

Definition add (a b : t) : result t := make (int a + int b).
Definition sub (a b : t) : result t := make (int a - int b).

Definition equals (a b : t) : bool := int a =? int b.
Definition lt (a b : t) : bool := int a <? int b.
Definition gt (a b : t) : bool := int b <? int a.

End Int.

(** ** JavaScript numbers

    [getPositionStatus] sends two decimals through [Number(...)], takes
    [Math.min] and builds a [Dec] from the result.  A finite double is
    [mant * 2^expo] with a 53-bit mantissa; the exponent is left unbounded,
    the decimals that reach a Number lying far inside the range of normal
    doubles (a [Dec] is at least [10^-18] and below [2^257] in absolute
    value, or zero). *)

Module JSNumber.

Record t : Type := mk { mant : Z; expo : Z }.

Definition zero : t := mk 0 0.

(** The integer nearest to [num / den], ties to even ([0 <= num], [0 < den]). *)
Definition roundHalfEven (num den : Z) : Z :=
  let q := num / den in
  let r := num mod den in
  if 2 * r <? den then q
  else if den <? 2 * r then q + 1
  else if Z.even q then q else q + 1.

(** The double nearest to the positive rational [num / den]: the exponent is
    the one that puts the quotient in [[2^52, 2^53)], the mantissa is
    rounded to nearest-even and renormalised when it reaches [2^53]. *)
Definition nearest (num den : Z) : t :=
  let e0 := Z.log2 num - Z.log2 den - 52 in
  let below :=
    if 0 <=? e0 then num <? 2 ^ 52 * (den * 2 ^ e0)
    else num * 2 ^ (- e0) <? 2 ^ 52 * den in
  let e := if below then e0 - 1 else e0 in
  let m :=
    if 0 <=? e then roundHalfEven num (den * 2 ^ e)
    else roundHalfEven (num * 2 ^ (- e)) den in
  if m =? 2 ^ 53 then mk (2 ^ 52) (e + 1) else mk m e.

Definition neg (x : t) : t := mk (- mant x) (expo x).

(** [Number(d.toString())]: [toString] prints all 18 decimals, and the
    string is read as the nearest double. *)
Definition ofDec (d : Dec.t) : t :=
  let i := Dec.int d in
  if i =? 0 then zero
  else if 0 <? i then nearest i Dec.precisionMultiplier
  else neg (nearest (- i) Dec.precisionMultiplier).

Definition leb (x y : t) : bool :=
  let e := Z.min (expo x) (expo y) in
  mant x * 2 ^ (expo x - e) <=? mant y * 2 ^ (expo y - e).

(** [Math.min(x, y)] on finite numbers. *)
Definition min (x y : t) : t := if leb x y then x else y.

(** A positive double as a fraction. *)
Definition num (x : t) : Z := if 0 <=? expo x then mant x * 2 ^ expo x else mant x.
Definition den (x : t) : Z := if 0 <=? expo x then 1 else 2 ^ (- expo x).

(** [floor (x / 10^p)] *)
Definition floorAt (x : t) (p : Z) : Z :=
  if 0 <=? p then num x / (den x * 10 ^ p) else (num x * 10 ^ (- p)) / den x.

(** Does the decimal [s * 10^p] read back as [x]? *)
Definition readsBack (x : t) (s p : Z) : bool :=
  (0 <? s)
  && (let y := if 0 <=? p then nearest (s * 10 ^ p) 1 else nearest s (10 ^ (- p)) in
      (mant y =? mant x) && (expo y =? expo x)).

(** Is [x] nearer to [s * 10^p] than to [(s + 1) * 10^p] (the even [s] on a tie)? *)
Definition nearerLow (x : t) (s p : Z) : bool :=
  let twice := if 0 <=? p then (2 * num x, den x * 10 ^ p)
               else (2 * num x * 10 ^ (- p), den x) in
  let mid := (2 * s + 1) * snd twice in
  (fst twice <? mid) || ((fst twice =? mid) && Z.even s).

(** The digits of [Number::toString]: the decimal [s * 10^p] with the fewest
    digits that reads back as [x], the nearest to [x] when there are two.
    [p] starts at the leading digit and goes down over 17 positions; a double
    is always read back from 17 digits, so that the search ends on a decimal
    that reads back, and its last alternative is never taken. *)
Fixpoint shortestFrom (x : t) (more : nat) (p : Z) : Z * Z :=
  let lo := floorAt x p in
  let okLo := readsBack x lo p in
  let okHi := readsBack x (lo + 1) p in
  if okLo && okHi then (if nearerLow x lo p then (lo, p) else (lo + 1, p))
  else if okLo then (lo, p)
  else if okHi then (lo + 1, p)
  else match more with
       | O => (lo, p)
       | S more' => shortestFrom x more' (p - 1)
       end.

(** The position of the leading decimal digit of a positive [x]. *)
Definition leadingPosition (x : t) : Z :=
  let g := ((Z.log2 (num x) - Z.log2 (den x)) * 30103) / 100000 in
  if 0 <? floorAt x (g + 2) then g + 2
  else if 0 <? floorAt x (g + 1) then g + 1
  else if 0 <? floorAt x g then g
  else g - 1.

(** The value that [x.toString()] denotes, as [(s, p)] for [s * 10^p]. *)
Definition toDecimal (x : t) : Z * Z :=
  if mant x =? 0 then (0, 0)
  else if 0 <? mant x then shortestFrom x 16 (leadingPosition x)
  else let (s, p) := shortestFrom (neg x) 16 (leadingPosition (neg x)) in (- s, p).

End JSNumber.

(** [new Dec(x)] for a number [x]: the number is printed (an exponent, as in
    ["1e-7"], is written out by the constructor), decimals beyond the
    eighteenth are cut off the string, and the result is range-checked. *)
Definition Dec_ofNumber (x : JSNumber.t) : result Dec.t :=
  let (s, p) := JSNumber.toDecimal x in
  Dec.make (if 0 <=? p + Dec.precision then s * 10 ^ (p + Dec.precision)
            else Z.quot s (10 ^ (- (p + Dec.precision)))).

(** ** JavaScript strings

    A string is its sequence of code units; the functions below are the
    [String.prototype] methods the sources call, at the argument shapes they
    are called with. *)

Definition jsstring : Type := list ascii.

Definition str (s : string) : jsstring := list_ascii_of_string s.

Module JSString.

Definition length (s : jsstring) : Z := Z.of_nat (List.length s).

(** [s.slice(0, e)]: a negative [e] counts from the end. *)
Definition slice0 (s : jsstring) (e : Z) : jsstring :=
  let len := length s in
  let final := if e <? 0 then Z.max (len + e) 0 else Z.min e len in
  firstn (Z.to_nat final) s.

(** [s.substring(0, e)]: [e] is clamped to [0 .. length]. *)
Definition substring0 (s : jsstring) (e : Z) : jsstring :=
  firstn (Z.to_nat (Z.min (Z.max e 0) (length s))) s.

(** [s.substring(b)]. *)
Definition substringFrom (s : jsstring) (b : Z) : jsstring :=
  skipn (Z.to_nat (Z.min (Z.max b 0) (length s))) s.

(** [s.charAt(i)]: the empty string outside the string. *)
Definition charAt (s : jsstring) (i : Z) : jsstring :=
  if i <? 0 then []
  else match nth_error s (Z.to_nat i) with
       | Some c => [c]
       | None => []
       end.

(** [s.indexOf(c)] for a one-character needle: [-1] when absent. *)
Fixpoint indexOf (s : jsstring) (c : ascii) : Z :=
  match s with
  | [] => -1
  | x :: s' =>
      if Ascii.eqb x c then 0
      else let r := indexOf s' c in if r <? 0 then -1 else r + 1
  end.

Definition eqb (a b : jsstring) : bool :=
  if list_eq_dec ascii_dec a b then true else false.

(** The code unit of a character, [s.charCodeAt(i)]. *)
Definition code (c : ascii) : Z := Z.of_N (N_of_ascii c).

(** [s.substring(b, e)]: both ends are clamped to [0 .. length] and swapped
    when they come out of order. *)
Definition substring (s : jsstring) (b e : Z) : jsstring :=
  let len := length s in
  let b := Z.min (Z.max b 0) len in
  let e := Z.min (Z.max e 0) len in
  let from := Z.min b e in
  let to := Z.max b e in
  firstn (Z.to_nat (to - from)) (skipn (Z.to_nat from) s).

(** [s.startsWith(p)] and [s.endsWith(p)]. *)
Fixpoint startsWith (s p : jsstring) {struct p} : bool :=
  match p, s with
  | [], _ => true
  | c :: p', d :: s' => Ascii.eqb d c && startsWith s' p'
  | _ :: _, [] => false
  end.

Definition endsWith (s p : jsstring) : bool := startsWith (rev s) (rev p).

(** [s.split(sep)] for a one-character separator: the first part, which is
    always there, and the parts after it. *)
Fixpoint split (s : jsstring) (sep : ascii) : jsstring * list jsstring :=
  match s with
  | [] => ([], [])
  | c :: s' =>
      let (part, parts) := split s' sep in
      if Ascii.eqb c sep then ([], part :: parts) else (c :: part, parts)
  end.

(** The white space and line terminators among the code units below 256:
    TAB, LF, VT, FF, CR, SP and NBSP. *)
Definition isWhiteSpace (c : ascii) : bool :=
  existsb (Z.eqb (code c)) [9; 10; 11; 12; 13; 32; 160].

Fixpoint trimStart (s : jsstring) : jsstring :=
  match s with
  | c :: s' => if isWhiteSpace c then trimStart s' else s
  | [] => []
  end.

Definition trimEnd (s : jsstring) : jsstring := rev (trimStart (rev s)).

(** [s.trim()] *)
Definition trim (s : jsstring) : jsstring := trimEnd (trimStart s).

(** [toLowerCase] on a code unit below 256: the letters [A-Z] and the
    capital letters of Latin-1, U+00C0 to U+00DE without the sign U+00D7,
    move up by 32. *)
Definition lowerCaseChar (c : ascii) : ascii :=
  let n := code c in
  if ((65 <=? n) && (n <=? 90))
     || ((192 <=? n) && (n <=? 222) && negb (n =? 215))
  then ascii_of_N (Z.to_N (n + 32))
  else c.

Definition toLowerCase (s : jsstring) : jsstring := map lowerCaseChar s.

End JSString.

(** ** [utils/string] *)

(** A default parameter [num = d]: [None] is the omitted argument. *)
Definition orDefault (num : option Z) (d : Z) : Z :=
  match num with Some n => n | None => d end.

(** [truncateString(str, num = 8)]; the breakpoint is an integral number. *)
Definition truncateString (s : jsstring) (num : option Z) : jsstring :=
  let num := orDefault num 8 in
  if JSString.length s <=? num then s
  else JSString.slice0 s num ++ str "...".

(** The [while] loop of [trimZerosFromEnd]: [i] walks down while it is above
    the decimal point and sits on a ['0'].  The recursion is on [i] itself:
    the guard [i > decimalPointIndex] fails at [0] at the latest. *)
Fixpoint trimLoop (s : jsstring) (decimalPointIndex : Z) (i : nat) : nat :=
  match i with
  | O => O
  | S j =>
      if (decimalPointIndex <? Z.of_nat i)
         && JSString.eqb (JSString.charAt s (Z.of_nat i)) (str "0")
      then trimLoop s decimalPointIndex j
      else i
  end.

Definition trimZerosFromEnd (s : jsstring) : jsstring :=
  let decimalPointIndex := JSString.indexOf s "."%char in
  if decimalPointIndex =? -1 then s
  else
    let charsAfterDecimal := JSString.substringFrom s (decimalPointIndex + 1) in
    if negb (existsb (fun char => negb (Ascii.eqb char "0"%char)) charsAfterDecimal)
    then s
    else
      let i := Z.of_nat (trimLoop s decimalPointIndex
                           (Z.to_nat (JSString.length s - 1))) in
      let i := if JSString.eqb (JSString.charAt s i) (str ".") then i - 1 else i in
      JSString.substring0 s (i + 1).

(** [x ?? d] on an optional number *)
Definition nullish (x : option Z) (d : Z) : Z :=
  match x with Some n => n | None => d end.

(** [getShortAddress(address, opts)]; the two optional lengths of [opts] are
    integral numbers, and an omitted [opts] leaves both undefined. *)
Definition getShortAddress (address : jsstring) (prefixLength suffixLength : option Z)
  : jsstring :=
  match address with
  | [] => str ""
  | _ =>
      JSString.substring address 0 (nullish prefixLength 6)
      ++ str "..."
      ++ JSString.substring address
           (JSString.length address - nullish suffixLength 5) (JSString.length address)
  end.

(** What [+] makes of an operand that may be [undefined]. *)
Definition stringOf (x : option jsstring) : jsstring :=
  match x with Some s => s | None => str "undefined" end.

(** [formatICNSName(name, maxLength = 28)]: [None] is [undefined], as an
    argument and as a result. *)
Definition formatICNSName (name : option jsstring) (maxLength : option Z)
  : option jsstring :=
  let maxLength := orDefault maxLength 28 in
  match name with
  | None | Some [] => None
  | Some name =>
      if JSString.length name <=? maxLength then Some name
      else
        let nameParts := JSString.split name "."%char in
        let userName := fst nameParts in
        let chain := hd_error (snd nameParts) in
        Some (JSString.substring userName 0 10
              ++ str "..."
              ++ JSString.substring userName (JSString.length userName - 5)
                   (JSString.length userName)
              ++ str "."
              ++ stringOf chain)
  end.

(** [url.replace(/^p/, "")] for a literal [p] *)
Fixpoint removePrefix (p url : jsstring) {struct p} : option jsstring :=
  match p, url with
  | [], _ => Some url
  | c :: p', d :: url' => if Ascii.eqb d c then removePrefix p' url' else None
  | _ :: _, [] => None
  end.

Definition normalizeUrl (url : jsstring) : jsstring :=
  (* /^https?:\/\// : the optional [s] is tried first *)
  let url :=
    match removePrefix (str "https://") url with
    | Some rest => rest
    | None =>
        match removePrefix (str "http://") url with
        | Some rest => rest
        | None => url
        end
    end in
  (* /^www\./ *)
  let url :=
    match removePrefix (str "www.") url with
    | Some rest => rest
    | None => url
    end in
  (* /\/$/ : a slash that is the last character *)
  match rev url with
  | c :: front => if Ascii.eqb c "/"%char then rev front else url
  | [] => url
  end.

Definition ellipsisText (s : jsstring) (maxLength : Z) : jsstring :=
  match s with
  | [] => str ""
  | _ =>
      let trimmedStr := JSString.trim s in
      if maxLength <? JSString.length s
      then JSString.slice0 trimmedStr (maxLength - 3) ++ str "..."
      else trimmedStr
  end.

Definition isLowerLetter (c : ascii) : bool :=
  (97 <=? JSString.code c) && (JSString.code c <=? 122).
Definition isUpperLetter (c : ascii) : bool :=
  (65 <=? JSString.code c) && (JSString.code c <=? 90).

(** [input.replace(/([a-z])([A-Z])/g, "$1_$2")]: the matches are looked for
    from left to right, each search starting after the last match. *)
Fixpoint separateWords (input : jsstring) : jsstring :=
  match input with
  | a :: (b :: rest) as tail =>
      if isLowerLetter a && isUpperLetter b
      then a :: "_"%char :: b :: separateWords rest
      else a :: separateWords tail
  | _ => input
  end.

Definition camelCaseToSnakeCase (input : jsstring) : jsstring :=
  JSString.toLowerCase (separateWords input).

(** ** [DecUtils] and currencies *)

Module DecUtils.

(** [getTenExponentN(n)]: [10^n] as a [Dec].  Below [-18] it throws; from
    [-18] on it is [new Dec(10).pow(new Int(n))], whose multiplications
    throw when [10^n] is too large. *)
Definition getTenExponentN (n : Z) : result Dec.t :=
  if n <? - Dec.precision then Throw TooLittlePrecision
  else Dec.pow (Dec.lit 10) n.

Definition getTenExponentNInPrecisionRange (n : Z) : result Dec.t :=
  if Dec.precision <? n then Throw TooMuchPrecision
  else getTenExponentN n.

End DecUtils.

Record Currency : Type := mkCurrency {
  coinDenom : string;
  coinMinimalDenom : string;
  coinDecimals : Z
}.

(** ** [hooks/input/use-price-input.ts] *)

(** [currency?.coinDecimals ?? 0] *)
Definition decimalsOrZero (c : option Currency) : Z :=
  match c with Some c => coinDecimals c | None => 0 end.

Definition multiplicationQuoteOverBase
    (memoedBaseCurrency memoedQuoteCurrency : option Currency) : result Dec.t :=
  DecUtils.getTenExponentN
    (decimalsOrZero memoedBaseCurrency - decimalsOrZero memoedQuoteCurrency).

(** The two callbacks close over the multiplier.  A string or number argument
    is first handed to [new Dec]; the callbacks are modelled from there. *)
Definition addCurrencyDecimals (multiplicationQuoteOverBase price : Dec.t)
  : result Dec.t :=
  Dec.mul price multiplicationQuoteOverBase.

Definition removeCurrencyDecimals (multiplicationQuoteOverBase price : Dec.t)
  : result Dec.t :=
  Dec.quo price multiplicationQuoteOverBase.

(** [input(value)] for a string [value]: the new [decRaw].  A [Dec] value is
    stored as it prints. *)
Definition input (value : jsstring) : jsstring :=
  if JSString.startsWith value (str ".") then str "0" ++ value
  else if JSString.eqb value (str "") then str "0"
  else value.

Section PriceInput.

(** [new Dec(s)] for a string [s], the parser of [@keplr-wallet/unit]. *)
Variable newDec : jsstring -> result Dec.t.

Definition toDec (multiplicationQuoteOverBase : Dec.t) (decRaw : jsstring)
  : result Dec.t :=
  if JSString.endsWith decRaw (str ".")
  then price <- newDec (JSString.slice0 decRaw (-1)) ;;
       removeCurrencyDecimals multiplicationQuoteOverBase price
  else price <- newDec decRaw ;;
       removeCurrencyDecimals multiplicationQuoteOverBase price.

End PriceInput.

(** ** The concentrated-liquidity router *)

Inductive PositionStatus : Type :=
| inRange
| nearBounds
| outOfRange
| fullRange
| unbonding
| superfluidStaked
| superfluidUnstaking.

Record PositionStatusInput : Type := mkPositionStatusInput {
  lowerPrice : Dec.t;
  upperPrice : Dec.t;
  currentPrice : Dec.t;
  isFullRange : bool;
  isSuperfluid : bool;
  isSuperfluidUnstaking : bool;
  isUnbonding : bool
}.

(** The constant [diff] of [getPositionStatus]: the distance to the nearer
    bound, taken through [Number] and [Math.min]. *)
Definition nearerDistance (i : PositionStatusInput) : result Dec.t :=
  a <- Dec.sub (currentPrice i) (lowerPrice i) ;;
  b <- Dec.sub (upperPrice i) (currentPrice i) ;;
  Dec_ofNumber (JSNumber.min (JSNumber.ofDec a) (JSNumber.ofDec b)).

(** The constants [rangeDiff] and [diffPercentage]. *)
Definition diffPercentage (i : PositionStatusInput) : result Dec.t :=
  diff <- nearerDistance i ;;
  rangeDiff <- Dec.sub (upperPrice i) (lowerPrice i) ;;
  if Dec.isZero (currentPrice i) || Dec.isZero rangeDiff
  then Ok (Dec.lit 0)
  else q <- Dec.quo diff rangeDiff ;; Dec.mul q (Dec.lit 100).

Definition getPositionStatus (i : PositionStatusInput) : result PositionStatus :=
  let inRange_ :=
    Dec.lt (lowerPrice i) (currentPrice i) && Dec.gt (upperPrice i) (currentPrice i) in
  diffPercentage <- diffPercentage i ;;
  Ok (if isFullRange i then fullRange
      else if isUnbonding i then unbonding
      else if isSuperfluid i then superfluidStaked
      else if isSuperfluidUnstaking i then superfluidUnstaking
      else if inRange_ then
        (if Dec.lte diffPercentage (Dec.lit 15) then nearBounds else inRange)
      else outOfRange).

(** [CoinPretty]: a currency and the amount of it that [toDec()] returns,
    as the raw integer of that [Dec]. *)
Record CoinPretty : Type := mkCoinPretty {
  currency : Currency;
  amount : Z
}.

(** The constructor and the addition of [CoinPretty] are the library's.
    Both divide, multiply and add decimals, and both can throw: the
    constructor on an amount that is no decimal or too large and on a
    currency of more than 18 decimals, the addition on a sum out of range.
    What the router relies on is that a coin has the currency it was made
    with, and that adding a coin of the same denomination keeps the currency
    and adds the amounts. *)
Class CoinPrettyLib : Type := {
  (** an amount of a query response, [string | number] *)
  RawAmount : Type;
  (** [new CoinPretty(currency, amount)] *)
  newCoinPretty : Currency -> RawAmount -> result CoinPretty;
  (** [a.add(b)] *)
  CoinPretty_add : CoinPretty -> CoinPretty -> result CoinPretty;
  newCoinPretty_currency :
    forall c a coin, newCoinPretty c a = Ok coin -> currency coin = c;
  CoinPretty_add_amount :
    forall a b sum,
      coinMinimalDenom (currency a) = coinMinimalDenom (currency b) ->
      CoinPretty_add a b = Ok sum ->
      currency sum = currency a /\ amount sum = amount a + amount b
}.

Definition getPriceFromSqrtPrice (sqrtPrice : Dec.t) (baseAsset quoteAsset : CoinPretty)
  : result Dec.t :=
  multiplicationQuoteOverBase <-
    DecUtils.getTenExponentN
      (coinDecimals (currency baseAsset) - coinDecimals (currency quoteAsset)) ;;
  square <- Dec.mul sqrtPrice sqrtPrice ;;
  Dec.mul square multiplicationQuoteOverBase.

(** The interface of [@osmosis-labs/math] that the front-end calls.  The
    library is a collaborator of the code under study: its functions are
    parameters, and what they throw is a [Throw]. *)
Class TickMath : Type := {
  minTick : Int.t;
  maxTick : Int.t;
  minSpotPrice : Dec.t;
  maxSpotPrice : Dec.t;
  priceToTick : Dec.t -> result Int.t;
  roundToNearestDivisible : Int.t -> Int.t -> result Int.t;
  roundPriceToNearestTick : Dec.t -> Z -> bool -> result Dec.t;
  minTick_lt_maxTick : Int.int minTick < Int.int maxTick
}.

(** [isPositionFullRange]: [None] is an [undefined] tick, which the optional
    chaining lets through. *)
Definition isPositionFullRange {math : TickMath} (lowerTick upperTick : option Int.t) : bool :=
  match lowerTick, upperTick with
  | Some l, Some u => Int.equals l minTick && Int.equals u maxTick
  | _, _ => false
  end.

(** *** Reward aggregation *)

(** A raw reward of a query response: an amount and a denomination. *)
Record RawAsset {lib : CoinPrettyLib} : Type := mkRawAsset {
  raw_amount : RawAmount;
  raw_denom : string
}.

(** A JavaScript [Map] with string keys: the entries in insertion order. *)
Module JSMap.

Definition t (V : Type) : Type := list (string * V).

Definition empty {V : Type} : t V := [].

Fixpoint get {V : Type} (m : t V) (k : string) : option V :=
  match m with
  | [] => None
  | (k', v) :: m' => if String.eqb k' k then Some v else get m' k
  end.

(** [set] keeps the position of a key that is present and appends a new one. *)
Fixpoint set {V : Type} (m : t V) (k : string) (v : V) : t V :=
  match m with
  | [] => [(k, v)]
  | (k', v') :: m' =>
      if String.eqb k' k then (k', v) :: m' else (k', v') :: set m' k v
  end.

Definition values {V : Type} (m : t V) : list V := map snd m.

End JSMap.

(** [array.reduce(callback, init)] with a callback that may throw. *)
Fixpoint reduce {A B : Type} (callback : B -> A -> result B) (array : list A) (init : B)
  : result B :=
  match array with
  | [] => Ok init
  | x :: rest => accumulator <- callback init x ;; reduce callback rest accumulator
  end.

Section Rewards.
Context {lib : CoinPrettyLib}.

(** [getAsset({ anyDenom })] of [~/server/queries/complex/assets]: the asset
    list lookup, [None] for an unknown denomination. *)
Variable getAsset : string -> option Currency.

(** The [Promise.all] over the mapped array, with the [filter] after it: an
    unknown asset gives [undefined], which the filter drops, and the
    constructor may throw, which rejects the whole.  The callbacks are taken
    in the order of the array. *)
Fixpoint mapRawAssets (rawAssets : list RawAsset) : result (list CoinPretty) :=
  match rawAssets with
  | [] => Ok []
  | r :: rest =>
      match getAsset (raw_denom r) with
      | None => mapRawAssets rest
      | Some asset =>
          coin <- newCoinPretty asset (raw_amount r) ;;
          result <- mapRawAssets rest ;;
          Ok (coin :: result)
      end
  end.

Definition mapRawAssetsToCoinPretty (rawAssets : option (list RawAsset))
  : result (list CoinPretty) :=
  match rawAssets with
  | None => Ok []
  | Some rawAssets => mapRawAssets rawAssets
  end.

(** The callback of the [reduce]. *)
Definition sumByDenom (sumByDenoms : JSMap.t CoinPretty) (coin : CoinPretty)
  : result (JSMap.t CoinPretty) :=
  match JSMap.get sumByDenoms (coinMinimalDenom (currency coin)) with
  | Some current =>
      sum <- CoinPretty_add current coin ;;
      Ok (JSMap.set sumByDenoms (coinMinimalDenom (currency coin)) sum)
  | None => Ok (JSMap.set sumByDenoms (coinMinimalDenom (currency coin)) coin)
  end.

Definition getTotalClaimableRewards
    (rawClaimableIncentiveRewards rawClaimableSpreadRewards : option (list RawAsset))
  : result (list CoinPretty) :=
  claimableIncentiveRewards <- mapRawAssetsToCoinPretty rawClaimableIncentiveRewards ;;
  claimableSpreadRewards <- mapRawAssetsToCoinPretty rawClaimableSpreadRewards ;;
  sumByDenoms <-
    reduce sumByDenom (claimableSpreadRewards ++ claimableIncentiveRewards)
           JSMap.empty ;;
  Ok (JSMap.values sumByDenoms).

(** [getTotalEarned] fills a local map in a [forEach]. *)
Definition getTotalEarned
    (totalSpreadRewards totalIncentivesRewards : option (list RawAsset))
  : result (list CoinPretty) :=
  spreadRewards <- mapRawAssetsToCoinPretty totalSpreadRewards ;;
  incentivesRewards <- mapRawAssetsToCoinPretty totalIncentivesRewards ;;
  earnedCoinDenomMap <-
    reduce
      (fun (earnedCoinDenomMap : JSMap.t CoinPretty) (coin : CoinPretty) =>
         let existingCoin :=
           JSMap.get earnedCoinDenomMap (coinMinimalDenom (currency coin)) in
         match existingCoin with
         | Some existingCoin =>
             sum <- CoinPretty_add existingCoin coin ;;
             Ok (JSMap.set earnedCoinDenomMap (coinMinimalDenom (currency coin)) sum)
         | None =>
             Ok (JSMap.set earnedCoinDenomMap (coinMinimalDenom (currency coin)) coin)
         end)
      (spreadRewards ++ incentivesRewards) JSMap.empty ;;
  Ok (JSMap.values earnedCoinDenomMap).

End Rewards.

(** ** [hooks/ui-config/use-add-concentrated-liquidity-config.ts]

    The memoised derivations of [useAddConcentratedLiquidityState], each a
    function of the values in its dependency list. *)

(** The fields of the concentrated pool that the derivations read. *)
Record ClPool : Type := mkClPool {
  tick_spacing : Z
}.

Section AddConcentratedLiquidityState.
Context {math : TickMath}.

(** [tickDivisor]: [new Int(clPool?.raw.tick_spacing ?? 100)] *)
Definition tickDivisor (clPool : option ClPool) : result Int.t :=
  Int.make (match clPool with Some pool => tick_spacing pool | None => 100 end).

(** [range]; [minPriceInput_toDec] and [maxPriceInput_toDec] are what the
    calls [minPriceInput.toDec()] and [maxPriceInput.toDec()] come to: a
    [Dec], or the exception of [new Dec] on a raw input that is no decimal.
    Both calls are made before anything is looked at. *)
Definition range (minPriceInput_toDec maxPriceInput_toDec : result Dec.t)
    (clPool : option ClPool) (fullRange : bool) (currentPrice : Dec.t)
  : result (Dec.t * Dec.t) :=
  input0 <- minPriceInput_toDec ;;
  input1 <- maxPriceInput_toDec ;;
  match fullRange, clPool with
  | false, Some clPool =>
      let tickSpacing := tick_spacing clPool in
      inputMinPrice <- roundPriceToNearestTick input0 tickSpacing true ;;
      inputMaxPrice <- roundPriceToNearestTick input1 tickSpacing true ;;
      minPrice50x <- Dec.quo currentPrice (Dec.lit 50) ;;
      maxPrice50x <- Dec.mul currentPrice (Dec.lit 50) ;;
      Ok (if Dec.lt inputMinPrice minPrice50x then minPrice50x else inputMinPrice,
          if Dec.gt inputMaxPrice maxPrice50x then maxPrice50x else inputMaxPrice)
  | _, _ => Ok (minSpotPrice, maxSpotPrice)
  end.

(** The body of the [try] block of [tickRange]. *)
Definition tickRangeBody (tickDivisor : Int.t) (range : Dec.t * Dec.t)
  : result (Int.t * Int.t) :=
  lowerTick <- priceToTick (fst range) ;;
  upperTick <- priceToTick (snd range) ;;
  lowerTickRounded <- roundToNearestDivisible lowerTick tickDivisor ;;
  upperTickRounded <- roundToNearestDivisible upperTick tickDivisor ;;
  padded <-
    (if Int.equals lowerTickRounded upperTickRounded
     then l <- Int.sub lowerTickRounded tickDivisor ;;
          u <- Int.add upperTickRounded tickDivisor ;;
          Ok (l, u)
     else Ok (lowerTickRounded, upperTickRounded)) ;;
  let lowerTickRounded := fst padded in
  let upperTickRounded := snd padded in
  Ok (if Int.lt lowerTickRounded minTick then minTick else lowerTickRounded,
      if Int.gt upperTickRounded maxTick then maxTick else upperTickRounded).

(** [tickRange]; the divisor is an object, so [!tickDivisor] is false. *)
Definition tickRange (fullRange : bool) (tickDivisor : Int.t)
    (range : Dec.t * Dec.t) : Int.t * Int.t :=
  if fullRange then (minTick, maxTick)
  else tryCatch (tickRangeBody tickDivisor range) (minTick, maxTick).

(** [baseDepositOnly]; the bounds of [range] are never strings. *)
Definition baseDepositOnly (currentPrice : Dec.t) (fullRange : bool)
    (range : Dec.t * Dec.t) : bool :=
  if Dec.isZero currentPrice then false
  else negb fullRange && Dec.lt currentPrice (fst range)
       && Dec.lt currentPrice (snd range).

Definition quoteDepositOnly (currentPrice : Dec.t) (fullRange : bool)
    (range : Dec.t * Dec.t) : bool :=
  if Dec.isZero currentPrice then false
  else negb fullRange && Dec.gt currentPrice (fst range)
       && Dec.gt currentPrice (snd range).

(** [depositPercentages]; a fiat value is the [toDec()] of a [PricePretty]
    or [None] while it is not known, and a [RatePretty] is the [Dec] it
    wraps. *)
Definition depositPercentages (baseDepositOnly quoteDepositOnly : bool)
    (amount1FiatValue amount0FiatValue : option Dec.t) : result (Dec.t * Dec.t) :=
  match amount0FiatValue, amount1FiatValue with
  | Some amount0FiatValue, Some amount1FiatValue =>
      if baseDepositOnly then Ok (Dec.lit 1, Dec.lit 0)
      else if quoteDepositOnly then Ok (Dec.lit 0, Dec.lit 1)
      else
        totalFiatValue <- Dec.add amount0FiatValue amount1FiatValue ;;
        if Dec.isZero totalFiatValue then Ok (Dec.lit 0, Dec.lit 0)
        else
          share0 <- Dec.quo amount0FiatValue totalFiatValue ;;
          share1 <- Dec.quo amount1FiatValue totalFiatValue ;;
          Ok (share0, share1)
  | _, _ => Ok (Dec.lit 0, Dec.lit 0)
  end.

(** The errors of the state: its own [InvalidRangeError], or an error of one
    of the two amount inputs, of which the state only tests the presence. *)
Inductive StateError (AmountError : Type) : Type :=
| InvalidRangeError (m : string)
| AmountInputError (e : AmountError).

Definition error {AmountError : Type} (fullRange : bool) (range : Dec.t * Dec.t)
    (quoteDepositOnly baseDepositOnly : bool)
    (quoteAmountInput_error baseAmountInput_error : option AmountError)
  : option (StateError AmountError) :=
  if negb fullRange && Dec.gte (fst range) (snd range)
  then Some (InvalidRangeError AmountError "lower range must be less than upper range.")
  else if quoteDepositOnly
       then option_map (AmountInputError AmountError) quoteAmountInput_error
  else if baseDepositOnly
       then option_map (AmountInputError AmountError) baseAmountInput_error
  else match baseAmountInput_error with
       | Some e => Some (AmountInputError AmountError e)
       | None => option_map (AmountInputError AmountError) quoteAmountInput_error
       end.

End AddConcentratedLiquidityState.

Arguments InvalidRangeError {AmountError} m.
Arguments AmountInputError {AmountError} e.

(** *** A reference instance of the math interface

    The Osmosis tick grid with [exponentAtPriceOne = -6], in exact
    arithmetic: every decade of prices [[10^k, 10^(k+1))] holds 9,000,000
    ticks, [10^(k-6)] apart; tick 0 is the price 1.  The instance is not the
    code of [@osmosis-labs/math], which goes through square roots and rounds
    a price to a tick in its own way: it serves to apply the statements
    below, which hold for every instance, to concrete pools. *)

Module ReferenceMath.

Definition ticksPerDecade : Z := 9000000.

(** The decade [k] of a price, [10^k <= price < 10^(k+1)], among the decades
    from [10^-12] to [10^38]. *)
Definition decade (price : Dec.t) : option Z :=
  find (fun k => 10 ^ (Dec.precision + k) <=? Dec.int price)
       (map (fun n => 38 - Z.of_nat n) (seq 0 51)).

Definition priceToTick (price : Dec.t) : result Int.t :=
  if (Dec.int price <? 10 ^ 6) || (10 ^ 56 <? Dec.int price) then Throw MathError
  else match decade price with
       | None => Throw MathError
       | Some k =>
           Int.make (ticksPerDecade * k
                     + (Dec.int price - 10 ^ (Dec.precision + k)) / 10 ^ (12 + k))
       end.

Definition tickToPrice (tick : Int.t) : Dec.t :=
  let k := Int.int tick / ticksPerDecade in
  Dec.mk (10 ^ (Dec.precision + k)
          + (Int.int tick - ticksPerDecade * k) * 10 ^ (12 + k)).

(** The multiple of [divisor] nearest to [tick], halves going up. *)
Definition roundToNearestDivisible (tick divisor : Int.t) : result Int.t :=
  if Int.int divisor <=? 0 then Throw MathError
  else
    let r := Int.int tick mod Int.int divisor in
    Int.make (if Int.int divisor <=? 2 * r then Int.int tick - r + Int.int divisor
              else Int.int tick - r).

Definition roundPriceToNearestTick (price : Dec.t) (tickSpacing : Z)
    (isLowerTick : bool) : result Dec.t :=
  tick <- priceToTick price ;;
  if tickSpacing <=? 0 then Throw MathError
  else
    let r := Int.int tick mod tickSpacing in
    let down := Int.int tick - r in
    let rounded := if isLowerTick || (r =? 0) then down else down + tickSpacing in
    if (rounded <? -108000000) || (342000000 <? rounded) then Throw MathError
    else Ok (tickToPrice (Int.mk rounded)).

#[export] Instance tickMath : TickMath :=
  Build_TickMath
    (Int.mk (-108000000)) (Int.mk 342000000)   (* minTick, maxTick *)
    (Dec.mk (10 ^ 6)) (Dec.mk (10 ^ 56))       (* minSpotPrice, maxSpotPrice *)
    priceToTick roundToNearestDivisible roundPriceToNearestTick
    eq_refl.

End ReferenceMath.

(** *** A reference instance of the coin interface

    An amount is an integer, as the chain reports it (a number, or a string
    of digits), or a string that is no decimal.  The constructor reads the
    amount as a [Dec], which throws on a string that is no decimal and on an
    integer out of range; it divides by [10^coinDecimals], which throws on
    more than 18 decimals and on a quotient out of range, and keeps the
    quotient, the amount in whole coins.  [add] adds two such amounts and
    leaves a coin of another denomination alone.  The options of a
    [CoinPretty], which only matter when it is printed, are left out. *)

Module ReferenceCoin.

Inductive amount_t : Type :=
| integer (n : Z)
| notDecimal.

Definition make (currency : Currency) (amount : amount_t) : result CoinPretty :=
  match amount with
  | notDecimal => Throw InvalidDecimal
  | integer n =>
      amount <- Dec.make (n * Dec.precisionMultiplier) ;;
      tenExponent <- DecUtils.getTenExponentNInPrecisionRange (coinDecimals currency) ;;
      dec <- Dec.quoTruncate amount tenExponent ;;
      Ok (mkCoinPretty currency (Dec.int dec))
  end.

Definition add (a b : CoinPretty) : result CoinPretty :=
  if String.eqb (coinMinimalDenom (currency a)) (coinMinimalDenom (currency b))
  then sum <- Dec.add (Dec.mk (amount a)) (Dec.mk (amount b)) ;;
       Ok (mkCoinPretty (currency a) (Dec.int sum))
  else Ok a.

#[export] Instance lib : CoinPrettyLib.
Proof.
  refine (Build_CoinPrettyLib amount_t make add _ _).
  - intros c [n|] coin; unfold make; [|discriminate].
    destruct (Dec.make (n * Dec.precisionMultiplier)); [|discriminate].
    cbn [bind].
    destruct (DecUtils.getTenExponentNInPrecisionRange (coinDecimals c)); [|discriminate].
    cbn [bind]. destruct (Dec.quoTruncate _ _); [|discriminate].
    cbn [bind]. intros [= <-]. reflexivity.
  - intros a b sum E. unfold add. rewrite E, String.eqb_refl.
    unfold Dec.add, Dec.make. cbn [Dec.int].
    destruct (Z.abs (amount a + amount b) <=? Dec.maxDec); [|discriminate].
    cbn [bind]. intros [= <-]. split; reflexivity.
Defined.

End ReferenceCoin.

(** ** The helpers over a store of objects

    The same three helpers, [getPositionStatus], [getPriceFromSqrtPrice] and
    [isPositionFullRange], with what the pure functions above leave out: a
    [Dec] or an [Int] is an object, reached through a reference, and every
    method call that returns one allocates it.  The world holds the objects
    allocated so far, the table in which [DecUtils.getTenExponentN] keeps the
    powers of ten it has computed, and the state of the module (its caches);
    strings, numbers and booleans are values. *)

Module Heap.

Definition ref : Type := nat.

Record world (G : Type) : Type := mkWorld {
  objects : list Z;
  tenExponentNs : list (Z * ref);
  moduleState : G
}.
Arguments mkWorld {G} objects tenExponentNs moduleState.
Arguments objects {G} w.
Arguments tenExponentNs {G} w.
Arguments moduleState {G} w.

(** A computation that may change the world or throw. *)
Definition JS (G A : Type) : Type := world G -> result (A * world G).

Definition ret {G A : Type} (a : A) : JS G A := fun w => Ok (a, w).

Definition bindJS {G A B : Type} (m : JS G A) (k : A -> JS G B) : JS G B :=
  fun w => match m w with
           | Ok (a, w') => k a w'
           | Throw e => Throw e
           end.

Definition lift {G A : Type} (r : result A) : JS G A :=
  fun w => match r with
           | Ok a => Ok (a, w)
           | Throw e => Throw e
           end.

Declare Scope js_scope.
Delimit Scope js_scope with js.
Notation "x <- m ;; k" := (bindJS m (fun x => k))
  (at level 61, m at next level, right associativity) : js_scope.

Definition deref {G : Type} (w : world G) (r : ref) : option Z :=
  nth_error (objects w) r.

Definition read {G : Type} (r : ref) : JS G Z :=
  fun w => match deref w r with
           | Some v => Ok (v, w)
           | None => Throw TypeError
           end.

(** A new object goes to the end of the store. *)
Definition alloc {G : Type} (v : Z) : JS G ref :=
  fun w => Ok (List.length (objects w),
               mkWorld (objects w ++ [v]) (tenExponentNs w) (moduleState w)).

(** *** The methods of [Dec], on references *)

(** [a.f(b)] for a method that returns a new [Dec]. *)
Definition method2 {G : Type} (f : Dec.t -> Dec.t -> result Dec.t) (a b : ref)
  : JS G ref :=
  (x <- read a ;;
   y <- read b ;;
   d <- lift (f (Dec.mk x) (Dec.mk y)) ;;
   alloc (Dec.int d))%js.

(** [a.f(b)] for a comparison. *)
Definition test2 {G : Type} (f : Dec.t -> Dec.t -> bool) (a b : ref) : JS G bool :=
  (x <- read a ;;
   y <- read b ;;
   ret (f (Dec.mk x) (Dec.mk y)))%js.

Definition Dec_sub {G : Type} : ref -> ref -> JS G ref := method2 Dec.sub.
Definition Dec_mul {G : Type} : ref -> ref -> JS G ref := method2 Dec.mul.
Definition Dec_quo {G : Type} : ref -> ref -> JS G ref := method2 Dec.quo.
Definition Dec_lt {G : Type} : ref -> ref -> JS G bool := test2 Dec.lt.
Definition Dec_gt {G : Type} : ref -> ref -> JS G bool := test2 Dec.gt.
Definition Dec_lte {G : Type} : ref -> ref -> JS G bool := test2 Dec.lte.

Definition Dec_isZero {G : Type} (a : ref) : JS G bool :=
  (x <- read a ;; ret (Dec.isZero (Dec.mk x)))%js.

(** [new Dec(n)] for a literal [n]. *)
Definition Dec_new {G : Type} (n : Z) : JS G ref := alloc (Dec.int (Dec.lit n)).

(** [Number(a.toString())] *)
Definition Dec_toNumber {G : Type} (a : ref) : JS G JSNumber.t :=
  (x <- read a ;; ret (JSNumber.ofDec (Dec.mk x)))%js.

(** [new Dec(x)] for a number [x]. *)
Definition Dec_ofNumber {G : Type} (x : JSNumber.t) : JS G ref :=
  (d <- lift (Dec_ofNumber x) ;; alloc (Dec.int d))%js.

(** [DecUtils.getTenExponentN(n)]: a power of ten that is in the table is
    returned as the object it is; a new one is computed, put in the table and
    returned. *)
Definition lookup (table : list (Z * ref)) (n : Z) : option ref :=
  match find (fun e => fst e =? n) table with
  | Some e => Some (snd e)
  | None => None
  end.

Definition getTenExponentN {G : Type} (n : Z) : JS G ref :=
  fun w =>
    if n <? - Dec.precision then Throw TooLittlePrecision
    else match lookup (tenExponentNs w) n with
         | Some r => Ok (r, w)
         | None =>
             match Dec.pow (Dec.lit 10) n with
             | Ok d =>
                 let r := List.length (objects w) in
                 Ok (r, mkWorld (objects w ++ [Dec.int d])
                                ((n, r) :: tenExponentNs w) (moduleState w))
             | Throw e => Throw e
             end
         end.

(** *** The three helpers *)

Definition getPositionStatus {G : Type}
    (lowerPrice upperPrice currentPrice : ref)
    (isFullRange isSuperfluid isSuperfluidUnstaking isUnbonding : bool)
  : JS G PositionStatus :=
  (below <- Dec_lt lowerPrice currentPrice ;;
   inRange_ <- (if below then Dec_gt upperPrice currentPrice else ret false) ;;
   a <- Dec_sub currentPrice lowerPrice ;;
   a <- Dec_toNumber a ;;
   b <- Dec_sub upperPrice currentPrice ;;
   b <- Dec_toNumber b ;;
   diff <- Dec_ofNumber (JSNumber.min a b) ;;
   rangeDiff <- Dec_sub upperPrice lowerPrice ;;
   currentIsZero <- Dec_isZero currentPrice ;;
   noRange <- (if currentIsZero then ret true else Dec_isZero rangeDiff) ;;
   diffPercentage <-
     (if noRange then Dec_new 0
      else q <- Dec_quo diff rangeDiff ;;
           hundred <- Dec_new 100 ;;
           Dec_mul q hundred) ;;
   if isFullRange then ret fullRange
   else if isUnbonding then ret unbonding
   else if isSuperfluid then ret superfluidStaked
   else if isSuperfluidUnstaking then ret superfluidUnstaking
   else if inRange_ then
     fifteen <- Dec_new 15 ;;
     near <- Dec_lte diffPercentage fifteen ;;
     ret (if near then nearBounds else inRange)
   else ret outOfRange)%js.

Definition getPriceFromSqrtPrice {G : Type} (sqrtPrice : ref)
    (baseAsset quoteAsset : CoinPretty) : JS G ref :=
  (multiplicationQuoteOverBase <-
     getTenExponentN
       (coinDecimals (currency baseAsset) - coinDecimals (currency quoteAsset)) ;;
   square <- Dec_mul sqrtPrice sqrtPrice ;;
   Dec_mul square multiplicationQuoteOverBase)%js.

(** [minTick] and [maxTick] are constants of the math library; [equals]
    reads the tick it is called on. *)
Definition isPositionFullRange {G : Type} {math : TickMath}
    (lowerTick upperTick : option ref) : JS G bool :=
  match lowerTick with
  | None => ret false
  | Some l =>
      (x <- read l ;;
       if Int.equals (Int.mk x) minTick then
         match upperTick with
         | None => ret false
         | Some u => y <- read u ;; ret (Int.equals (Int.mk y) maxTick)
         end
       else ret false)%js
  end.

End Heap.

(** ** Sample data *)

Module Sample.

Definition eth : Currency := mkCurrency "ETH" "wei" 18.
Definition usdc : Currency := mkCurrency "USDC" "uusdc" 6.
Definition osmo : Currency := mkCurrency "OSMO" "uosmo" 6.

(** An asset list that knows two denominations, OSMO also by its symbol. *)
Definition getAsset (anyDenom : string) : option Currency :=
  if String.eqb anyDenom "uosmo" || String.eqb anyDenom "OSMO" then Some osmo
  else if String.eqb anyDenom "uusdc" then Some usdc
  else None.

(** An asset of 19 decimals. *)
Definition fine : Currency := mkCurrency "FINE" "afine" 19.

(** The same asset list, with the asset of 19 decimals. *)
Definition getAssetFine (anyDenom : string) : option Currency :=
  if String.eqb anyDenom "afine" then Some fine else getAsset anyDenom.

(** A raw asset with an integer amount. *)
Definition rawAsset (amount : Z) (denom : string) : @RawAsset ReferenceCoin.lib :=
  @mkRawAsset ReferenceCoin.lib (ReferenceCoin.integer amount) denom.

(** A raw asset whose amount is no decimal. *)
Definition rawAssetNotDecimal (denom : string) : @RawAsset ReferenceCoin.lib :=
  @mkRawAsset ReferenceCoin.lib ReferenceCoin.notDecimal denom.

(** [10^12], the multiplier of an 18-decimal base over a 6-decimal quote. *)
Definition tenTo12 : Dec.t := Dec.mk (10 ^ 30).

(** The price [1234.5678901]. *)
Definition price7 : Dec.t := Dec.mk 1234567890100000000000.
(** The price [1234.56789]. *)
Definition price5 : Dec.t := Dec.mk 1234567890000000000000.

End Sample.

(** ** The vocabulary of the statements *)

(** *** Strings *)

Module StringSpec.

(** The claim's wording of [trimZerosFromEnd], kept apart from the code. *)

Definition isZeroChar (c : ascii) : bool := Ascii.eqb c "0"%char.

Fixpoint dropLeadingZeros (s : jsstring) : jsstring :=
  match s with
  | c :: s' => if isZeroChar c then dropLeadingZeros s' else s
  | [] => []
  end.

(** All ['0'] characters at the end removed. *)
Definition stripTrailingZeros (s : jsstring) : jsstring :=
  rev (dropLeadingZeros (rev s)).

(** A ['.'] that is the last character removed. *)
Definition stripFinalDot (s : jsstring) : jsstring :=
  match rev s with
  | c :: r => if Ascii.eqb c "."%char then rev r else s
  | [] => s
  end.

(** The characters after the first ['.'], when there is one. *)
Fixpoint afterFirstDot (s : jsstring) : option jsstring :=
  match s with
  | [] => None
  | c :: s' => if Ascii.eqb c "."%char then Some s' else afterFirstDot s'
  end.

Definition trimZerosFromEnd_spec (s : jsstring) : jsstring :=
  match afterFirstDot s with
  | None => s
  | Some post =>
      if forallb isZeroChar post then s
      else stripFinalDot (stripTrailingZeros s)
  end.

(** The three replacements of [normalizeUrl], one by one. *)

Definition withoutScheme (url : jsstring) : jsstring :=
  match removePrefix (str "https://") url with
  | Some rest => rest
  | None =>
      match removePrefix (str "http://") url with
      | Some rest => rest
      | None => url
      end
  end.

Definition withoutWww (url : jsstring) : jsstring :=
  match removePrefix (str "www.") url with
  | Some rest => rest
  | None => url
  end.

Definition withoutSlash (url : jsstring) : jsstring :=
  match rev url with
  | c :: front => if Ascii.eqb c "/"%char then rev front else url
  | [] => url
  end.

End StringSpec.

(** *** Reward aggregation *)

Module RewardSpec.
Section Coins.
Context {lib : CoinPrettyLib}.

(** The claim's wording: what a denomination collects from a raw list. *)

Definition denomOf (c : CoinPretty) : string := coinMinimalDenom (currency c).

Definition rawsOf (rawAssets : option (list RawAsset)) : list RawAsset :=
  match rawAssets with Some l => l | None => [] end.

(** The raw asset is known and its asset has the minimal denomination [d]. *)
Definition resolves (getAsset : string -> option Currency) (d : string)
    (r : RawAsset) : bool :=
  match getAsset (raw_denom r) with
  | Some asset => String.eqb (coinMinimalDenom asset) d
  | None => false
  end.

(** The amount of the coin that a raw asset makes, 0 when it makes none. *)
Definition coinAmount (getAsset : string -> option Currency) (r : RawAsset) : Z :=
  match getAsset (raw_denom r) with
  | Some asset =>
      match newCoinPretty asset (raw_amount r) with
      | Ok coin => amount coin
      | Throw _ => 0
      end
  | None => 0
  end.

(** The sum of the occurrences of [d] in a raw list. *)
Fixpoint rawTotal (getAsset : string -> option Currency) (d : string)
    (l : list RawAsset) : Z :=
  match l with
  | [] => 0
  | r :: l' =>
      (if resolves getAsset d r then coinAmount getAsset r else 0)
      + rawTotal getAsset d l'
  end.

Fixpoint coinTotal (d : string) (l : list CoinPretty) : Z :=
  match l with
  | [] => 0
  | c :: l' => (if String.eqb (denomOf c) d then amount c else 0) + coinTotal d l'
  end.

(** The constructor returns on the raw asset, when its asset is known. *)
Definition made (getAsset : string -> option Currency) (r : RawAsset) : bool :=
  match getAsset (raw_denom r) with
  | Some asset =>
      match newCoinPretty asset (raw_amount r) with
      | Ok _ => true
      | Throw _ => false
      end
  | None => true
  end.

(** The absolute amounts of a list, added up. *)
Fixpoint rawAbsTotal (getAsset : string -> option Currency) (l : list RawAsset) : Z :=
  match l with
  | [] => 0
  | r :: l' => Z.abs (coinAmount getAsset r) + rawAbsTotal getAsset l'
  end.

Fixpoint coinAbsTotal (l : list CoinPretty) : Z :=
  match l with
  | [] => 0
  | c :: l' => Z.abs (amount c) + coinAbsTotal l'
  end.

(** The invariant of the fold: after the coins [done], the map has one entry
    per denomination met, holding the sum of that denomination. *)
Definition summed (m : JSMap.t CoinPretty) (done : list CoinPretty) : Prop :=
  NoDup (map fst m)
  /\ (forall k, In k (map fst m) <-> In k (map denomOf done))
  /\ (forall k v, In (k, v) m -> denomOf v = k /\ amount v = coinTotal k done).

End Coins.
End RewardSpec.

(** *** Numbers *)

Module NumberSpec.
Import JSNumber.

(** [x] is within a factor two of [n / d], both ways. *)
Definition within2 (x : t) (n d : Z) : Prop :=
  num x * d <= 2 * n * den x /\ n * den x <= 2 * num x * d.

(** A number as [ofDec] makes it: zero, or with a mantissa of 53 bits. *)
Definition normal (x : t) : Prop :=
  (mant x = 0 /\ expo x = 0) \/ 2 ^ 52 <= Z.abs (mant x) < 2 ^ 53.

(** The decimal [s * 10^p] is at most twice [x]. *)
Definition atMostTwice (x : t) (s p : Z) : Prop :=
  0 <= s
  /\ (0 <= p -> s * 10 ^ p * den x <= 2 * num x)
  /\ (p < 0 -> s * den x <= 2 * num x * 10 ^ (- p)).

End NumberSpec.

(** *** The status of a position *)

(** The bound of the statement on [getPositionStatus]: prices up to
    [10^56], under which the subtractions and the passage through a double
    stay in the range of [Dec]. *)
Definition priceBound : Z := 10 ^ 74.

(** The status, once the percentage is known. *)
Definition statusOf (i : PositionStatusInput) (diffPercentage : Dec.t) : PositionStatus :=
  if isFullRange i then fullRange
  else if isUnbonding i then unbonding
  else if isSuperfluid i then superfluidStaked
  else if isSuperfluidUnstaking i then superfluidUnstaking
  else if Dec.lt (lowerPrice i) (currentPrice i) && Dec.gt (upperPrice i) (currentPrice i)
       then (if Dec.lte diffPercentage (Dec.lit 15) then nearBounds else inRange)
  else outOfRange.

(** *** Worlds *)

Module HeapSpec.
Section World.
Context {G : Type}.

(** What a caller can see of a world is kept: the objects that exist stay as
    they are, and so does the state of the module. *)
Definition extends (w w' : Heap.world G) : Prop :=
  (exists new, Heap.objects w' = Heap.objects w ++ new)
  /\ Heap.moduleState w' = Heap.moduleState w.

(** Every power of ten in the table is the object it is filed under, as
    [DecUtils.getTenExponentN] computes it. *)
Definition tableOk (w : Heap.world G) : Prop :=
  forall n r, In (n, r) (Heap.tenExponentNs w) ->
    exists d, DecUtils.getTenExponentN n = Ok d
              /\ Heap.deref w r = Some (Dec.int d).

(** A computation follows a pure result: where the pure function returns [b],
    the computation returns some [a] in a world that extends the first one,
    keeps the table sound, and relates [a] to [b]; where the pure function
    throws, the computation throws the same exception. *)
Definition sim {A B : Type} (m : Heap.JS G A) (w : Heap.world G) (p : result B)
    (R : B -> A -> Heap.world G -> Prop) : Prop :=
  match p with
  | Ok b => exists a w', m w = Ok (a, w') /\ extends w w'
                         /\ (tableOk w -> tableOk w') /\ R b a w'
  | Throw e => m w = Throw e
  end.

(** The relations between a pure result and what the computation returns:
    the same value, or a reference to an object that holds it. *)
Definition same {A : Type} (b a : A) (w : Heap.world G) : Prop := a = b.
Definition holds (d : Dec.t) (r : Heap.ref) (w : Heap.world G) : Prop :=
  Heap.deref w r = Some (Dec.int d).

(** A tick that may be [undefined]. *)
Definition tickAt (w : Heap.world G) (r : option Heap.ref) (v : option Int.t) : Prop :=
  match r, v with
  | Some r, Some v => Heap.deref w r = Some (Int.int v)
  | None, None => True
  | _, _ => False
  end.

(** Two runs end alike: both return, in worlds that extend the ones they
    started in, results that [E] relates, or both throw the same exception. *)
Definition sameOutcome {A : Type}
    (E : A -> Heap.world G -> A -> Heap.world G -> Prop)
    (w1 w2 : Heap.world G) (o1 o2 : result (A * Heap.world G)) : Prop :=
  match o1, o2 with
  | Ok (a1, w1'), Ok (a2, w2') => extends w1 w1' /\ extends w2 w2' /\ E a1 w1' a2 w2'
  | Throw e1, Throw e2 => e1 = e2
  | _, _ => False
  end.

End World.
End HeapSpec.

(** * Properties *)

(** ** Sample runs *)

Example truncateString_default :
  truncateString (str "osmo1xyz9876543210") None = str "osmo1xyz...".
Proof. reflexivity. Qed.

Example trimZerosFromEnd_samples :
  trimZerosFromEnd (str "1.5000") = str "1.5"
  /\ trimZerosFromEnd (str "1.000") = str "1.000"
  /\ trimZerosFromEnd (str "100") = str "100"
  /\ trimZerosFromEnd (str "0.10.") = str "0.10".
Proof. repeat split. Qed.

(** [Number("0.150000000000000001")] is the double [0.15], and
    [(0.1 + 0.2).toString()], the double [0x1.3333333333334p-2], is
    ["0.30000000000000004"]. *)
Example number_samples :
  JSNumber.ofDec (Dec.mk 150000000000000001) = JSNumber.ofDec (Dec.mk 150000000000000000)
  /\ JSNumber.toDecimal (JSNumber.ofDec (Dec.mk 150000000000000001)) = (15, -2)
  /\ JSNumber.toDecimal (JSNumber.mk 5404319552844596 (-54)) = (30000000000000004, -17).
Proof. repeat split; vm_compute; reflexivity. Qed.

Example priceToTick_samples :
  ReferenceMath.priceToTick (Dec.lit 1) = Ok (Int.mk 0)
  /\ ReferenceMath.priceToTick (Dec.lit 2) = Ok (Int.mk 1000000)
  /\ ReferenceMath.priceToTick (Dec.mk (5 * 10 ^ 17)) = Ok (Int.mk (-5000000))
  /\ ReferenceMath.priceToTick (Dec.mk (10 ^ 56)) = Ok (Int.mk 342000000)
  /\ ReferenceMath.priceToTick (Dec.mk 0) = Throw MathError.
Proof. repeat split; vm_compute; reflexivity. Qed.

(** Far out of a range of width [10^-18], the quotient of [diff] by the
    width leaves the range of [Dec]. *)
Example getPositionStatus_throws_sample :
  getPositionStatus
    (mkPositionStatusInput (Dec.mk (10 ^ 60 + 5)) (Dec.mk (10 ^ 60 + 6)) (Dec.mk 5)
                           false false false false)
  = Throw IntegerOutOfRange.
Proof. vm_compute. reflexivity. Qed.

(** 5 and 2 uosmo are [0.000007] OSMO. *)
Example getTotalClaimableRewards_sample :
  getTotalClaimableRewards (lib := ReferenceCoin.lib) Sample.getAsset
    (Some [Sample.rawAsset 5 "uosmo"; Sample.rawAsset 7 "unknown"])
    (Some [Sample.rawAsset 1 "uusdc"; Sample.rawAsset 2 "OSMO";
           Sample.rawAsset 3 "uusdc"])
  = Ok [mkCoinPretty Sample.usdc (4 * 10 ^ 12); mkCoinPretty Sample.osmo (7 * 10 ^ 12)].
Proof. vm_compute. reflexivity. Qed.

(** The other helpers of [utils/string]. *)
Example short_samples :
  getShortAddress (str "osmo1abcdefghijklmnopqrstuvwxyz0123456789") None None
  = str "osmo1a...56789"
  /\ getShortAddress (str "abc") None None = str "abc...abc"
  /\ formatICNSName (Some (str "averyveryverylongusername_indeed.osmo")) None
     = Some (str "averyveryv...ndeed.osmo")
  /\ formatICNSName (Some (str "averyveryverylongusernamewithoutchain")) None
     = Some (str "averyveryv...chain.undefined")
  /\ normalizeUrl (str "https://www.osmosis.zone/") = str "osmosis.zone"
  /\ normalizeUrl (str "http://https://a") = str "https://a"
  /\ ellipsisText (str "  hello world  ") 10 = str "hello w..."
  /\ ellipsisText (str "abcdefgh") 2 = str "abcdefg..."
  /\ camelCaseToSnakeCase (str "poolIdOfUSDC2Osmo") = str "pool_id_of_usdc2osmo".
Proof. repeat split. Qed.

(** ** Strings *)


Section StringFacts.
Import StringSpec.

Lemma indexOf_ge_m1 (s : jsstring) (c : ascii) : -1 <= JSString.indexOf s c.
Proof.
  induction s as [|x s IH]; simpl; [lia|].
  destruct (Ascii.eqb x c); [lia|].
  destruct (JSString.indexOf s c <? 0) eqn:E; [lia|].
  apply Z.ltb_ge in E. lia.
Qed.

(** [indexOf] finds the first occurrence: the string splits around it. *)
Lemma indexOf_split (s : jsstring) (c : ascii) :
  match afterFirstDot s with
  | None => JSString.indexOf s "."%char = -1
  | Some post =>
      exists pre, s = pre ++ "."%char :: post
                  /\ JSString.indexOf s "."%char = Z.of_nat (List.length pre)
  end.
Proof.
  induction s as [|x s IH]; simpl; [reflexivity|].
  destruct (Ascii.eqb x ".") eqn:E.
  - apply Ascii.eqb_eq in E. subst x. exists []. split; reflexivity.
  - destruct (afterFirstDot s) as [post|].
    + destruct IH as (pre & -> & Hi). exists (x :: pre). split; [reflexivity|].
      rewrite Hi. simpl List.length.
      destruct (Z.of_nat (List.length pre) <? 0) eqn:F.
      * apply Z.ltb_lt in F. lia.
      * lia.
    + rewrite IH. reflexivity.
Qed.

Lemma substringFrom_app (pre post : jsstring) (c : ascii) :
  JSString.substringFrom (pre ++ c :: post) (Z.of_nat (List.length pre) + 1) = post.
Proof.
  unfold JSString.substringFrom, JSString.length.
  rewrite length_app. simpl List.length.
  replace (Z.to_nat _) with (List.length pre + 1)%nat by lia.
  rewrite skipn_app, skipn_all2 by lia.
  replace (List.length pre + 1 - List.length pre)%nat with 1%nat by lia.
  reflexivity.
Qed.

Lemma existsb_nonzero (post : jsstring) :
  negb (existsb (fun char => negb (Ascii.eqb char "0"%char)) post)
  = forallb isZeroChar post.
Proof.
  induction post as [|c post IH]; simpl; [reflexivity|].
  unfold isZeroChar at 1. destruct (Ascii.eqb c "0"); simpl; [exact IH|reflexivity].
Qed.

(** A string with a character other than ['0'] ends in such a character
    followed by zeros only. *)
Lemma last_nonzero (post : jsstring) :
  forallb isZeroChar post = false ->
  exists body x zeros,
    post = body ++ x :: zeros /\ isZeroChar x = false
    /\ forallb isZeroChar zeros = true.
Proof.
  induction post as [|c post IH]; simpl; [discriminate|].
  destruct (forallb isZeroChar post) eqn:E.
  - rewrite andb_true_r. intros Hc. exists [], c, post. auto.
  - intros _. destruct (IH eq_refl) as (body & x & zeros & -> & Hx & Hz).
    exists (c :: body), x, zeros. auto.
Qed.

Lemma dropLeadingZeros_rev (front zeros : jsstring) (x : ascii) :
  isZeroChar x = false -> forallb isZeroChar zeros = true ->
  stripTrailingZeros (front ++ x :: zeros) = front ++ [x].
Proof.
  intros Hx Hz. unfold stripTrailingZeros.
  rewrite rev_app_distr. simpl rev. rewrite <- app_assoc. simpl.
  assert (D : forall l rest, forallb isZeroChar l = true ->
              dropLeadingZeros (l ++ x :: rest) = x :: rest).
  { induction l as [|c l IH]; simpl; intros rest Hl.
    - rewrite Hx. reflexivity.
    - apply andb_prop in Hl. destruct Hl as [Hc Hl]. rewrite Hc. auto. }
  rewrite D.
  - simpl. rewrite rev_involutive. reflexivity.
  - rewrite forallb_forall in *. intros c Hc. apply Hz, in_rev, Hc.
Qed.

Lemma charAt_app (front rest : jsstring) (n : nat) (c : ascii) :
  nth_error rest n = Some c ->
  JSString.charAt (front ++ rest) (Z.of_nat (List.length front + n)) = [c].
Proof.
  intros N. unfold JSString.charAt.
  destruct (Z.of_nat (List.length front + n) <? 0) eqn:E;
    [apply Z.ltb_lt in E; lia|].
  rewrite Nat2Z.id, nth_error_app2 by lia.
  replace (List.length front + n - List.length front)%nat with n by lia.
  rewrite N. reflexivity.
Qed.

Lemma charAt_here (front rest : jsstring) (c : ascii) :
  JSString.charAt (front ++ c :: rest) (Z.of_nat (List.length front)) = [c].
Proof.
  pose proof (charAt_app front (c :: rest) 0 c eq_refl) as C.
  rewrite Nat.add_0_r in C. exact C.
Qed.

Lemma eqb_single (c d : ascii) : JSString.eqb [c] [d] = Ascii.eqb c d.
Proof.
  unfold JSString.eqb. destruct (list_eq_dec ascii_dec [c] [d]) as [E|E].
  - inversion E. symmetry. apply Ascii.eqb_refl.
  - destruct (Ascii.eqb c d) eqn:F; [|reflexivity].
    apply Ascii.eqb_eq in F. subst. contradiction.
Qed.

Lemma trimLoop_succ (s : jsstring) (dp : Z) (j : nat) :
  trimLoop s dp (S j)
  = if (dp <? Z.of_nat (S j))
       && JSString.eqb (JSString.charAt s (Z.of_nat (S j))) (str "0")
    then trimLoop s dp j else S j.
Proof. reflexivity. Qed.

(** The loop stops on the last character that is not a ['0']. *)
Lemma trimLoop_stops (front zeros : jsstring) (x : ascii) (dp : Z) :
  isZeroChar x = false -> forallb isZeroChar zeros = true ->
  dp < Z.of_nat (List.length front) ->
  forall n, (n <= List.length zeros)%nat ->
    trimLoop (front ++ x :: zeros) dp (List.length front + n) = List.length front.
Proof.
  intros Hx Hz Hdp. induction n as [|n IH]; intros Hn.
  - rewrite Nat.add_0_r. destruct (List.length front) as [|j] eqn:L.
    + reflexivity.
    + rewrite trimLoop_succ, <- L.
      rewrite charAt_here.
      change (str "0") with ["0"%char]. rewrite eqb_single.
      unfold isZeroChar in Hx. rewrite Hx, andb_false_r. reflexivity.
  - replace (List.length front + S n)%nat with (S (List.length front + n)) by lia.
    rewrite trimLoop_succ.
    replace (S (List.length front + n)) with (List.length front + S n)%nat by lia.
    destruct (nth_error zeros n) as [c|] eqn:N.
    + rewrite (charAt_app front (x :: zeros) (S n) c N).
      assert (Hc : isZeroChar c = true).
      { rewrite forallb_forall in Hz. apply Hz. eapply nth_error_In, N. }
      change (str "0") with ["0"%char]. rewrite eqb_single.
      unfold isZeroChar in Hc. rewrite Hc.
      replace (dp <? _) with true by (symmetry; apply Z.ltb_lt; lia).
      simpl. apply IH. lia.
    + apply nth_error_None in N. lia.
Qed.

Lemma substring0_prefix (front rest : jsstring) :
  JSString.substring0 (front ++ rest) (Z.of_nat (List.length front)) = front.
Proof.
  unfold JSString.substring0, JSString.length. rewrite length_app.
  replace (Z.to_nat _) with (List.length front) by lia.
  rewrite firstn_app, firstn_all, Nat.sub_diag. simpl. apply app_nil_r.
Qed.

Lemma stripFinalDot_snoc (front : jsstring) (x : ascii) :
  stripFinalDot (front ++ [x])
  = if Ascii.eqb x "."%char then front else front ++ [x].
Proof.
  unfold stripFinalDot. rewrite rev_app_distr. simpl.
  destruct (Ascii.eqb x "."); [apply rev_involutive | reflexivity].
Qed.

Lemma afterFirstDot_None (s : jsstring) :
  afterFirstDot s = None <-> ~ In "."%char s.
Proof.
  induction s as [|c s IH]; simpl; [tauto|].
  destruct (Ascii.eqb c ".") eqn:E.
  - apply Ascii.eqb_eq in E. split; [discriminate | intros H; exfalso; auto].
  - apply Ascii.eqb_neq in E. rewrite IH. split.
    + intros H [F|F]; auto.
    + intros H F. auto.
Qed.

Lemma afterFirstDot_Some (s post : jsstring) :
  afterFirstDot s = Some post <->
  exists pre, s = pre ++ "."%char :: post /\ ~ In "."%char pre.
Proof.
  revert post. induction s as [|c s IH]; simpl; intros post.
  - split; [discriminate|]. intros ([|? ?] & E & _); discriminate.
  - destruct (Ascii.eqb c ".") eqn:E.
    + apply Ascii.eqb_eq in E. subst c. split.
      * intros [= ->]. exists []. auto.
      * intros ([|x pre] & F & N); [now inversion F|].
        inversion F; subst. exfalso. apply N. now left.
    + apply Ascii.eqb_neq in E. rewrite IH. split.
      * intros (pre & -> & N). exists (c :: pre). split; [reflexivity|].
        intros [F|F]; auto.
      * intros ([|x pre] & F & N); inversion F; subst; [congruence|].
        exists pre. split; [reflexivity|]. intros G. apply N. now right.
Qed.

Lemma length_slice0 (s : jsstring) (n : Z) :
  0 <= n -> n < JSString.length s ->
  JSString.slice0 s n = firstn (Z.to_nat n) s
  /\ JSString.length (JSString.slice0 s n) = n.
Proof.
  intros H0 Hn. unfold JSString.slice0, JSString.length in *.
  replace (n <? 0) with false by (symmetry; apply Z.ltb_ge; lia).
  rewrite Z.min_l by lia. split; [reflexivity|].
  rewrite length_firstn. lia.
Qed.

End StringFacts.

(** C7.  [trimZerosFromEnd] returns its argument when it has no ['.'] or when
    every character after the first ['.'] is a ['0']; otherwise it returns
    the argument without its trailing ['0'] characters, and without the ['.']
    when that is then the last character. *)
Theorem trimZerosFromEnd_correct (s : jsstring) :
  trimZerosFromEnd s = StringSpec.trimZerosFromEnd_spec s.
Proof.
  unfold trimZerosFromEnd, StringSpec.trimZerosFromEnd_spec.
  pose proof (indexOf_split s "."%char) as S.
  destruct (StringSpec.afterFirstDot s) as [post|].
  - destruct S as (pre & -> & Hi). rewrite Hi.
    replace (Z.of_nat (List.length pre) =? -1) with false
      by (symmetry; apply Z.eqb_neq; lia).
    rewrite substringFrom_app, existsb_nonzero.
    destruct (forallb StringSpec.isZeroChar post) eqn:A; [reflexivity|].
    destruct (last_nonzero post A) as (body & x & zeros & -> & Hx & Hz).
    set (front := pre ++ "."%char :: body).
    assert (Es : pre ++ "."%char :: body ++ x :: zeros = front ++ x :: zeros).
    { unfold front. rewrite <- app_assoc. reflexivity. }
    rewrite Es.
    assert (Hlen : Z.to_nat (JSString.length (front ++ x :: zeros) - 1)
                   = (List.length front + List.length zeros)%nat).
    { unfold JSString.length. rewrite length_app. simpl List.length. lia. }
    rewrite Hlen, trimLoop_stops; auto.
    2:{ unfold front. rewrite length_app. simpl List.length. lia. }
    rewrite charAt_here.
    change (str ".") with ["."%char]. rewrite eqb_single.
    rewrite dropLeadingZeros_rev, stripFinalDot_snoc by assumption.
    destruct (Ascii.eqb x ".").
    + replace (Z.of_nat (List.length front) - 1 + 1)
        with (Z.of_nat (List.length front)) by lia.
      apply substring0_prefix.
    + replace (front ++ x :: zeros) with ((front ++ [x]) ++ zeros)
        by (rewrite <- app_assoc; reflexivity).
      replace (Z.of_nat (List.length front) + 1)
        with (Z.of_nat (List.length (front ++ [x])))
        by (rewrite length_app; simpl List.length; lia).
      apply substring0_prefix.
  - rewrite S. reflexivity.
Qed.


(** C8, as stated, fails for a negative breakpoint: [slice(0, -1)] drops one
    character only, and the result is longer than [num + 3]. *)
Lemma truncateString_negative_breakpoint :
  truncateString (str "abcdef") (Some (-1)) = str "abcde..."
  /\ ~ (JSString.length (truncateString (str "abcdef") (Some (-1))) <= -1 + 3).
Proof. split; [reflexivity | vm_compute; intros H; apply H; reflexivity]. Qed.

(** C8, amended.  For a breakpoint [num >= 0] (8 when omitted),
    [truncateString] returns [str] unchanged when [str.length <= num], and
    otherwise the first [num] characters followed by ["..."]; the result has
    at most [num + 3] characters. *)
Theorem truncateString_correct (s : jsstring) (num : option Z) :
  0 <= orDefault num 8 ->
  (JSString.length s <= orDefault num 8 -> truncateString s num = s)
  /\ (orDefault num 8 < JSString.length s ->
      truncateString s num = firstn (Z.to_nat (orDefault num 8)) s ++ str "...")
  /\ JSString.length (truncateString s num) <= orDefault num 8 + 3.
Proof.
  intros H0. unfold truncateString. set (n := orDefault num 8) in *.
  destruct (JSString.length s <=? n) eqn:E.
  - apply Z.leb_le in E. repeat split; [lia | lia].
  - apply Z.leb_gt in E. destruct (length_slice0 s n H0 E) as [Hs Hl].
    repeat split; [lia | now rewrite Hs |].
    unfold JSString.length in *. rewrite length_app. simpl List.length. lia.
Qed.

Lemma truncateString_correct_witness :
  0 <= orDefault None 8
  /\ truncateString (str "concentrated") None = str "concentr..."
  /\ JSString.length (truncateString (str "concentrated") None) <= 8 + 3.
Proof.
  assert (H : 0 <= orDefault None 8) by (vm_compute; discriminate).
  split; [exact H|].
  destruct (truncateString_correct (str "concentrated") None H) as (_ & H2 & H3).
  split; [apply H2; reflexivity | exact H3].
Defined.

(** ** Fixed-point arithmetic *)

Module DecFacts.
Import Dec.

Lemma precisionMultiplier_val : precisionMultiplier = 1000000000000000000.
Proof. reflexivity. Qed.

Lemma maxDec_pos : 0 < maxDec.
Proof. reflexivity. Qed.

Lemma make_ok (i : Z) : Z.abs i <= maxDec -> make i = Ok (mk i).
Proof. intros H. unfold make. apply Z.leb_le in H. rewrite H. reflexivity. Qed.

Lemma make_inv (i : Z) (d : t) : make i = Ok d -> d = mk i /\ Z.abs i <= maxDec.
Proof.
  unfold make. destruct (Z.abs i <=? maxDec) eqn:E; [|discriminate].
  intros [= <-]. apply Z.leb_le in E. auto.
Qed.

Lemma make_throws (i : Z) : maxDec < Z.abs i -> make i = Throw IntegerOutOfRange.
Proof. intros H. unfold make. apply Z.leb_gt in H. rewrite H. reflexivity. Qed.

Lemma checkBitLen_ok (i : Z) : Z.abs i <= maxDec -> checkBitLen i = Ok i.
Proof. intros H. unfold checkBitLen. apply Z.leb_le in H. rewrite H. reflexivity. Qed.

Lemma checkBitLen_inv (i j : Z) : checkBitLen i = Ok j -> j = i /\ Z.abs i <= maxDec.
Proof.
  unfold checkBitLen. destruct (Z.abs i <=? maxDec) eqn:E; [|discriminate].
  intros [= <-]. apply Z.leb_le in E. auto.
Qed.

Lemma checkBitLen_throws (i : Z) :
  maxDec < Z.abs i -> checkBitLen i = Throw IntegerOutOfRange.
Proof. intros H. unfold checkBitLen. apply Z.leb_gt in H. rewrite H. reflexivity. Qed.

Lemma eq_int (a b : t) : int a = int b -> a = b.
Proof. destruct a, b. simpl. congruence. Qed.

(** On a non-negative argument the rounded quotient is the truncated
    quotient or its successor, half a unit away at most. *)
Lemma chopAbs_bounds (a : Z) :
  0 <= a ->
  2 * Z.abs (chopAbs a * precisionMultiplier - a) <= precisionMultiplier
  /\ 0 <= chopAbs a.
Proof.
  intros Ha. unfold chopAbs.
  rewrite Z.quot_div_nonneg, Z.rem_mod_nonneg by (rewrite ?precisionMultiplier_val; lia).
  rewrite precisionMultiplier_val.
  change (Z.quot 1000000000000000000 2) with 500000000000000000.
  pose proof (Z.div_mod a 1000000000000000000 ltac:(lia)) as D.
  pose proof (Z.mod_pos_bound a 1000000000000000000 ltac:(lia)) as B.
  assert (0 <= a / 1000000000000000000) by (apply Z.div_pos; lia).
  repeat match goal with
         | |- context [if ?c then _ else _] => destruct c eqn:?
         end;
    repeat match goal with
           | H : (_ =? _) = true |- _ => apply Z.eqb_eq in H
           | H : (_ =? _) = false |- _ => apply Z.eqb_neq in H
           | H : (_ <? _) = true |- _ => apply Z.ltb_lt in H
           | H : (_ <? _) = false |- _ => apply Z.ltb_ge in H
           end; lia.
Qed.

Lemma chop_bounds (i : Z) :
  2 * Z.abs (chopPrecisionAndRound i * precisionMultiplier - i) <= precisionMultiplier.
Proof.
  unfold chopPrecisionAndRound. destruct (i <? 0) eqn:E.
  - apply Z.ltb_lt in E. pose proof (chopAbs_bounds (Z.abs i) ltac:(lia)). lia.
  - apply Z.ltb_ge in E. pose proof (chopAbs_bounds i E). lia.
Qed.

(** A multiple of the precision is chopped without rounding. *)
Lemma chop_exact (k : Z) : chopPrecisionAndRound (k * precisionMultiplier) = k.
Proof.
  pose proof (chop_bounds (k * precisionMultiplier)) as B.
  rewrite precisionMultiplier_val in *. lia.
Qed.

(** Chopping makes no integer larger. *)
Lemma chop_abs_le (i : Z) : Z.abs (chopPrecisionAndRound i) <= Z.abs i.
Proof.
  pose proof (chop_bounds i) as B. rewrite precisionMultiplier_val in B. lia.
Qed.

(** The sign of a chopped integer. *)
Lemma chop_sign (i : Z) :
  (0 <= i -> 0 <= chopPrecisionAndRound i) /\ (i <= 0 -> chopPrecisionAndRound i <= 0).
Proof.
  pose proof (chop_bounds i) as B. rewrite precisionMultiplier_val in B. lia.
Qed.

(** [mul]: it returns exactly when the product of the raw integers is in
    range. *)
Lemma mul_ok (a b : t) :
  Z.abs (int a * int b) <= maxDec ->
  mul a b = Ok (mk (chopPrecisionAndRound (int a * int b))).
Proof.
  intros H. unfold mul, mulRaw. rewrite checkBitLen_ok by exact H. cbn [bind].
  apply make_ok. pose proof (chop_abs_le (int a * int b)). lia.
Qed.

Lemma mul_inv (a b c : t) :
  mul a b = Ok c ->
  Z.abs (int a * int b) <= maxDec /\ c = mk (chopPrecisionAndRound (int a * int b)).
Proof.
  unfold mul, mulRaw.
  destruct (checkBitLen (int a * int b)) as [p|] eqn:C; [|discriminate].
  apply checkBitLen_inv in C. destruct C as [-> C]. cbn [bind].
  intros H. apply make_inv in H. destruct H as [-> _]. auto.
Qed.

Lemma mul_throws (a b : t) :
  maxDec < Z.abs (int a * int b) -> mul a b = Throw IntegerOutOfRange.
Proof.
  intros H. unfold mul, mulRaw. rewrite checkBitLen_throws by exact H. reflexivity.
Qed.

(** [quo]: with a divisor that is not zero it returns exactly when the raw
    quotient is in range. *)
Lemma quo_ok (a b : t) :
  int b <> 0 ->
  Z.abs (Z.quot (int a * precisionMultiplier * precisionMultiplier) (int b)) <= maxDec ->
  quo a b = Ok (mk (chopPrecisionAndRound
                      (Z.quot (int a * precisionMultiplier * precisionMultiplier) (int b)))).
Proof.
  intros Hb Hr. unfold quo, quoRaw.
  replace (int b =? 0) with false by (symmetry; apply Z.eqb_neq; exact Hb).
  rewrite checkBitLen_ok by exact Hr. cbn [bind]. apply make_ok.
  pose proof (chop_abs_le
                (Z.quot (int a * precisionMultiplier * precisionMultiplier) (int b))).
  lia.
Qed.

Lemma quo_inv (a b c : t) :
  quo a b = Ok c ->
  int b <> 0
  /\ Z.abs (Z.quot (int a * precisionMultiplier * precisionMultiplier) (int b)) <= maxDec
  /\ c = mk (chopPrecisionAndRound
               (Z.quot (int a * precisionMultiplier * precisionMultiplier) (int b))).
Proof.
  unfold quo, quoRaw. destruct (int b =? 0) eqn:E; [discriminate|].
  apply Z.eqb_neq in E.
  destruct (checkBitLen _) as [q|] eqn:C; [|discriminate].
  apply checkBitLen_inv in C. destruct C as [-> C]. cbn [bind].
  intros H. apply make_inv in H. destruct H as [-> _]. auto.
Qed.

Lemma quo_throws (a b : t) :
  int b <> 0 ->
  maxDec < Z.abs (Z.quot (int a * precisionMultiplier * precisionMultiplier) (int b)) ->
  quo a b = Throw IntegerOutOfRange.
Proof.
  intros Hb H. unfold quo, quoRaw.
  replace (int b =? 0) with false by (symmetry; apply Z.eqb_neq; exact Hb).
  rewrite checkBitLen_throws by exact H. reflexivity.
Qed.

(** Multiplying by an integral [Dec] is exact. *)
Lemma mul_integral (a : t) (k : Z) :
  Z.abs (int a * (k * precisionMultiplier)) <= maxDec ->
  mul a (mk (k * precisionMultiplier)) = Ok (mk (int a * k)).
Proof.
  intros H. rewrite mul_ok by exact H. cbn [int].
  replace (int a * (k * precisionMultiplier)) with (int a * k * precisionMultiplier) by ring.
  rewrite chop_exact. reflexivity.
Qed.

Lemma pow10_pos (n : Z) : 0 <= n -> 0 < 10 ^ n.
Proof. intros. apply Z.pow_pos_nonneg; lia. Qed.

(** The loop of [pow] on whole numbers: it returns exactly the power, and
    only when the last product, with its 36 decimals, is in range. *)
Lemma powLoop_integral (i : positive) :
  forall B T r,
    0 < B -> 0 < T ->
    powLoop i (mk (B * precisionMultiplier)) (mk (T * precisionMultiplier)) = Ok r ->
    int r = B ^ Zpos i * T * precisionMultiplier
    /\ B ^ Zpos i * T * precisionMultiplier * precisionMultiplier <= maxDec.
Proof.
  induction i as [i IH | i IH |]; intros B T r HB HT; cbn [powLoop].
  - destruct (mul (mk (T * precisionMultiplier)) (mk (B * precisionMultiplier)))
      as [tmp|] eqn:M1; [|discriminate].
    apply mul_inv in M1. destruct M1 as [_ ->]. cbn [int bind].
    destruct (mul (mk (B * precisionMultiplier)) (mk (B * precisionMultiplier)))
      as [base|] eqn:M2; [|discriminate].
    apply mul_inv in M2. destruct M2 as [_ ->]. cbn [int bind].
    replace (T * precisionMultiplier * (B * precisionMultiplier))
      with (T * B * precisionMultiplier * precisionMultiplier) by ring.
    replace (B * precisionMultiplier * (B * precisionMultiplier))
      with (B * B * precisionMultiplier * precisionMultiplier) by ring.
    rewrite !chop_exact. intros H.
    apply IH in H; [|nia|nia]. rewrite Pos2Z.inj_xI.
    replace (B ^ (2 * Z.pos i + 1) * T) with ((B * B) ^ Z.pos i * (T * B)).
    + exact H.
    + rewrite Z.pow_add_r, Z.pow_mul_r, Z.pow_1_r by lia.
      change (B ^ 2) with (B * (B * 1)). rewrite Z.mul_1_r. ring.
  - destruct (mul (mk (B * precisionMultiplier)) (mk (B * precisionMultiplier)))
      as [base|] eqn:M2; [|discriminate].
    apply mul_inv in M2. destruct M2 as [_ ->]. cbn [int bind].
    replace (B * precisionMultiplier * (B * precisionMultiplier))
      with (B * B * precisionMultiplier * precisionMultiplier) by ring.
    rewrite !chop_exact. intros H.
    apply IH in H; [|nia|nia]. rewrite Pos2Z.inj_xO.
    replace (B ^ (2 * Z.pos i)) with ((B * B) ^ Z.pos i).
    + exact H.
    + rewrite Z.pow_mul_r by lia.
      change (B ^ 2) with (B * (B * 1)). rewrite Z.mul_1_r. reflexivity.
  - intros H. apply mul_inv in H. destruct H as [R ->]. cbn [int] in *.
    replace (B * precisionMultiplier * (T * precisionMultiplier))
      with (B * T * precisionMultiplier * precisionMultiplier) in * by ring.
    rewrite chop_exact, Z.pow_1_r. split; [reflexivity|].
    assert (0 < B * T * precisionMultiplier * precisionMultiplier)
      by (rewrite precisionMultiplier_val; nia).
    lia.
Qed.

(** The powers of ten that [DecUtils.getTenExponentN] has: those from
    [10^-18] to [10^59]. *)
Lemma getTenExponentN_table :
  forallb (fun n => match DecUtils.getTenExponentN n with
                    | Ok d => int d =? 10 ^ (precision + n)
                    | Throw _ => false
                    end)
          (map (fun k => Z.of_nat k - 18) (seq 0 78)) = true.
Proof. vm_compute. reflexivity. Qed.

Lemma getTenExponentN_ok (n : Z) :
  - 18 <= n <= 59 -> DecUtils.getTenExponentN n = Ok (mk (10 ^ (precision + n))).
Proof.
  intros H. pose proof getTenExponentN_table as F.
  rewrite forallb_forall in F. specialize (F n).
  assert (I : In n (map (fun k => Z.of_nat k - 18) (seq 0 78))).
  { apply in_map_iff. exists (Z.to_nat (n + 18)). split; [lia|].
    apply in_seq. lia. }
  specialize (F I). destruct (DecUtils.getTenExponentN n) as [d|]; [|discriminate].
  apply Z.eqb_eq in F. f_equal. apply eq_int. exact F.
Qed.

Lemma getTenExponentN_inv (n : Z) (d : t) :
  DecUtils.getTenExponentN n = Ok d ->
  - 18 <= n <= 59 /\ int d = 10 ^ (precision + n).
Proof.
  intros H.
  assert (R : - 18 <= n <= 59).
  { unfold DecUtils.getTenExponentN in H.
    destruct (n <? - precision) eqn:E; [discriminate|]. apply Z.ltb_ge in E.
    unfold precision in E. split; [exact E|]. destruct (Z.le_gt_cases n 59) as [L|L]; [exact L|exfalso].
    destruct n as [|i|i]; try lia. cbn [pow] in H.
    change (lit 10) with (mk (10 * precisionMultiplier)) in H.
    change (lit 1) with (mk (1 * precisionMultiplier)) in H.
    apply powLoop_integral in H; [|lia|lia]. destruct H as [_ H].
    assert (P : 10 ^ 60 <= 10 ^ Z.pos i) by (apply Z.pow_le_mono_r; lia).
    rewrite precisionMultiplier_val in H.
    assert (M : maxDec < 10 ^ 60 * 1 * 1000000000000000000 * 1000000000000000000)
      by (vm_compute; reflexivity).
    nia. }
  split; [exact R|]. rewrite (getTenExponentN_ok n R) in H.
  injection H as <-. reflexivity.
Qed.

End DecFacts.

(** ** Currency decimals of a price *)

Section CurrencyDecimals.
Import Dec DecFacts.

(** The multiplier is [c] whole units: [mul] is exact, [quo] divides by [c]
    and rounds. *)
Lemma quo_whole (p : t) (c : Z) :
  0 < c -> Z.abs (int p) * precisionMultiplier <= maxDec ->
  quo p (mk (c * precisionMultiplier))
  = Ok (mk (chopPrecisionAndRound (Z.quot (int p * precisionMultiplier) c))).
Proof.
  intros Hc Hp.
  assert (E : Z.quot (int p * precisionMultiplier * precisionMultiplier)
                     (c * precisionMultiplier)
              = Z.quot (int p * precisionMultiplier) c)
    by (apply Z.quot_mul_cancel_r; rewrite ?precisionMultiplier_val; lia).
  rewrite quo_ok; cbn [int]; rewrite ?E.
  - reflexivity.
  - rewrite precisionMultiplier_val. lia.
  - rewrite <- Z.quot_abs by lia. rewrite Z.quot_div_nonneg by lia.
    rewrite Z.abs_mul, (Z.abs_eq precisionMultiplier), (Z.abs_eq c)
      by (rewrite ?precisionMultiplier_val; lia).
    pose proof (Z.div_le_upper_bound (Z.abs (int p) * precisionMultiplier) c
                  (Z.abs (int p) * precisionMultiplier) Hc) as D.
    assert (Z.abs (int p) * precisionMultiplier
            <= c * (Z.abs (int p) * precisionMultiplier))
      by (rewrite precisionMultiplier_val; nia).
    specialize (D ltac:(assumption)). lia.
Qed.

(** The multiplier is one [c]-th of a unit, [mu * c = 10^18]: [quo] is exact,
    [mul] divides by [c] and rounds. *)
Lemma quo_fraction (q : t) (mu c : Z) :
  0 < c -> mu * c = precisionMultiplier ->
  Z.abs (int q * c * precisionMultiplier) <= maxDec ->
  quo q (mk mu) = Ok (mk (int q * c)).
Proof.
  intros Hc Hm Hq.
  assert (M : mu <> 0) by (intros ->; rewrite precisionMultiplier_val in Hm; lia).
  assert (E : Z.quot (int q * precisionMultiplier * precisionMultiplier) mu
              = int q * c * precisionMultiplier).
  { replace (int q * precisionMultiplier * precisionMultiplier)
      with (int q * c * precisionMultiplier * mu) by (rewrite <- Hm; ring).
    apply Z.quot_mul, M. }
  rewrite quo_ok; cbn [int]; rewrite ?E.
  - rewrite chop_exact. reflexivity.
  - exact M.
  - exact Hq.
Qed.

Lemma multiplier_int (base quote : option Currency) (m : t) :
  multiplicationQuoteOverBase base quote = Ok m ->
  let d := decimalsOrZero base - decimalsOrZero quote in
  - 18 <= d <= 59 /\ m = mk (10 ^ (18 + d)).
Proof.
  intros H d. unfold multiplicationQuoteOverBase in H. fold d in H.
  apply getTenExponentN_inv in H. destruct H as [R H].
  split; [exact R|]. apply eq_int. exact H.
Qed.

End CurrencyDecimals.

(** C6, as stated, fails: with an 18-decimal base and a 6-decimal quote
    currency, removing the currency decimals of [1234.5678901] rounds the
    eighteenth decimal away, and adding them again gives [1234.56789]. *)
Lemma currencyDecimals_roundtrip_loses_digits :
  multiplicationQuoteOverBase (Some Sample.eth) (Some Sample.usdc) = Ok Sample.tenTo12
  /\ (q <- removeCurrencyDecimals Sample.tenTo12 Sample.price7 ;;
      addCurrencyDecimals Sample.tenTo12 q) = Ok Sample.price5
  /\ Sample.price5 <> Sample.price7.
Proof. repeat split; [vm_compute; reflexivity .. | discriminate]. Qed.

(** C6, amended.  Let [d] be the base decimals minus the quote decimals,
    from -18 to 59 (outside, the multiplier itself throws), and let
    [|p| * 10^|d|], taken with the 36 decimals of a raw product or quotient,
    lie in the [Dec] range: [|int p| * 10^(18 + |d|) <= 2^316 - 1].  Then
    neither callback throws on the way, and
    [removeCurrencyDecimals (addCurrencyDecimals p)] returns [p] exactly when
    [d >= 0] or [p] is a multiple of [10^(-d)] units of [10^-18], and
    [addCurrencyDecimals (removeCurrencyDecimals p)] returns [p] exactly when
    [d <= 0] or [p] is a multiple of [10^d] such units. *)
Theorem currencyDecimals_roundtrip (base quote : option Currency) (m p : Dec.t) :
  multiplicationQuoteOverBase base quote = Ok m ->
  Z.abs (Dec.int p) * 10 ^ (18 + Z.abs (decimalsOrZero base - decimalsOrZero quote))
    <= Dec.maxDec ->
  let d := decimalsOrZero base - decimalsOrZero quote in
  (exists q r, addCurrencyDecimals m p = Ok q /\ removeCurrencyDecimals m q = Ok r)
  /\ (exists q r, removeCurrencyDecimals m p = Ok q /\ addCurrencyDecimals m q = Ok r)
  /\ ((exists q, addCurrencyDecimals m p = Ok q /\ removeCurrencyDecimals m q = Ok p)
      <-> (0 <= d \/ (10 ^ (- d) | Dec.int p)))
  /\ ((exists q, removeCurrencyDecimals m p = Ok q /\ addCurrencyDecimals m q = Ok p)
      <-> (d <= 0 \/ (10 ^ d | Dec.int p))).
Proof.
  intros Hm Hr d. fold d in Hr.
  destruct (multiplier_int base quote m Hm) as [Hd ->]. fold d in Hd |- *.
  pose proof (DecFacts.pow10_pos (Z.abs d) ltac:(lia)) as Hc.
  pose proof DecFacts.precisionMultiplier_val as PV.
  assert (Hr' : Z.abs (Dec.int p) * 10 ^ Z.abs d * Dec.precisionMultiplier <= Dec.maxDec).
  { rewrite Z.pow_add_r in Hr by lia. change (10 ^ 18) with Dec.precisionMultiplier in Hr.
    lia. }
  assert (Hp : Z.abs (Dec.int p) * Dec.precisionMultiplier <= Dec.maxDec) by nia.
  unfold addCurrencyDecimals, removeCurrencyDecimals.
  destruct (Z.le_gt_cases 0 d) as [D|D].
  - (* the multiplier is the whole number c = 10^d *)
    rewrite (Z.abs_eq d) in * by lia. set (c := 10 ^ d) in *.
    replace (10 ^ (18 + d)) with (c * Dec.precisionMultiplier)
      by (unfold c; rewrite Z.add_comm, Z.pow_add_r by lia; reflexivity).
    assert (A : Dec.mul p (Dec.mk (c * Dec.precisionMultiplier))
                = Ok (Dec.mk (Dec.int p * c))).
    { apply DecFacts.mul_integral.
      rewrite Z.abs_mul, (Z.abs_eq (c * Dec.precisionMultiplier)) by nia. lia. }
    assert (B : Dec.quo (Dec.mk (Dec.int p * c)) (Dec.mk (c * Dec.precisionMultiplier))
                = Ok p).
    { rewrite quo_whole by (cbn [Dec.int]; rewrite ?Z.abs_mul, ?(Z.abs_eq c); lia).
      cbn [Dec.int].
      replace (Dec.int p * c * Dec.precisionMultiplier)
        with (Dec.int p * Dec.precisionMultiplier * c) by ring.
      rewrite Z.quot_mul by lia. rewrite DecFacts.chop_exact. destruct p. reflexivity. }
    pose proof (quo_whole p c Hc Hp) as Q.
    set (q := Dec.chopPrecisionAndRound (Z.quot (Dec.int p * Dec.precisionMultiplier) c))
      in *.
    assert (Bq : 2 * Z.abs q * c <= 2 * Z.abs (Dec.int p) + c).
    { pose proof (DecFacts.chop_bounds (Z.quot (Dec.int p * Dec.precisionMultiplier) c))
        as C. fold q in C.
      assert (Y : Z.abs (Z.quot (Dec.int p * Dec.precisionMultiplier) c) * c
                  <= Z.abs (Dec.int p) * Dec.precisionMultiplier).
      { rewrite <- Z.quot_abs by lia. rewrite (Z.abs_eq c) by lia.
        rewrite Z.quot_div_nonneg by lia.
        rewrite Z.abs_mul, (Z.abs_eq Dec.precisionMultiplier) by (rewrite PV; lia).
        rewrite (Z.mul_comm (_ / c) c). apply Z.mul_div_le. exact Hc. }
      set (y := Z.quot (Dec.int p * Dec.precisionMultiplier) c) in *.
      assert (S1 : 2 * Z.abs q * Dec.precisionMultiplier
                   <= 2 * Z.abs y + Dec.precisionMultiplier) by lia.
      assert (S2 : 2 * Z.abs q * c * Dec.precisionMultiplier
                   <= (2 * Z.abs (Dec.int p) + c) * Dec.precisionMultiplier) by nia.
      rewrite PV in S2. lia. }
    assert (Cm : c * Dec.precisionMultiplier * Dec.precisionMultiplier <= Dec.maxDec).
    { assert (c <= 10 ^ 59) by (unfold c; apply Z.pow_le_mono_r; lia).
      assert (10 ^ 59 * Dec.precisionMultiplier * Dec.precisionMultiplier <= Dec.maxDec)
        by (vm_compute; discriminate).
      rewrite PV in *. nia. }
    assert (A' : Dec.mul (Dec.mk q) (Dec.mk (c * Dec.precisionMultiplier))
                 = Ok (Dec.mk (q * c))).
    { apply (DecFacts.mul_integral (Dec.mk q) c). cbn [Dec.int].
      rewrite Z.abs_mul, (Z.abs_eq (c * Dec.precisionMultiplier)) by nia.
      destruct (Z.eq_dec (Dec.int p) 0) as [Z0|NZ].
      - assert (q = 0).
        { unfold q. rewrite Z0. rewrite Z.mul_0_l, Z.quot_0_l by lia. reflexivity. }
        rewrite H. change (Z.abs 0) with 0. pose proof DecFacts.maxDec_pos. lia.
      - destruct (Z.eq_dec d 0) as [d0|dn].
        + assert (c = 1) by (unfold c; rewrite d0; reflexivity).
          rewrite H in *. rewrite PV in *. nia.
        + assert (10 <= c).
          { unfold c. change 10 with (10 ^ 1) at 1. apply Z.pow_le_mono_r; lia. }
          rewrite PV in *. nia. }
    split; [eauto|]. split; [rewrite Q; eauto|]. split; split.
    + auto.
    + intros _. eauto.
    + intros (q' & Hq & Ha). right. rewrite Q in Hq. injection Hq as <-.
      rewrite A' in Ha. injection Ha as Ha.
      apply (f_equal Dec.int) in Ha. cbn [Dec.int] in Ha.
      exists q. symmetry. exact Ha.
    + intros [D0 | (k & Hk)].
      * assert (d = 0) by lia.
        assert (C1 : c = 1) by (unfold c; rewrite H; reflexivity).
        exists (Dec.mk q). split; [exact Q|]. rewrite A'. f_equal.
        apply DecFacts.eq_int. cbn [Dec.int]. unfold q. rewrite C1.
        rewrite Z.quot_1_r, DecFacts.chop_exact. ring.
      * exists (Dec.mk q). split; [exact Q|]. rewrite A'. f_equal.
        apply DecFacts.eq_int. cbn [Dec.int]. unfold q. rewrite Hk.
        fold c.
        replace (k * c * Dec.precisionMultiplier)
          with (k * Dec.precisionMultiplier * c) by ring.
        rewrite Z.quot_mul by lia. rewrite DecFacts.chop_exact. reflexivity.
  - (* the multiplier is the fraction 1 / c, c = 10^(-d) *)
    rewrite (Z.abs_neq d) in * by lia. set (c := 10 ^ (- d)) in *.
    set (mu := 10 ^ (18 + d)).
    assert (Hmu : mu * c = Dec.precisionMultiplier).
    { unfold mu, c. rewrite <- Z.pow_add_r by lia.
      unfold Dec.precisionMultiplier, Dec.precision. f_equal. lia. }
    assert (Mp : 0 < mu) by (apply Z.pow_pos_nonneg; lia).
    assert (C10 : 10 <= c).
    { unfold c. change 10 with (10 ^ 1) at 1. apply Z.pow_le_mono_r; lia. }
    assert (B : Dec.quo p (Dec.mk mu) = Ok (Dec.mk (Dec.int p * c))).
    { apply (quo_fraction p mu c Hc Hmu).
      rewrite !Z.abs_mul, (Z.abs_eq c), (Z.abs_eq Dec.precisionMultiplier)
        by (rewrite ?PV; lia).
      lia. }
    assert (A : Dec.mul (Dec.mk (Dec.int p * c)) (Dec.mk mu) = Ok p).
    { rewrite DecFacts.mul_ok; cbn [Dec.int].
      - replace (Dec.int p * c * mu) with (Dec.int p * Dec.precisionMultiplier)
          by (rewrite <- Hmu; ring).
        rewrite DecFacts.chop_exact. destruct p. reflexivity.
      - replace (Dec.int p * c * mu) with (Dec.int p * Dec.precisionMultiplier)
          by (rewrite <- Hmu; ring).
        rewrite Z.abs_mul, (Z.abs_eq Dec.precisionMultiplier) by (rewrite PV; lia).
        lia. }
    assert (A' : Dec.mul p (Dec.mk mu)
                 = Ok (Dec.mk (Dec.chopPrecisionAndRound (Dec.int p * mu)))).
    { apply DecFacts.mul_ok. cbn [Dec.int].
      rewrite Z.abs_mul, (Z.abs_eq mu) by lia. rewrite PV in *. nia. }
    set (q := Dec.chopPrecisionAndRound (Dec.int p * mu)) in *.
    assert (Bq : Z.abs (q * c * Dec.precisionMultiplier) <= Dec.maxDec).
    { pose proof (DecFacts.chop_bounds (Dec.int p * mu)) as C. fold q in C.
      rewrite !Z.abs_mul, (Z.abs_eq c), (Z.abs_eq Dec.precisionMultiplier)
        by (rewrite ?PV; lia).
      destruct (Z.eq_dec (Dec.int p) 0) as [Z0|NZ].
      - assert (q = 0) by (unfold q; rewrite Z0; reflexivity).
        rewrite H. change (Z.abs 0) with 0. pose proof DecFacts.maxDec_pos. lia.
      - assert (Z.abs q * Dec.precisionMultiplier * 2
                <= 2 * Z.abs (Dec.int p) * mu + Dec.precisionMultiplier) by lia.
        assert (Z.abs q * c * Dec.precisionMultiplier * 2
                <= 2 * Z.abs (Dec.int p) * Dec.precisionMultiplier
                   + c * Dec.precisionMultiplier).
        { rewrite <- Hmu at 2. rewrite PV in *. nia. }
        rewrite PV in *. nia. }
    pose proof (quo_fraction (Dec.mk q) mu c Hc Hmu Bq) as B'. cbn [Dec.int] in B'.
    split; [rewrite A'; eauto|]. split; [eauto|]. split; split.
    + intros (q' & Hq & Ha). right. rewrite A' in Hq. injection Hq as <-.
      rewrite B' in Ha. injection Ha as Ha.
      apply (f_equal Dec.int) in Ha. cbn [Dec.int] in Ha.
      exists q. symmetry. exact Ha.
    + intros [D0 | (k & Hk)]; [lia|].
      exists (Dec.mk q). split; [exact A'|]. rewrite B'. f_equal.
      apply DecFacts.eq_int. cbn [Dec.int]. unfold q. rewrite Hk. fold c.
      replace (k * c * mu) with (k * Dec.precisionMultiplier) by (rewrite <- Hmu; ring).
      rewrite DecFacts.chop_exact. reflexivity.
    + intros _. left. lia.
    + intros _. eauto.
Qed.

Lemma currencyDecimals_roundtrip_witness :
  (exists q, addCurrencyDecimals Sample.tenTo12 Sample.price5 = Ok q
             /\ removeCurrencyDecimals Sample.tenTo12 q = Ok Sample.price5)
  /\ (exists q, removeCurrencyDecimals Sample.tenTo12 Sample.price5 = Ok q
                /\ addCurrencyDecimals Sample.tenTo12 q = Ok Sample.price5).
Proof.
  assert (Hm : multiplicationQuoteOverBase (Some Sample.eth) (Some Sample.usdc)
               = Ok Sample.tenTo12) by (vm_compute; reflexivity).
  assert (Hr : Z.abs (Dec.int Sample.price5)
               * 10 ^ (18 + Z.abs (decimalsOrZero (Some Sample.eth)
                                   - decimalsOrZero (Some Sample.usdc)))
               <= Dec.maxDec) by (vm_compute; discriminate).
  destruct (currencyDecimals_roundtrip (Some Sample.eth) (Some Sample.usdc)
              Sample.tenTo12 Sample.price5 Hm Hr) as (_ & _ & H1 & H2).
  split.
  - apply H1. left. vm_compute. discriminate.
  - apply H2. right. exists 1234567890. reflexivity.
Defined.

(** ** The price range and the tick range of the add-liquidity state *)

Module IntFacts.

Lemma make_cases (i : Z) :
  (Int.make i = Ok (Int.mk i) /\ Z.abs i <= Int.maxInt)
  \/ (Int.make i = Throw IntegerOutOfRange /\ Int.maxInt < Z.abs i).
Proof.
  unfold Int.make. destruct (Z.abs i <=? Int.maxInt) eqn:E.
  - left. apply Z.leb_le in E. auto.
  - right. apply Z.leb_gt in E. auto.
Qed.

End IntFacts.

Ltac bool_to_Z :=
  repeat match goal with
         | H : (_ =? _) = true |- _ => apply Z.eqb_eq in H
         | H : (_ =? _) = false |- _ => apply Z.eqb_neq in H
         | H : (_ <? _) = true |- _ => apply Z.ltb_lt in H
         | H : (_ <? _) = false |- _ => apply Z.ltb_ge in H
         | H : (_ <=? _) = true |- _ => apply Z.leb_le in H
         | H : (_ <=? _) = false |- _ => apply Z.leb_gt in H
         end.

Section RangeFacts.
Context {math : TickMath}.

(** Dividing by [new Dec(50)] rounds [currentPrice / 50] to the nearest
    unit of [10^-18]. *)
Lemma quo_50 (c : Dec.t) :
  Z.abs (Dec.int c) * 20000000000000000 <= Dec.maxDec ->
  exists q, Dec.quo c (Dec.lit 50) = Ok q
            /\ 2 * Z.abs (50 * Dec.int q - Dec.int c) <= 50.
Proof.
  intros Hc.
  assert (E : Z.quot (Dec.int c * Dec.precisionMultiplier * Dec.precisionMultiplier)
                     (Dec.int (Dec.lit 50))
              = Dec.int c * 20000000000000000).
  { unfold Dec.lit. cbn [Dec.int]. rewrite DecFacts.precisionMultiplier_val.
    replace (Dec.int c * 1000000000000000000 * 1000000000000000000)
      with (Dec.int c * 20000000000000000 * (50 * 1000000000000000000)) by ring.
    apply Z.quot_mul. lia. }
  rewrite DecFacts.quo_ok; rewrite ?E.
  - pose proof (DecFacts.chop_bounds (Dec.int c * 20000000000000000)) as B.
    rewrite DecFacts.precisionMultiplier_val in B.
    eexists. split; [reflexivity|]. cbn [Dec.int]. lia.
  - unfold Dec.lit. cbn [Dec.int]. rewrite DecFacts.precisionMultiplier_val. lia.
  - rewrite Z.abs_mul. change (Z.abs 20000000000000000) with 20000000000000000. exact Hc.
Qed.

Lemma quo_50_throws (c : Dec.t) :
  Dec.maxDec < Z.abs (Dec.int c) * 20000000000000000 ->
  Dec.quo c (Dec.lit 50) = Throw IntegerOutOfRange.
Proof.
  intros Hc. apply DecFacts.quo_throws.
  - unfold Dec.lit. cbn [Dec.int]. rewrite DecFacts.precisionMultiplier_val. lia.
  - unfold Dec.lit. cbn [Dec.int]. rewrite DecFacts.precisionMultiplier_val.
    replace (Dec.int c * 1000000000000000000 * 1000000000000000000)
      with (Dec.int c * 20000000000000000 * (50 * 1000000000000000000)) by ring.
    rewrite Z.quot_mul by lia. rewrite Z.abs_mul.
    change (Z.abs 20000000000000000) with 20000000000000000. exact Hc.
Qed.

Lemma mul_50 (c : Dec.t) :
  Z.abs (Dec.int c) * (50 * 10 ^ 18) <= Dec.maxDec ->
  Dec.mul c (Dec.lit 50) = Ok (Dec.mk (Dec.int c * 50)).
Proof.
  intros Hc. unfold Dec.lit. apply DecFacts.mul_integral.
  rewrite DecFacts.precisionMultiplier_val, Z.abs_mul.
  change (Z.abs (50 * 1000000000000000000)) with (50 * 10 ^ 18). exact Hc.
Qed.

Lemma mul_50_throws (c : Dec.t) :
  Dec.maxDec < Z.abs (Dec.int c) * (50 * 10 ^ 18) ->
  Dec.mul c (Dec.lit 50) = Throw IntegerOutOfRange.
Proof.
  intros Hc. apply DecFacts.mul_throws. unfold Dec.lit. cbn [Dec.int].
  rewrite DecFacts.precisionMultiplier_val, Z.abs_mul.
  change (Z.abs (50 * 1000000000000000000)) with (50 * 10 ^ 18). exact Hc.
Qed.

End RangeFacts.

(** C4, as stated, fails twice.  With [fullRange] on, [range] still calls
    [toDec()] on both price inputs first, and throws when a raw input is no
    decimal.  And the lower clamp is [currentPrice.quo(50)], rounded to 18
    decimals: with the current price [1.000000000000000001] and a minimum
    price input of [0.001], [range[0]] is [0.02], which is less than
    [currentPrice / 50]. *)
Lemma range_below_fiftieth :
  range (math := ReferenceMath.tickMath)
        (Throw InvalidDecimal) (Ok (Dec.lit 2)) (Some (mkClPool 100)) true (Dec.lit 1)
  = Throw InvalidDecimal
  /\ exists range1,
       range (math := ReferenceMath.tickMath)
             (Ok (Dec.mk (10 ^ 15))) (Ok (Dec.lit 2)) (Some (mkClPool 100)) false
             (Dec.mk 1000000000000000001)
       = Ok (Dec.mk 20000000000000000, range1)
       /\ 50 * 20000000000000000 < 1000000000000000001.
Proof.
  split; [reflexivity|]. eexists. split; [vm_compute; reflexivity | reflexivity].
Qed.

(** C4, amended.  [range] first calls [toDec()] on both price inputs, and
    throws what either throws.  When both return: with [fullRange] on, or
    without a pool, [range] is [[minSpotPrice, maxSpotPrice]]; with
    [fullRange] off on a concentrated pool, once both input prices have been
    rounded to a tick, and for a current price with
    [|currentPrice| * 50 * 10^36 <= 2^316 - 1], [range[0]] is the rounded
    minimum raised to [currentPrice.quo(50)] and [range[1]] the rounded
    maximum lowered to [currentPrice.mul(50)], where [currentPrice.mul(50)]
    is [currentPrice * 50] exactly and [currentPrice.quo(50)] is
    [currentPrice / 50] rounded to the nearest unit of [10^-18], which may
    be less than [currentPrice / 50]; for a larger current price [range]
    throws, as it does when an input price does not round to a tick. *)
Theorem range_clamped {math : TickMath} (minPriceInput_toDec maxPriceInput_toDec : result Dec.t)
    (clPool : option ClPool) (fullRange : bool) (currentPrice : Dec.t) :
  let range_ :=
    range minPriceInput_toDec maxPriceInput_toDec clPool fullRange currentPrice in
  (forall e, minPriceInput_toDec = Throw e -> range_ = Throw e)
  /\ (forall input0 e,
         minPriceInput_toDec = Ok input0 -> maxPriceInput_toDec = Throw e ->
         range_ = Throw e)
  /\ forall input0 input1,
      minPriceInput_toDec = Ok input0 -> maxPriceInput_toDec = Ok input1 ->
      (fullRange = true \/ clPool = None -> range_ = Ok (minSpotPrice, maxSpotPrice))
      /\ (fullRange = false ->
          forall pool inputMinPrice inputMaxPrice,
            clPool = Some pool ->
            roundPriceToNearestTick input0 (tick_spacing pool) true = Ok inputMinPrice ->
            roundPriceToNearestTick input1 (tick_spacing pool) true = Ok inputMaxPrice ->
            (Z.abs (Dec.int currentPrice) * (50 * 10 ^ 18) <= Dec.maxDec ->
             exists minPrice50x maxPrice50x range0 range1,
               Dec.quo currentPrice (Dec.lit 50) = Ok minPrice50x
               /\ Dec.mul currentPrice (Dec.lit 50) = Ok maxPrice50x
               /\ range_ = Ok (range0, range1)
               /\ Dec.int range0 = Z.max (Dec.int inputMinPrice) (Dec.int minPrice50x)
               /\ Dec.int range1 = Z.min (Dec.int inputMaxPrice) (Dec.int maxPrice50x)
               /\ Dec.gte range0 minPrice50x = true
               /\ Dec.lte range1 maxPrice50x = true
               /\ Dec.int maxPrice50x = Dec.int currentPrice * 50
               /\ 2 * Z.abs (50 * Dec.int minPrice50x - Dec.int currentPrice) <= 50)
            /\ (Dec.maxDec < Z.abs (Dec.int currentPrice) * (50 * 10 ^ 18) ->
                range_ = Throw IntegerOutOfRange))
      /\ (fullRange = false ->
          forall pool,
            clPool = Some pool ->
            (forall e,
                roundPriceToNearestTick input0 (tick_spacing pool) true = Throw e ->
                range_ = Throw e)
            /\ (forall inputMinPrice e,
                   roundPriceToNearestTick input0 (tick_spacing pool) true
                   = Ok inputMinPrice ->
                   roundPriceToNearestTick input1 (tick_spacing pool) true = Throw e ->
                   range_ = Throw e)).
Proof.
  intros range_. unfold range_, range. split; [|split].
  - intros e ->. reflexivity.
  - intros input0 e -> ->. reflexivity.
  - intros input0 input1 -> ->. cbn [bind]. split; [|split].
    + intros [-> | ->]; [reflexivity | destruct fullRange; reflexivity].
    + intros -> pool lo hi -> Hlo Hhi. rewrite Hlo, Hhi. cbn [bind]. split.
      * intros Hc.
        destruct (quo_50 currentPrice ltac:(lia)) as (q & Hq & Hqb).
        pose proof (mul_50 currentPrice Hc) as Hm.
        rewrite Hq, Hm. cbn [bind].
        exists q, (Dec.mk (Dec.int currentPrice * 50)).
        unfold Dec.lt, Dec.gt, Dec.gte, Dec.lte. cbn [Dec.int].
        destruct (Dec.int lo <? Dec.int q) eqn:E1;
          destruct (Dec.int currentPrice * 50 <? Dec.int hi) eqn:E2;
          bool_to_Z;
          eexists; eexists; (split; [reflexivity|]); (split; [reflexivity|]);
          (split; [reflexivity|]); cbn [Dec.int];
          repeat split; try apply Z.leb_le; try lia.
      * intros Hc.
        destruct (Z.le_gt_cases (Z.abs (Dec.int currentPrice) * 20000000000000000)
                                Dec.maxDec) as [L|G].
        -- destruct (quo_50 currentPrice L) as (q & Hq & _).
           rewrite Hq, (mul_50_throws currentPrice Hc). reflexivity.
        -- rewrite (quo_50_throws currentPrice G). reflexivity.
    + intros -> pool ->. split.
      * intros e ->. reflexivity.
      * intros lo e -> ->. reflexivity.
Qed.

(** C3, as stated, fails on an inverted price range: with the range
    [[2, 1]] and the tick spacing 100 the tick range is [[1000000, 0]]. *)
Lemma tickRange_inverted :
  tickRange (math := ReferenceMath.tickMath)
            false (Int.mk 100) (Dec.lit 2, Dec.lit 1)
  = (Int.mk 1000000, Int.mk 0)
  /\ ~ (Int.int (Int.mk 1000000) < Int.int (Int.mk 0)).
Proof.
  split; [vm_compute; reflexivity|]. vm_compute. discriminate.
Qed.

(** C3, amended.  For every non-full-range input, [tickRange] returns a pair
    with [minTick <= lowerTick] and [upperTick <= maxTick].  When a price
    of the range does not convert to a tick, a tick does not round, or the
    padding leaves the range of [Int], the exception is caught and the pair
    is [[minTick, maxTick]].  When both prices convert and round, to [l] and
    [u]: if [l = u], the lower tick is [l] less one tick spacing and the
    upper tick [u] plus one tick spacing, then clamped to [minTick] below
    and to [maxTick] above; if not, the lower tick is [l] clamped to
    [minTick] below and the upper tick [u] clamped to [maxTick] above.
    [lowerTick < upperTick] holds when the tick spacing is positive and the
    rounded ticks, within [[minTick, maxTick]], are in order (the lower not
    above the upper); it does not hold for an inverted range. *)
Theorem tickRange_correct {math : TickMath} (tickDivisor : Int.t) (range : Dec.t * Dec.t) :
  let lowerTick := fst (tickRange false tickDivisor range) in
  let upperTick := snd (tickRange false tickDivisor range) in
  Int.int minTick <= Int.int lowerTick
  /\ Int.int upperTick <= Int.int maxTick
  /\ (forall e,
         priceToTick (fst range) = Throw e \/ priceToTick (snd range) = Throw e ->
         tickRange false tickDivisor range = (minTick, maxTick))
  /\ (forall t0 t1 e,
         priceToTick (fst range) = Ok t0 -> priceToTick (snd range) = Ok t1 ->
         roundToNearestDivisible t0 tickDivisor = Throw e
         \/ roundToNearestDivisible t1 tickDivisor = Throw e ->
         tickRange false tickDivisor range = (minTick, maxTick))
  /\ forall t0 t1 l u,
      priceToTick (fst range) = Ok t0 -> priceToTick (snd range) = Ok t1 ->
      roundToNearestDivisible t0 tickDivisor = Ok l ->
      roundToNearestDivisible t1 tickDivisor = Ok u ->
      (Int.int l = Int.int u ->
       (Z.abs (Int.int l - Int.int tickDivisor) <= Int.maxInt ->
        Z.abs (Int.int u + Int.int tickDivisor) <= Int.maxInt ->
        Int.int lowerTick = Z.max (Int.int l - Int.int tickDivisor) (Int.int minTick)
        /\ Int.int upperTick = Z.min (Int.int u + Int.int tickDivisor) (Int.int maxTick))
       /\ (Int.maxInt < Z.abs (Int.int l - Int.int tickDivisor)
           \/ Int.maxInt < Z.abs (Int.int u + Int.int tickDivisor) ->
           tickRange false tickDivisor range = (minTick, maxTick)))
      /\ (Int.int l <> Int.int u ->
          Int.int lowerTick = Z.max (Int.int l) (Int.int minTick)
          /\ Int.int upperTick = Z.min (Int.int u) (Int.int maxTick))
      /\ (0 < Int.int tickDivisor ->
          Int.int minTick <= Int.int l -> Int.int l <= Int.int u ->
          Int.int u <= Int.int maxTick ->
          Int.int lowerTick < Int.int upperTick).
Proof.
  pose proof minTick_lt_maxTick as Hmm.
  assert (Hthrow : forall e, tickRangeBody tickDivisor range = Throw e ->
                             tickRange false tickDivisor range = (minTick, maxTick)).
  { intros e H. unfold tickRange. rewrite H. reflexivity. }
  assert (Hok : forall t0 t1 l u,
             priceToTick (fst range) = Ok t0 -> priceToTick (snd range) = Ok t1 ->
             roundToNearestDivisible t0 tickDivisor = Ok l ->
             roundToNearestDivisible t1 tickDivisor = Ok u ->
             tickRange false tickDivisor range
             = tryCatch
                 (padded <-
                    (if Int.equals l u
                     then l' <- Int.sub l tickDivisor ;;
                          u' <- Int.add u tickDivisor ;; Ok (l', u')
                     else Ok (l, u)) ;;
                  Ok (if Int.lt (fst padded) minTick then minTick else fst padded,
                      if Int.gt (snd padded) maxTick then maxTick else snd padded))
                 (minTick, maxTick)).
  { intros t0 t1 l u H0 H1 H2 H3. unfold tickRange, tickRangeBody.
    rewrite H0. cbn [bind]. rewrite H1. cbn [bind]. rewrite H2. cbn [bind].
    rewrite H3. cbn [bind]. reflexivity. }
  cbv zeta. split; [|split; [|split; [|split]]].
  - unfold tickRange, tickRangeBody.
    destruct (priceToTick (fst range)); cbn [bind tryCatch fst]; [|lia].
    destruct (priceToTick (snd range)); cbn [bind tryCatch fst]; [|lia].
    destruct (roundToNearestDivisible _ _) as [l|]; cbn [bind tryCatch fst]; [|lia].
    destruct (roundToNearestDivisible _ _) as [u|]; cbn [bind tryCatch fst]; [|lia].
    destruct (Int.equals l u); cbn [bind tryCatch fst snd].
    + destruct (Int.sub l tickDivisor); cbn [bind tryCatch fst snd]; [|lia].
      destruct (Int.add u tickDivisor); cbn [bind tryCatch fst snd]; [|lia].
      unfold Int.lt. destruct (_ <? _) eqn:E; bool_to_Z; lia.
    + unfold Int.lt. destruct (_ <? _) eqn:E; bool_to_Z; lia.
  - unfold tickRange, tickRangeBody.
    destruct (priceToTick (fst range)); cbn [bind tryCatch snd]; [|lia].
    destruct (priceToTick (snd range)); cbn [bind tryCatch snd]; [|lia].
    destruct (roundToNearestDivisible _ _) as [l|]; cbn [bind tryCatch snd]; [|lia].
    destruct (roundToNearestDivisible _ _) as [u|]; cbn [bind tryCatch snd]; [|lia].
    destruct (Int.equals l u); cbn [bind tryCatch fst snd].
    + destruct (Int.sub l tickDivisor); cbn [bind tryCatch fst snd]; [|lia].
      destruct (Int.add u tickDivisor); cbn [bind tryCatch fst snd]; [|lia].
      unfold Int.gt. destruct (_ <? _) eqn:E; bool_to_Z; lia.
    + unfold Int.gt. destruct (_ <? _) eqn:E; bool_to_Z; lia.
  - intros e [H|H]; unfold tickRange, tickRangeBody.
    + rewrite H. reflexivity.
    + destruct (priceToTick (fst range)); [|reflexivity].
      cbn [bind]. rewrite H. reflexivity.
  - intros t0 t1 e H0 H1 [H|H]; unfold tickRange, tickRangeBody;
      rewrite H0; cbn [bind]; rewrite H1; cbn [bind].
    + rewrite H. reflexivity.
    + destruct (roundToNearestDivisible t0 tickDivisor); [|reflexivity].
      cbn [bind]. rewrite H. reflexivity.
  - intros t0 t1 l u H0 H1 H2 H3. rewrite (Hok t0 t1 l u H0 H1 H2 H3).
    clear Hok Hthrow H0 H1 H2 H3.
    unfold Int.equals, Int.sub, Int.add, Int.lt, Int.gt.
    destruct (Int.int l =? Int.int u) eqn:E; bool_to_Z.
    + destruct (IntFacts.make_cases (Int.int l - Int.int tickDivisor)) as [[-> Hl]|[-> Hl]];
        destruct (IntFacts.make_cases (Int.int u + Int.int tickDivisor)) as [[-> Hu]|[-> Hu]];
        cbn [bind tryCatch fst snd Int.int];
        repeat match goal with
               | |- context [if ?c then _ else _] => destruct c eqn:?
               end; bool_to_Z; cbn [tryCatch fst snd Int.int];
        (split; [intros _; split; [intros; lia | intros; try reflexivity; lia]|]);
        (split; intros; lia).
    + cbn [bind tryCatch fst snd Int.int].
      repeat match goal with
             | |- context [if ?c then _ else _] => destruct c eqn:?
             end; bool_to_Z; cbn [tryCatch fst snd Int.int];
        (split; [intros; lia|]); (split; intros; lia).
Qed.

Lemma range_clamped_witness :
  (exists range0 range1,
      range (math := ReferenceMath.tickMath)
            (Ok (Dec.mk (10 ^ 15))) (Ok (Dec.lit 1000)) (Some (mkClPool 100)) false
            (Dec.lit 1)
      = Ok (range0, range1)
      /\ Dec.int range0 = 2 * 10 ^ 16
      /\ Dec.int range1 = 50 * 10 ^ 18)
  /\ range (math := ReferenceMath.tickMath)
           (Ok (Dec.mk (10 ^ 15))) (Ok (Dec.lit 1000)) (Some (mkClPool 100)) false
           (Dec.mk (10 ^ 76))
     = Throw IntegerOutOfRange
  /\ range (math := ReferenceMath.tickMath)
           (Ok (Dec.lit 1)) (Throw InvalidDecimal) (Some (mkClPool 100)) true (Dec.lit 1)
     = Throw InvalidDecimal
  /\ range (math := ReferenceMath.tickMath)
           (Ok (Dec.lit 1)) (Ok (Dec.lit 2)) (Some (mkClPool 100)) true (Dec.lit 1)
     = Ok (@minSpotPrice ReferenceMath.tickMath, @maxSpotPrice ReferenceMath.tickMath).
Proof.
  split; [|split; [|split]].
  - destruct (range_clamped (math := ReferenceMath.tickMath)
                (Ok (Dec.mk (10 ^ 15))) (Ok (Dec.lit 1000)) (Some (mkClPool 100)) false
                (Dec.lit 1)) as (_ & _ & H).
    destruct (H (Dec.mk (10 ^ 15)) (Dec.lit 1000) eq_refl eq_refl) as (_ & K & _).
    destruct (K eq_refl (mkClPool 100) (Dec.mk (10 ^ 15)) (Dec.lit 1000) eq_refl)
      as (R & _).
    + vm_compute. reflexivity.
    + vm_compute. reflexivity.
    + destruct R as (lo & hi & range0 & range1 & Hlo & Hhi & Hr & H0 & H1 & _).
      * vm_compute. discriminate.
      * exists range0, range1. split; [exact Hr|].
        assert (Elo : lo = Dec.mk (2 * 10 ^ 16)).
        { assert (X : Dec.quo (Dec.lit 1) (Dec.lit 50) = Ok (Dec.mk (2 * 10 ^ 16)))
            by (vm_compute; reflexivity).
          congruence. }
        assert (Ehi : hi = Dec.mk (50 * 10 ^ 18)).
        { assert (X : Dec.mul (Dec.lit 1) (Dec.lit 50) = Ok (Dec.mk (50 * 10 ^ 18)))
            by (vm_compute; reflexivity).
          congruence. }
        subst lo hi. split; [rewrite H0 | rewrite H1]; reflexivity.
  - destruct (range_clamped (math := ReferenceMath.tickMath)
                (Ok (Dec.mk (10 ^ 15))) (Ok (Dec.lit 1000)) (Some (mkClPool 100)) false
                (Dec.mk (10 ^ 76))) as (_ & _ & H).
    destruct (H (Dec.mk (10 ^ 15)) (Dec.lit 1000) eq_refl eq_refl) as (_ & K & _).
    destruct (K eq_refl (mkClPool 100) (Dec.mk (10 ^ 15)) (Dec.lit 1000) eq_refl)
      as (_ & R).
    + vm_compute. reflexivity.
    + vm_compute. reflexivity.
    + apply R. vm_compute. reflexivity.
  - destruct (range_clamped (math := ReferenceMath.tickMath)
                (Ok (Dec.lit 1)) (Throw InvalidDecimal) (Some (mkClPool 100)) true
                (Dec.lit 1)) as (_ & H & _).
    apply (H (Dec.lit 1) InvalidDecimal eq_refl eq_refl).
  - destruct (range_clamped (math := ReferenceMath.tickMath)
                (Ok (Dec.lit 1)) (Ok (Dec.lit 2)) (Some (mkClPool 100)) true
                (Dec.lit 1)) as (_ & _ & H).
    destruct (H (Dec.lit 1) (Dec.lit 2) eq_refl eq_refl) as (K & _).
    apply K. left. reflexivity.
Defined.

Lemma tickRange_correct_witness :
  Int.int (fst (tickRange (math := ReferenceMath.tickMath)
                          false (Int.mk 100) (Dec.lit 1, Dec.lit 2)))
  < Int.int (snd (tickRange (math := ReferenceMath.tickMath)
                            false (Int.mk 100) (Dec.lit 1, Dec.lit 2)))
  /\ Int.int (fst (tickRange (math := ReferenceMath.tickMath)
                             false (Int.mk 100) (Dec.lit 2, Dec.lit 2)))
     = Z.max (1000000 - 100) (-108000000)
  /\ tickRange (math := ReferenceMath.tickMath)
               false (Int.mk 100) (Dec.mk (-1), Dec.lit 2)
     = (@minTick ReferenceMath.tickMath, @maxTick ReferenceMath.tickMath).
Proof.
  split; [|split].
  - destruct (tickRange_correct (math := ReferenceMath.tickMath)
                                (Int.mk 100) (Dec.lit 1, Dec.lit 2))
      as (_ & _ & _ & _ & H).
    destruct (H (Int.mk 0) (Int.mk 1000000) (Int.mk 0) (Int.mk 1000000)) as (_ & _ & K).
    + vm_compute. reflexivity.
    + vm_compute. reflexivity.
    + vm_compute. reflexivity.
    + vm_compute. reflexivity.
    + apply K.
      * vm_compute. reflexivity.
      * vm_compute. discriminate.
      * vm_compute. discriminate.
      * vm_compute. discriminate.
  - destruct (tickRange_correct (math := ReferenceMath.tickMath)
                                (Int.mk 100) (Dec.lit 2, Dec.lit 2))
      as (_ & _ & _ & _ & H).
    destruct (H (Int.mk 1000000) (Int.mk 1000000) (Int.mk 1000000) (Int.mk 1000000))
      as (K & _).
    + vm_compute. reflexivity.
    + vm_compute. reflexivity.
    + vm_compute. reflexivity.
    + vm_compute. reflexivity.
    + destruct (K eq_refl) as (K' & _). apply K'.
      * vm_compute. discriminate.
      * vm_compute. discriminate.
  - destruct (tickRange_correct (math := ReferenceMath.tickMath)
                                (Int.mk 100) (Dec.mk (-1), Dec.lit 2))
      as (_ & _ & H & _).
    apply (H MathError). left. vm_compute. reflexivity.
Defined.

(** ** Deposit sides, deposit percentages and the state's error *)

Section DepositFacts.
Import Dec DecFacts.

(** The truncating division is less than one divisor away. *)
Lemma quot_bounds (a b : Z) : b <> 0 -> Z.abs (Z.quot a b * b - a) < Z.abs b.
Proof.
  intros Hb. pose proof (Z.quot_rem' a b) as E.
  pose proof (Z.rem_bound_abs a b Hb) as B. lia.
Qed.

(** The two shares of a total: each quotient is rounded on its own, and
    the two together miss [1] by one unit of [10^-18] at most. *)
Lemma shares_sum (v0 v1 : Z) :
  v0 + v1 <> 0 ->
  let t := v0 + v1 in
  let s0 := chopPrecisionAndRound (Z.quot (v0 * precisionMultiplier * precisionMultiplier) t) in
  let s1 := chopPrecisionAndRound (Z.quot (v1 * precisionMultiplier * precisionMultiplier) t) in
  Z.abs (s0 + s1 - precisionMultiplier) <= 1.
Proof.
  intros Ht t s0 s1.
  pose proof (quot_bounds (v0 * precisionMultiplier * precisionMultiplier) t Ht) as Q0.
  pose proof (quot_bounds (v1 * precisionMultiplier * precisionMultiplier) t Ht) as Q1.
  pose proof (chop_bounds (Z.quot (v0 * precisionMultiplier * precisionMultiplier) t)) as C0.
  pose proof (chop_bounds (Z.quot (v1 * precisionMultiplier * precisionMultiplier) t)) as C1.
  fold s0 in C0. fold s1 in C1.
  set (x0 := Z.quot (v0 * precisionMultiplier * precisionMultiplier) t) in *.
  set (x1 := Z.quot (v1 * precisionMultiplier * precisionMultiplier) t) in *.
  rewrite precisionMultiplier_val in *.
  assert (X : Z.abs (x0 + x1 - 1000000000000000000 * 1000000000000000000) <= 1).
  { assert (Z.abs ((x0 + x1 - 1000000000000000000 * 1000000000000000000) * t) < 2 * Z.abs t).
    { replace ((x0 + x1 - 1000000000000000000 * 1000000000000000000) * t)
        with ((x0 * t - v0 * 1000000000000000000 * 1000000000000000000)
              + (x1 * t - v1 * 1000000000000000000 * 1000000000000000000))
        by (unfold t; ring).
      lia. }
    rewrite Z.abs_mul in *. nia. }
  lia.
Qed.

(** A share of a non-negative total lies between 0 and 1, before and
    after it is rounded. *)
Lemma share_quot_range (v t : Z) :
  0 <= v -> v <= t -> 0 < t ->
  0 <= Z.quot (v * precisionMultiplier * precisionMultiplier) t
    <= precisionMultiplier * precisionMultiplier.
Proof.
  intros Hv Hvt Ht.
  rewrite Z.quot_div_nonneg by (rewrite ?precisionMultiplier_val; nia).
  split.
  - apply Z.div_pos; rewrite ?precisionMultiplier_val; nia.
  - apply Z.div_le_upper_bound; [lia|]. rewrite precisionMultiplier_val. nia.
Qed.

Lemma share_range (v t : Z) :
  0 <= v -> v <= t -> 0 < t ->
  0 <= chopPrecisionAndRound (Z.quot (v * precisionMultiplier * precisionMultiplier) t)
    <= precisionMultiplier.
Proof.
  intros Hv Hvt Ht.
  pose proof (chop_bounds (Z.quot (v * precisionMultiplier * precisionMultiplier) t)) as C.
  pose proof (share_quot_range v t Hv Hvt Ht) as Q.
  rewrite precisionMultiplier_val in *. lia.
Qed.

Lemma depositPercentages_sides (currentPrice : t) (fullRange : bool) (range : t * t) :
  baseDepositOnly currentPrice fullRange range
  && quoteDepositOnly currentPrice fullRange range = false.
Proof.
  unfold baseDepositOnly, quoteDepositOnly, lt, gt.
  destruct (isZero currentPrice); [reflexivity|].
  destruct fullRange; [reflexivity|]. simpl negb.
  destruct (int currentPrice <? int (fst range)) eqn:E1;
    destruct (int (fst range) <? int currentPrice) eqn:E2;
    bool_to_Z; try lia; try reflexivity.
Qed.

End DepositFacts.

(** C9, as stated, fails: the two proportional shares are rounded one by
    one.  With the fiat values [1.999999999999999998] and
    [0.000000000000000001] on a two-sided deposit, the percentages are
    [0.999999999999999999] and [0], which sum neither to 0 nor to 1. *)
Lemma depositPercentages_sum_inexact :
  baseDepositOnly (Dec.mk (15 * 10 ^ 17)) false (Dec.lit 1, Dec.lit 2) = false
  /\ quoteDepositOnly (Dec.mk (15 * 10 ^ 17)) false (Dec.lit 1, Dec.lit 2) = false
  /\ depositPercentages false false
       (Some (Dec.mk 1)) (Some (Dec.mk 1999999999999999998))
     = Ok (Dec.mk 999999999999999999, Dec.mk 0)
  /\ 999999999999999999 + 0 <> Dec.int (Dec.lit 0)
  /\ 999999999999999999 + 0 <> Dec.int (Dec.lit 1).
Proof. repeat split; try (vm_compute; reflexivity); vm_compute; discriminate. Qed.

(** C9, amended.  [baseDepositOnly] and [quoteDepositOnly] are never both
    true.  [depositPercentages] is [[0, 0]] when a fiat value is missing;
    otherwise [[1, 0]] when [baseDepositOnly], [[0, 1]] when
    [quoteDepositOnly], and else, for non-negative fiat values whose total is
    in the [Dec] range, [[0, 0]] when the total is zero and the two shares,
    each rounded to 18 decimals, when it is not: the shares then sum to 1 up
    to one unit of [10^-18]. *)
Theorem depositPercentages_correct (currentPrice : Dec.t) (fullRange : bool)
    (range : Dec.t * Dec.t) (amount1FiatValue amount0FiatValue : option Dec.t) :
  let b := baseDepositOnly currentPrice fullRange range in
  let q := quoteDepositOnly currentPrice fullRange range in
  let percentages := depositPercentages b q amount1FiatValue amount0FiatValue in
  b && q = false
  /\ (amount0FiatValue = None \/ amount1FiatValue = None ->
      percentages = Ok (Dec.lit 0, Dec.lit 0))
  /\ forall v0 v1,
      amount0FiatValue = Some v0 -> amount1FiatValue = Some v1 ->
      (b = true -> percentages = Ok (Dec.lit 1, Dec.lit 0))
      /\ (q = true -> percentages = Ok (Dec.lit 0, Dec.lit 1))
      /\ (b = false -> q = false ->
          0 <= Dec.int v0 -> 0 <= Dec.int v1 ->
          Dec.int v0 + Dec.int v1 <= Dec.maxDec ->
          (Dec.int v0 + Dec.int v1 = 0 -> percentages = Ok (Dec.lit 0, Dec.lit 0))
          /\ (0 < Dec.int v0 + Dec.int v1 ->
              exists total share0 share1,
                Dec.add v0 v1 = Ok total
                /\ Dec.quo v0 total = Ok share0
                /\ Dec.quo v1 total = Ok share1
                /\ percentages = Ok (share0, share1)
                /\ Z.abs (Dec.int share0 + Dec.int share1 - Dec.int (Dec.lit 1)) <= 1)).
Proof.
  intros b q percentages.
  assert (Hbq : b && q = false)
    by apply (depositPercentages_sides currentPrice fullRange range).
  split; [exact Hbq|]. split.
  - intros [-> | ->]; unfold percentages, depositPercentages;
      [|destruct amount0FiatValue]; reflexivity.
  - intros v0 v1 -> ->. unfold percentages, depositPercentages.
    split; [intros ->; reflexivity|].
    split; [intros Hq; rewrite Hq in *; rewrite andb_true_r in Hbq;
            rewrite Hbq; reflexivity|].
    intros -> -> H0 H1 Hmax.
    unfold Dec.add. rewrite DecFacts.make_ok by lia. cbn [bind].
    unfold Dec.isZero. cbn [Dec.int]. split.
    + intros ->. reflexivity.
    + intros Hpos.
      replace (Dec.int v0 + Dec.int v1 =? 0) with false
        by (symmetry; apply Z.eqb_neq; lia).
      pose proof (share_range (Dec.int v0) (Dec.int v0 + Dec.int v1)
                    H0 ltac:(lia) Hpos) as R0.
      pose proof (share_range (Dec.int v1) (Dec.int v0 + Dec.int v1)
                    H1 ltac:(lia) Hpos) as R1.
      pose proof (shares_sum (Dec.int v0) (Dec.int v1) ltac:(lia)) as S.
      cbv zeta in S.
      pose proof (share_quot_range (Dec.int v0) (Dec.int v0 + Dec.int v1)
                    H0 ltac:(lia) Hpos) as U0.
      pose proof (share_quot_range (Dec.int v1) (Dec.int v0 + Dec.int v1)
                    H1 ltac:(lia) Hpos) as U1.
      assert (P : Dec.precisionMultiplier * Dec.precisionMultiplier <= Dec.maxDec)
        by (vm_compute; discriminate).
      assert (P' : 0 <= Dec.precisionMultiplier)
        by (rewrite DecFacts.precisionMultiplier_val; lia).
      pose proof (DecFacts.quo_ok v0 (Dec.mk (Dec.int v0 + Dec.int v1))) as Q0.
      pose proof (DecFacts.quo_ok v1 (Dec.mk (Dec.int v0 + Dec.int v1))) as Q1.
      cbn [Dec.int] in Q0, Q1.
      specialize (Q0 ltac:(lia) ltac:(lia)). specialize (Q1 ltac:(lia) ltac:(lia)).
      rewrite Q0, Q1. cbn [bind].
      eexists; eexists; eexists.
      split; [reflexivity|]. split; [exact Q0|]. split; [exact Q1|].
      split; [reflexivity|]. cbn [Dec.int Dec.lit]. rewrite Z.mul_1_l. exact S.
Qed.

Lemma depositPercentages_correct_witness :
  exists total share0 share1,
    Dec.add (Dec.lit 1) (Dec.lit 2) = Ok total
    /\ Dec.quo (Dec.lit 1) total = Ok share0
    /\ Dec.quo (Dec.lit 2) total = Ok share1
    /\ depositPercentages
         (baseDepositOnly (Dec.mk (15 * 10 ^ 17)) false (Dec.lit 1, Dec.lit 2))
         (quoteDepositOnly (Dec.mk (15 * 10 ^ 17)) false (Dec.lit 1, Dec.lit 2))
         (Some (Dec.lit 2)) (Some (Dec.lit 1))
       = Ok (share0, share1)
    /\ Z.abs (Dec.int share0 + Dec.int share1 - Dec.int (Dec.lit 1)) <= 1.
Proof.
  destruct (depositPercentages_correct (Dec.mk (15 * 10 ^ 17)) false
              (Dec.lit 1, Dec.lit 2) (Some (Dec.lit 2)) (Some (Dec.lit 1)))
    as (_ & _ & W).
  destruct (W (Dec.lit 1) (Dec.lit 2) eq_refl eq_refl) as (_ & _ & W').
  apply W'.
  - reflexivity.
  - reflexivity.
  - vm_compute. discriminate.
  - vm_compute. discriminate.
  - vm_compute. discriminate.
  - reflexivity.
Defined.

(** C10.  The error of the state is an [InvalidRangeError] exactly when
    [fullRange] is off and [range[0] >= range[1]]; otherwise it is the quote
    amount input's error when [quoteDepositOnly], the base amount input's
    error when [baseDepositOnly], and else the base input's error when it is
    defined and the quote input's error (which may be undefined) when not. *)
Theorem error_correct {AmountError : Type} (currentPrice : Dec.t) (fullRange : bool)
    (range : Dec.t * Dec.t)
    (quoteAmountInput_error baseAmountInput_error : option AmountError) :
  let q := quoteDepositOnly currentPrice fullRange range in
  let b := baseDepositOnly currentPrice fullRange range in
  let e := error fullRange range q b quoteAmountInput_error baseAmountInput_error in
  let invalid := fullRange = false /\ Dec.int (snd range) <= Dec.int (fst range) in
  ((exists m, e = Some (InvalidRangeError m)) <-> invalid)
  /\ (~ invalid ->
      (q = true -> e = option_map AmountInputError quoteAmountInput_error)
      /\ (b = true -> e = option_map AmountInputError baseAmountInput_error)
      /\ (q = false -> b = false ->
          e = match baseAmountInput_error with
              | Some err => Some (AmountInputError err)
              | None => option_map AmountInputError quoteAmountInput_error
              end)).
Proof.
  intros q b e invalid.
  assert (Hbq : b && q = false)
    by apply (depositPercentages_sides currentPrice fullRange range).
  unfold e, error, invalid, Dec.gte. clear e invalid.
  assert (Hrest :
    forall e' : option (StateError AmountError),
      e' = (if q then option_map AmountInputError quoteAmountInput_error
            else if b then option_map AmountInputError baseAmountInput_error
            else match baseAmountInput_error with
                 | Some err => Some (AmountInputError err)
                 | None => option_map AmountInputError quoteAmountInput_error
                 end) ->
      (forall m, e' <> Some (InvalidRangeError m))
      /\ (q = true -> e' = option_map AmountInputError quoteAmountInput_error)
      /\ (b = true -> e' = option_map AmountInputError baseAmountInput_error)
      /\ (q = false -> b = false ->
          e' = match baseAmountInput_error with
               | Some err => Some (AmountInputError err)
               | None => option_map AmountInputError quoteAmountInput_error
               end)).
  { intros e' ->. destruct q, b; try discriminate Hbq;
      (split; [intros m;
               destruct quoteAmountInput_error, baseAmountInput_error; discriminate|]);
      repeat split; intros; try discriminate; reflexivity. }
  destruct fullRange; cbn [negb andb].
  - destruct (Hrest _ eq_refl) as (Hn & Hr). split.
    + split; [|intros [? _]; discriminate].
      intros [m Hm]. exfalso. exact (Hn m Hm).
    + intros _. exact Hr.
  - destruct (Dec.int (snd range) <=? Dec.int (fst range)) eqn:E; bool_to_Z.
    + split; [split; eauto|]. intros N. exfalso. apply N. auto.
    + destruct (Hrest _ eq_refl) as (Hn & Hr). split.
      * split; [|intros [_ ?]; lia].
        intros [m Hm]. exfalso. exact (Hn m Hm).
      * intros _. exact Hr.
Qed.

(** ** Reward aggregation *)


Section MapFacts.
Context {V : Type}.

Lemma get_Some_In (m : JSMap.t V) (k : string) (v : V) :
  JSMap.get m k = Some v -> In (k, v) m.
Proof.
  induction m as [|[k' v'] m IH]; simpl; [discriminate|].
  destruct (String.eqb k' k) eqn:E.
  - apply String.eqb_eq in E. intros [= ->]. subst. now left.
  - intros G. right. auto.
Qed.

Lemma get_None_keys (m : JSMap.t V) (k : string) :
  JSMap.get m k = None -> ~ In k (map fst m).
Proof.
  induction m as [|[k' v'] m IH]; simpl; [tauto|].
  destruct (String.eqb k' k) eqn:E; [discriminate|].
  apply String.eqb_neq in E. intros G [F|F]; [contradiction | now apply IH].
Qed.

Lemma set_absent (m : JSMap.t V) (k : string) (v : V) :
  ~ In k (map fst m) -> JSMap.set m k v = m ++ [(k, v)].
Proof.
  induction m as [|[k' v'] m IH]; simpl; [reflexivity|].
  intros N. destruct (String.eqb k' k) eqn:E.
  - apply String.eqb_eq in E. exfalso. apply N. now left.
  - rewrite IH; [reflexivity|]. intros F. apply N. now right.
Qed.

Lemma set_keys_present (m : JSMap.t V) (k : string) (v : V) :
  In k (map fst m) -> map fst (JSMap.set m k v) = map fst m.
Proof.
  induction m as [|[k' v'] m IH]; simpl; [tauto|].
  intros I. destruct (String.eqb k' k) eqn:E; [reflexivity|].
  apply String.eqb_neq in E. simpl. f_equal. apply IH. destruct I; [contradiction|assumption].
Qed.

Lemma set_In (m : JSMap.t V) (k k' : string) (v v' : V) :
  NoDup (map fst m) ->
  In (k', v') (JSMap.set m k v) ->
  (k' = k /\ v' = v) \/ (k' <> k /\ In (k', v') m).
Proof.
  induction m as [|[k0 v0] m IH]; simpl.
  - intros _ [[= <- <-]|[]]. now left.
  - intros ND. inversion ND as [|? ? Hnot ND']; subst.
    destruct (String.eqb k0 k) eqn:E.
    + apply String.eqb_eq in E. subst k0. intros [[= <- <-]|I]; [now left|].
      right. split; [|now right]. intros ->. apply Hnot.
      change k with (fst (k, v')). apply in_map, I.
    + apply String.eqb_neq in E. intros [[= <- <-]|I].
      * right. split; [exact E | now left].
      * destruct (IH ND' I) as [?|[? ?]]; [now left|]. right. split; [assumption | now right].
Qed.

End MapFacts.

Lemma NoDup_app_cons_snoc {A : Type} (l : list A) (x : A) :
  NoDup l -> ~ In x l -> NoDup (l ++ [x]).
Proof.
  induction l as [|y l IH]; simpl; intros ND N.
  - constructor; [tauto | constructor].
  - inversion ND; subst. constructor.
    + rewrite in_app_iff. simpl. intros [?|[->|[]]]; [contradiction|]. apply N. now left.
    + apply IH; [assumption|]. intros F. apply N. now right.
Qed.

Section SumFacts.
Import RewardSpec.
Context {lib : CoinPrettyLib}.

Lemma coinTotal_app (d : string) (a b : list CoinPretty) :
  coinTotal d (a ++ b) = coinTotal d a + coinTotal d b.
Proof. induction a as [|c a IH]; simpl; [reflexivity | rewrite IH; ring]. Qed.

Lemma coinTotal_absent (d : string) (l : list CoinPretty) :
  ~ In d (map denomOf l) -> coinTotal d l = 0.
Proof.
  induction l as [|c l IH]; simpl; [reflexivity|]. intros N.
  destruct (String.eqb (denomOf c) d) eqn:E.
  - apply String.eqb_eq in E. exfalso. apply N. now left.
  - rewrite IH; [reflexivity|]. intros F. apply N. now right.
Qed.

Lemma coinAbsTotal_app (a b : list CoinPretty) :
  coinAbsTotal (a ++ b) = coinAbsTotal a + coinAbsTotal b.
Proof. induction a as [|c a IH]; simpl; [reflexivity | rewrite IH; ring]. Qed.

Lemma coinAbsTotal_nonneg (l : list CoinPretty) : 0 <= coinAbsTotal l.
Proof. induction l as [|c l IH]; simpl; lia. Qed.

Lemma coinTotal_abs (d : string) (l : list CoinPretty) :
  Z.abs (coinTotal d l) <= coinAbsTotal l.
Proof.
  induction l as [|c l IH]; simpl; [lia|].
  destruct (String.eqb (denomOf c) d); lia.
Qed.

Lemma summed_empty : summed JSMap.empty [].
Proof.
  split; [constructor|]. split; [intros k; simpl; tauto | intros k v []].
Qed.

(** One call of the callback that returns keeps the invariant. *)
Lemma summed_step (m m' : JSMap.t CoinPretty) (done : list CoinPretty) (c : CoinPretty) :
  summed m done -> sumByDenom m c = Ok m' -> summed m' (done ++ [c]).
Proof.
  intros (ND & Keys & Vals). unfold sumByDenom. fold (denomOf c).
  destruct (JSMap.get m (denomOf c)) as [cur|] eqn:G.
  - (* the denomination is present: its entry is replaced by the sum *)
    pose proof (get_Some_In m _ _ G) as I.
    destruct (Vals _ _ I) as [Dcur Acur].
    assert (Kin : In (denomOf c) (map fst m)).
    { change (denomOf c) with (fst (denomOf c, cur)). apply in_map, I. }
    destruct (CoinPretty_add cur c) as [sum|] eqn:A; [|discriminate].
    cbn [bind]. intros [= <-].
    destruct (CoinPretty_add_amount cur c sum Dcur A) as [Csum Asum].
    split; [rewrite set_keys_present; assumption|]. split.
    + intros k. rewrite set_keys_present by assumption.
      rewrite map_app, in_app_iff, Keys. simpl. split; [tauto|].
      intros [?|[<-|[]]]; [assumption|]. apply Keys, Kin.
    + intros k v Iv. apply set_In in Iv; [|exact ND].
      rewrite coinTotal_app. simpl.
      destruct Iv as [[-> ->] | [Nk Iv]].
      * rewrite String.eqb_refl. unfold denomOf at 1. rewrite Csum.
        fold (denomOf cur). split; [exact Dcur | lia].
      * destruct (Vals _ _ Iv) as [Dv Av]. split; [exact Dv|].
        replace (String.eqb (denomOf c) k) with false
          by (symmetry; apply String.eqb_neq; congruence).
        lia.
  - (* a new denomination: the coin is appended *)
    intros [= <-].
    pose proof (get_None_keys m _ G) as N.
    rewrite set_absent by exact N. split.
    + rewrite map_app. simpl. apply NoDup_app_cons_snoc; assumption.
    + split.
      * intros k. rewrite !map_app, !in_app_iff, Keys. simpl. tauto.
      * intros k v Iv. apply in_app_iff in Iv. rewrite coinTotal_app. simpl.
        destruct Iv as [Iv | [[= <- <-]|[]]].
        -- destruct (Vals _ _ Iv) as [Dv Av]. split; [exact Dv|].
           assert (k <> denomOf c).
           { intros ->. apply N. change (denomOf c) with (fst (denomOf c, v)).
             apply in_map, Iv. }
           replace (String.eqb (denomOf c) k) with false
             by (symmetry; apply String.eqb_neq; congruence).
           lia.
        -- split; [reflexivity|]. rewrite String.eqb_refl.
           rewrite coinTotal_absent; [lia|]. intros F. apply N, Keys, F.
Qed.

Lemma summed_fold (todo : list CoinPretty) :
  forall m m' done,
    summed m done -> reduce sumByDenom todo m = Ok m' -> summed m' (done ++ todo).
Proof.
  induction todo as [|c todo IH]; intros m m' done S; cbn [reduce].
  - intros [= <-]. rewrite app_nil_r. exact S.
  - destruct (sumByDenom m c) as [m1|] eqn:E; [|discriminate]. cbn [bind].
    replace (done ++ c :: todo) with ((done ++ [c]) ++ todo)
      by (rewrite <- app_assoc; reflexivity).
    apply IH. exact (summed_step m m1 done c S E).
Qed.

(** The callback returns when the addition it makes does. *)
Lemma sumByDenom_returns (m : JSMap.t CoinPretty) (done : list CoinPretty)
    (c : CoinPretty) :
  (forall a b, denomOf a = denomOf b -> Z.abs (amount a + amount b) <= Dec.maxDec ->
               exists sum, CoinPretty_add a b = Ok sum) ->
  summed m done ->
  coinAbsTotal (done ++ [c]) <= Dec.maxDec ->
  exists m', sumByDenom m c = Ok m'.
Proof.
  intros Hadd (ND & Keys & Vals) Hb. unfold sumByDenom. fold (denomOf c).
  destruct (JSMap.get m (denomOf c)) as [cur|] eqn:G; [|eauto].
  pose proof (get_Some_In m _ _ G) as I.
  destruct (Vals _ _ I) as [Dcur Acur].
  destruct (Hadd cur c Dcur) as [sum ->]; [|cbn [bind]; eauto].
  rewrite Acur. rewrite coinAbsTotal_app in Hb. simpl in Hb.
  pose proof (coinTotal_abs (denomOf c) done). lia.
Qed.

Lemma reduce_returns (todo : list CoinPretty) :
  (forall a b, denomOf a = denomOf b -> Z.abs (amount a + amount b) <= Dec.maxDec ->
               exists sum, CoinPretty_add a b = Ok sum) ->
  forall m done,
    summed m done ->
    coinAbsTotal (done ++ todo) <= Dec.maxDec ->
    exists m', reduce sumByDenom todo m = Ok m'.
Proof.
  intros Hadd. induction todo as [|c todo IH]; intros m done S Hb; cbn [reduce].
  - eauto.
  - replace (done ++ c :: todo) with ((done ++ [c]) ++ todo) in Hb
      by (rewrite <- app_assoc; reflexivity).
    destruct (sumByDenom_returns m done c Hadd S) as [m1 E].
    { rewrite coinAbsTotal_app in Hb. pose proof (coinAbsTotal_nonneg todo). lia. }
    rewrite E. cbn [bind]. apply (IH m1 (done ++ [c])); [|exact Hb].
    exact (summed_step m m1 done c S E).
Qed.

Lemma values_denoms (m : JSMap.t CoinPretty) :
  (forall k v, In (k, v) m -> denomOf v = k) ->
  map denomOf (JSMap.values m) = map fst m.
Proof.
  induction m as [|[k v] m IH]; simpl; [reflexivity|]. intros Hv.
  rewrite (Hv k v) by now left. f_equal. apply IH. intros k' v' I. apply Hv. now right.
Qed.

End SumFacts.

Section RewardFacts.
Import RewardSpec.
Context {lib : CoinPrettyLib}.
Variable getAsset : string -> option Currency.

Lemma rawTotal_app (d : string) (a b : list RawAsset) :
  rawTotal getAsset d (a ++ b) = rawTotal getAsset d a + rawTotal getAsset d b.
Proof. induction a as [|r a IH]; simpl; [reflexivity | rewrite IH; ring]. Qed.

Lemma rawAbsTotal_app (a b : list RawAsset) :
  rawAbsTotal getAsset (a ++ b) = rawAbsTotal getAsset a + rawAbsTotal getAsset b.
Proof. induction a as [|r a IH]; simpl; [reflexivity | rewrite IH; ring]. Qed.

(** What the mapped coins of a raw list are, when the mapping returns. *)
Lemma mapRaw_inv (l : list RawAsset) :
  forall coins,
    mapRawAssets getAsset l = Ok coins ->
    forallb (made getAsset) l = true
    /\ (forall d, In d (map denomOf coins)
                  <-> exists r, In r l /\ resolves getAsset d r = true)
    /\ (forall d, coinTotal d coins = rawTotal getAsset d l)
    /\ coinAbsTotal coins = rawAbsTotal getAsset l.
Proof.
  induction l as [|r l IH]; intros coins; cbn [mapRawAssets].
  - intros [= <-]. split; [reflexivity|]. split; [|split; reflexivity].
    intros d. simpl. split; [tauto | intros (? & [] & _)].
  - cbn [forallb rawTotal rawAbsTotal]. unfold made at 1, resolves at 2, coinAmount.
    destruct (getAsset (raw_denom r)) as [asset|] eqn:G.
    + destruct (newCoinPretty asset (raw_amount r)) as [coin|] eqn:N; [|discriminate].
      cbn [bind].
      destruct (mapRawAssets getAsset l) as [rest|] eqn:M; [|discriminate].
      cbn [bind]. intros [= <-].
      destruct (IH rest eq_refl) as (Hm & Hd & Ht & Ha).
      pose proof (newCoinPretty_currency asset (raw_amount r) coin N) as C.
      assert (D : denomOf coin = coinMinimalDenom asset) by (unfold denomOf; now rewrite C).
      split; [exact Hm|]. split; [|split].
      * intros d. cbn [map In]. rewrite Hd, D. split.
        -- intros [<- | (r' & I & R)].
           ++ exists r. split; [now left|]. unfold resolves. rewrite G.
              apply String.eqb_refl.
           ++ exists r'. split; [now right | exact R].
        -- intros (r' & [<- | I] & R).
           ++ left. unfold resolves in R. rewrite G in R.
              apply String.eqb_eq in R. exact R.
           ++ right. exists r'. auto.
      * intros d. cbn [coinTotal]. rewrite Ht, D. reflexivity.
      * cbn [coinAbsTotal]. rewrite Ha. reflexivity.
    + intros M. destruct (IH coins M) as (Hm & Hd & Ht & Ha).
      split; [exact Hm|]. split; [|split].
      * intros d. rewrite Hd. split.
        -- intros (r' & I & R). exists r'. split; [now right | exact R].
        -- intros (r' & [<- | I] & R).
           ++ unfold resolves in R. rewrite G in R. discriminate.
           ++ exists r'. auto.
      * intros d. rewrite Ht. lia.
      * rewrite Ha. change (Z.abs 0) with 0. lia.
Qed.

(** The mapping returns exactly when every constructor call does. *)
Lemma mapRaw_returns (l : list RawAsset) :
  forallb (made getAsset) l = true -> exists coins, mapRawAssets getAsset l = Ok coins.
Proof.
  induction l as [|r l IH]; cbn [mapRawAssets forallb]; [eauto|].
  unfold made at 1. intros H. apply andb_true_iff in H. destruct H as [H1 H2].
  destruct (IH H2) as [rest ->].
  destruct (getAsset (raw_denom r)) as [asset|]; [|eauto].
  destruct (newCoinPretty asset (raw_amount r)) as [coin|]; [|discriminate].
  cbn [bind]. eauto.
Qed.

Lemma mapRaw_throws (l : list RawAsset) :
  forallb (made getAsset) l = false -> exists e, mapRawAssets getAsset l = Throw e.
Proof.
  intros H. destruct (mapRawAssets getAsset l) as [coins|e] eqn:M; [|eauto].
  destruct (mapRaw_inv l coins M) as (Hm & _). congruence.
Qed.

(** The two functions, as one fold over the mapped lists. *)
Lemma getTotalEarned_eq (spread incentive : option (list RawAsset)) :
  getTotalEarned getAsset spread incentive
  = (spreadRewards <- mapRawAssets getAsset (rawsOf spread) ;;
     incentivesRewards <- mapRawAssets getAsset (rawsOf incentive) ;;
     sumByDenoms <- reduce sumByDenom (spreadRewards ++ incentivesRewards) JSMap.empty ;;
     Ok (JSMap.values sumByDenoms)).
Proof. destruct spread, incentive; reflexivity. Qed.

Lemma getTotalClaimableRewards_eq (spread incentive : option (list RawAsset)) :
  getTotalClaimableRewards getAsset incentive spread
  = (incentivesRewards <- mapRawAssets getAsset (rawsOf incentive) ;;
     spreadRewards <- mapRawAssets getAsset (rawsOf spread) ;;
     sumByDenoms <- reduce sumByDenom (spreadRewards ++ incentivesRewards) JSMap.empty ;;
     Ok (JSMap.values sumByDenoms)).
Proof. destruct spread, incentive; reflexivity. Qed.

(** Both return the same list, when either returns. *)
Lemma getTotalEarned_same (spread incentive : option (list RawAsset))
    (total : list CoinPretty) :
  getTotalEarned getAsset spread incentive = Ok total
  <-> getTotalClaimableRewards getAsset incentive spread = Ok total.
Proof.
  rewrite getTotalEarned_eq, getTotalClaimableRewards_eq.
  destruct (mapRawAssets getAsset (rawsOf spread));
    destruct (mapRawAssets getAsset (rawsOf incentive)); cbn [bind];
    split; trivial; discriminate.
Qed.

End RewardFacts.

(** C2, as stated, fails: the functions do not return for every pair of raw
    lists.  [new CoinPretty] throws on an amount out of the range of a
    decimal, on an amount that is no decimal and on an asset of more than 18
    decimals: a single reward of [10^66] uosmo makes
    [getTotalClaimableRewards] and [getTotalEarned] throw, and so does a
    reward with an unreadable amount, or one of an asset of 19 decimals. *)
Lemma getTotalClaimableRewards_throws :
  getTotalClaimableRewards (lib := ReferenceCoin.lib) Sample.getAsset
    None (Some [Sample.rawAsset (10 ^ 66) "uosmo"])
  = Throw IntegerOutOfRange
  /\ getTotalEarned (lib := ReferenceCoin.lib) Sample.getAsset
       (Some [Sample.rawAsset (10 ^ 66) "uosmo"]) None
     = Throw IntegerOutOfRange
  /\ getTotalClaimableRewards (lib := ReferenceCoin.lib) Sample.getAsset
       (Some [Sample.rawAsset 1 "uusdc"; Sample.rawAssetNotDecimal "uosmo"]) None
     = Throw InvalidDecimal
  /\ getTotalClaimableRewards (lib := ReferenceCoin.lib) Sample.getAssetFine
       None (Some [Sample.rawAsset 1 "afine"])
     = Throw TooMuchPrecision.
Proof. repeat split; vm_compute; reflexivity. Qed.

(** C2, amended.  [getTotalClaimableRewards] throws when [new CoinPretty]
    throws on a reward of either raw list whose asset is known.  When it
    returns, it returns exactly one coin per minimal denomination that a
    known asset of either raw list has, and the amount of that coin is the
    sum of the amounts of the coins made from the occurrences of the
    denomination in both lists.  It returns when the constructor returns on
    every reward of a known asset, the absolute amounts of the coins add up
    to at most [2^316 - 1], and [CoinPretty.add] returns on every two coins
    of one denomination whose amounts add up to at most that.
    [getTotalEarned], on the total spread and incentive rewards, returns the
    same list when either returns, and throws when the other throws. *)
Theorem getTotalClaimableRewards_correct {lib : CoinPrettyLib}
    (getAsset : string -> option Currency)
    (rawSpreadRewards rawIncentiveRewards : option (list RawAsset)) :
  let raws :=
    RewardSpec.rawsOf rawSpreadRewards ++ RewardSpec.rawsOf rawIncentiveRewards in
  let claimable := getTotalClaimableRewards getAsset rawIncentiveRewards rawSpreadRewards in
  let earned := getTotalEarned getAsset rawSpreadRewards rawIncentiveRewards in
  (forall total,
      claimable = Ok total ->
      NoDup (map RewardSpec.denomOf total)
      /\ (forall d,
            In d (map RewardSpec.denomOf total)
            <-> exists r, In r raws /\ RewardSpec.resolves getAsset d r = true)
      /\ (forall c,
            In c total ->
            amount c = RewardSpec.rawTotal getAsset (RewardSpec.denomOf c) raws))
  /\ (forall total, earned = Ok total <-> claimable = Ok total)
  /\ (forallb (RewardSpec.made getAsset) raws = false ->
      (exists e, claimable = Throw e) /\ (exists e, earned = Throw e))
  /\ ((forall a b,
          RewardSpec.denomOf a = RewardSpec.denomOf b ->
          Z.abs (amount a + amount b) <= Dec.maxDec ->
          exists sum, CoinPretty_add a b = Ok sum) ->
      forallb (RewardSpec.made getAsset) raws = true ->
      RewardSpec.rawAbsTotal getAsset raws <= Dec.maxDec ->
      exists total, claimable = Ok total /\ earned = Ok total).
Proof.
  intros raws claimable earned.
  assert (Hsame : forall total, earned = Ok total <-> claimable = Ok total)
    by (intros total; apply getTotalEarned_same).
  assert (Hok : forall spread incentive,
             mapRawAssets getAsset (RewardSpec.rawsOf rawSpreadRewards) = Ok spread ->
             mapRawAssets getAsset (RewardSpec.rawsOf rawIncentiveRewards) = Ok incentive ->
             claimable
             = (sumByDenoms <- reduce sumByDenom (spread ++ incentive) JSMap.empty ;;
                Ok (JSMap.values sumByDenoms))).
  { intros spread incentive Es Ei. unfold claimable.
    rewrite getTotalClaimableRewards_eq, Es, Ei. reflexivity. }
  split; [|split; [exact Hsame|split]].
  - intros total Hc.
    destruct (mapRawAssets getAsset (RewardSpec.rawsOf rawSpreadRewards))
      as [spread|] eqn:Es;
      [|unfold claimable in Hc; rewrite getTotalClaimableRewards_eq, Es in Hc;
        destruct (mapRawAssets getAsset (RewardSpec.rawsOf rawIncentiveRewards));
        discriminate].
    destruct (mapRawAssets getAsset (RewardSpec.rawsOf rawIncentiveRewards))
      as [incentive|] eqn:Ei;
      [|unfold claimable in Hc; rewrite getTotalClaimableRewards_eq, Ei in Hc;
        discriminate].
    rewrite (Hok spread incentive eq_refl eq_refl) in Hc.
    destruct (reduce sumByDenom (spread ++ incentive) JSMap.empty) as [m|] eqn:R;
      [|discriminate].
    cbn [bind] in Hc. injection Hc as <-.
    destruct (summed_fold _ _ _ [] summed_empty R) as (ND & Keys & Vals).
    simpl app in Keys, Vals.
    destruct (mapRaw_inv getAsset _ spread Es) as (_ & Ds & Ts & _).
    destruct (mapRaw_inv getAsset _ incentive Ei) as (_ & Di & Ti & _).
    assert (Hden : map RewardSpec.denomOf (JSMap.values m) = map fst m).
    { apply values_denoms. intros k v I. apply (Vals k v I). }
    split; [rewrite Hden; exact ND|]. split.
    + intros d. rewrite Hden, Keys. unfold raws.
      rewrite map_app, in_app_iff, Ds, Di. split.
      * intros [(r & I & Rr) | (r & I & Rr)]; exists r;
          (split; [apply in_app_iff; auto | exact Rr]).
      * intros (r & I & Rr). apply in_app_iff in I.
        destruct I as [I|I]; [left | right]; exists r; auto.
    + intros c Ic. unfold JSMap.values in Ic. apply in_map_iff in Ic.
      destruct Ic as ([k v] & <- & I). simpl.
      destruct (Vals k v I) as [Dv Av]. rewrite Av, Dv. unfold raws.
      rewrite coinTotal_app, rawTotal_app, Ts, Ti. reflexivity.
  - intros Hm.
    assert (Hthrow : exists e, claimable = Throw e).
    { unfold raws in Hm. rewrite forallb_app in Hm.
      unfold claimable. rewrite getTotalClaimableRewards_eq.
      destruct (forallb (RewardSpec.made getAsset) (RewardSpec.rawsOf rawIncentiveRewards))
        eqn:Fi.
      - destruct (mapRaw_returns getAsset _ Fi) as [incentive ->]. cbn [bind].
        rewrite andb_true_r in Hm.
        destruct (mapRaw_throws getAsset _ Hm) as [e ->]. cbn [bind]. eauto.
      - destruct (mapRaw_throws getAsset _ Fi) as [e ->]. cbn [bind]. eauto. }
    split; [exact Hthrow|].
    destruct Hthrow as [e He]. unfold earned.
    destruct (getTotalEarned getAsset rawSpreadRewards rawIncentiveRewards)
      as [total|e'] eqn:E; [|eauto].
    apply (proj1 (getTotalEarned_same getAsset _ _ total)) in E.
    unfold claimable in He. congruence.
  - intros Hadd Hm Hb. unfold raws in Hm, Hb.
    rewrite forallb_app in Hm. apply andb_true_iff in Hm. destruct Hm as [Hs Hi].
    destruct (mapRaw_returns getAsset _ Hs) as [spread Es].
    destruct (mapRaw_returns getAsset _ Hi) as [incentive Ei].
    destruct (mapRaw_inv getAsset _ spread Es) as (_ & _ & _ & As).
    destruct (mapRaw_inv getAsset _ incentive Ei) as (_ & _ & _ & Ai).
    rewrite rawAbsTotal_app, <- As, <- Ai, <- coinAbsTotal_app in Hb.
    destruct (reduce_returns (spread ++ incentive) Hadd JSMap.empty [] summed_empty Hb)
      as [m R].
    exists (JSMap.values m).
    assert (Hc : claimable = Ok (JSMap.values m)).
    { rewrite (Hok spread incentive Es Ei), R. reflexivity. }
    split; [exact Hc | apply Hsame, Hc].
Qed.

Lemma getTotalClaimableRewards_correct_witness :
  (exists total,
      getTotalClaimableRewards (lib := ReferenceCoin.lib) Sample.getAsset
        (Some [Sample.rawAsset 5 "uosmo"; Sample.rawAsset 7 "unknown"])
        (Some [Sample.rawAsset 1 "uusdc"; Sample.rawAsset 2 "OSMO";
               Sample.rawAsset 3 "uusdc"])
      = Ok total
      /\ getTotalEarned (lib := ReferenceCoin.lib) Sample.getAsset
           (Some [Sample.rawAsset 1 "uusdc"; Sample.rawAsset 2 "OSMO";
                  Sample.rawAsset 3 "uusdc"])
           (Some [Sample.rawAsset 5 "uosmo"; Sample.rawAsset 7 "unknown"])
         = Ok total)
  /\ NoDup (map RewardSpec.denomOf
                [mkCoinPretty Sample.usdc (4 * 10 ^ 12);
                 mkCoinPretty Sample.osmo (7 * 10 ^ 12)])
  /\ exists e,
      getTotalClaimableRewards (lib := ReferenceCoin.lib) Sample.getAsset
        None (Some [Sample.rawAsset (10 ^ 66) "uosmo"])
      = Throw e.
Proof.
  split; [|split].
  - destruct (getTotalClaimableRewards_correct (lib := ReferenceCoin.lib) Sample.getAsset
                (Some [Sample.rawAsset 1 "uusdc"; Sample.rawAsset 2 "OSMO";
                       Sample.rawAsset 3 "uusdc"])
                (Some [Sample.rawAsset 5 "uosmo"; Sample.rawAsset 7 "unknown"]))
      as (_ & _ & _ & H).
    apply H.
    + intros a b E Hb. cbn [CoinPretty_add ReferenceCoin.lib]. unfold ReferenceCoin.add.
      unfold RewardSpec.denomOf in E. rewrite E, String.eqb_refl.
      unfold Dec.add, Dec.make. cbn [Dec.int].
      apply Z.leb_le in Hb. rewrite Hb. cbn [bind]. eauto.
    + vm_compute. reflexivity.
    + vm_compute. discriminate.
  - destruct (getTotalClaimableRewards_correct (lib := ReferenceCoin.lib) Sample.getAsset
                (Some [Sample.rawAsset 1 "uusdc"; Sample.rawAsset 2 "OSMO";
                       Sample.rawAsset 3 "uusdc"])
                (Some [Sample.rawAsset 5 "uosmo"; Sample.rawAsset 7 "unknown"]))
      as (H & _).
    apply (H [mkCoinPretty Sample.usdc (4 * 10 ^ 12);
              mkCoinPretty Sample.osmo (7 * 10 ^ 12)]).
    vm_compute. reflexivity.
  - destruct (getTotalClaimableRewards_correct (lib := ReferenceCoin.lib) Sample.getAsset
                (Some [Sample.rawAsset (10 ^ 66) "uosmo"]) None)
      as (_ & _ & H & _).
    apply H. vm_compute. reflexivity.
Defined.

(** ** Numbers: a decimal sent through a double stays within a factor four *)

Module NumberFacts.
Import JSNumber NumberSpec.

Lemma roundHalfEven_bounds (n d : Z) :
  n / d <= roundHalfEven n d <= n / d + 1.
Proof.
  unfold roundHalfEven.
  repeat match goal with |- context [if ?c then _ else _] => destruct c end; lia.
Qed.

Lemma den_pos (x : t) : 0 < den x.
Proof.
  unfold den. destruct (0 <=? expo x) eqn:E; [lia|].
  apply Z.ltb_ge in E || apply Z.leb_gt in E. apply Z.pow_pos_nonneg; lia.
Qed.

(** With an exponent at most [log2 num - log2 den - 52], the scaled quotient
    is at least one. *)
Lemma scaled_ge_one (n d e : Z) :
  0 < n -> 0 < d -> e <= Z.log2 n - Z.log2 d - 52 ->
  (0 <= e -> d * 2 ^ e <= n) /\ (e < 0 -> d <= n * 2 ^ (- e)).
Proof.
  intros Hn Hd He.
  pose proof (Z.log2_spec n Hn) as [Ln _].
  pose proof (Z.log2_spec d Hd) as [_ Ld].
  pose proof (Z.log2_nonneg n) as Nn.
  pose proof (Z.log2_nonneg d) as Nd.
  split; intros E.
  - assert (2 ^ Z.succ (Z.log2 d) * 2 ^ e <= 2 ^ Z.log2 n).
    { rewrite <- Z.pow_add_r by lia. apply Z.pow_le_mono_r; lia. }
    assert (0 < 2 ^ e) by (apply Z.pow_pos_nonneg; lia).
    nia.
  - assert (2 ^ Z.succ (Z.log2 d) <= 2 ^ Z.log2 n * 2 ^ (- e)).
    { rewrite <- Z.pow_add_r by lia. apply Z.pow_le_mono_r; lia. }
    assert (0 < 2 ^ (- e)) by (apply Z.pow_pos_nonneg; lia).
    nia.
Qed.


Lemma within2_raw (n d e m : Z) :
  0 < n -> 0 < d -> e <= Z.log2 n - Z.log2 d - 52 ->
  m = (if 0 <=? e then roundHalfEven n (d * 2 ^ e)
       else roundHalfEven (n * 2 ^ (- e)) d) ->
  within2 (mk m e) n d.
Proof.
  intros Hn Hd He Hm.
  destruct (scaled_ge_one n d e Hn Hd He) as [S1 S2].
  unfold within2, num, den. cbn [mant expo].
  destruct (0 <=? e) eqn:E.
  - apply Z.leb_le in E. specialize (S1 E).
    assert (P : 0 < 2 ^ e) by (apply Z.pow_pos_nonneg; lia).
    pose proof (roundHalfEven_bounds n (d * 2 ^ e)) as B. rewrite <- Hm in B.
    pose proof (Z.div_mod n (d * 2 ^ e) ltac:(nia)) as DM.
    pose proof (Z.mod_pos_bound n (d * 2 ^ e) ltac:(nia)) as MB.
    assert (1 <= n / (d * 2 ^ e)) by (apply Z.div_le_lower_bound; nia).
    nia.
  - apply Z.leb_gt in E. specialize (S2 E).
    assert (P : 0 < 2 ^ (- e)) by (apply Z.pow_pos_nonneg; lia).
    pose proof (roundHalfEven_bounds (n * 2 ^ (- e)) d) as B. rewrite <- Hm in B.
    pose proof (Z.div_mod (n * 2 ^ (- e)) d ltac:(lia)) as DM.
    pose proof (Z.mod_pos_bound (n * 2 ^ (- e)) d ltac:(lia)) as MB.
    assert (1 <= n * 2 ^ (- e) / d) by (apply Z.div_le_lower_bound; nia).
    nia.
Qed.

Lemma within2_renorm (n d e : Z) :
  within2 (mk (2 ^ 53) e) n d -> within2 (mk (2 ^ 52) (e + 1)) n d.
Proof.
  unfold within2, num, den. cbn [mant expo].
  destruct (0 <=? e) eqn:E.
  - apply Z.leb_le in E.
    replace (0 <=? e + 1) with true by (symmetry; apply Z.leb_le; lia).
    rewrite Z.pow_add_r by lia. change (2 ^ 1) with 2.
    assert (0 < 2 ^ e) by (apply Z.pow_pos_nonneg; lia).
    change (2 ^ 53) with (2 * 2 ^ 52). nia.
  - apply Z.leb_gt in E.
    destruct (0 <=? e + 1) eqn:F.
    + apply Z.leb_le in F. assert (e = -1) by lia. subst e.
      change (-1 + 1) with 0. change (- -1) with 1. change (2 ^ 53) with (2 * 2 ^ 52).
      change (2 ^ 1) with 2. change (2 ^ 0) with 1. lia.
    + apply Z.leb_gt in F.
      replace (- e) with (- (e + 1) + 1) by lia.
      rewrite Z.pow_add_r by lia. change (2 ^ 1) with 2.
      assert (0 < 2 ^ (- (e + 1))) by (apply Z.pow_pos_nonneg; lia).
      change (2 ^ 53) with (2 * 2 ^ 52). nia.
Qed.

Lemma nearest_within2 (n d : Z) : 0 < n -> 0 < d -> within2 (nearest n d) n d.
Proof.
  intros Hn Hd. unfold nearest.
  set (e0 := Z.log2 n - Z.log2 d - 52).
  set (below := if 0 <=? e0 then n <? 2 ^ 52 * (d * 2 ^ e0)
                else n * 2 ^ (- e0) <? 2 ^ 52 * d).
  set (e := if below then e0 - 1 else e0).
  assert (He : e <= Z.log2 n - Z.log2 d - 52) by (unfold e; destruct below; lia).
  set (m := if 0 <=? e then roundHalfEven n (d * 2 ^ e)
            else roundHalfEven (n * 2 ^ (- e)) d).
  pose proof (within2_raw n d e m Hn Hd He eq_refl) as W.
  destruct (m =? 2 ^ 53) eqn:M.
  - apply Z.eqb_eq in M. rewrite M in W. apply within2_renorm, W.
  - exact W.
Qed.


Lemma num_neg (x : t) : num (neg x) = - num x.
Proof. unfold num, neg. cbn [mant expo]. destruct (0 <=? expo x); ring. Qed.

Lemma den_neg (x : t) : den (neg x) = den x.
Proof. reflexivity. Qed.

(** [Number(d.toString())] is within a factor two of [d]. *)
Lemma ofDec_bound (a : Dec.t) :
  Z.abs (num (ofDec a)) * Dec.precisionMultiplier
  <= 2 * Z.abs (Dec.int a) * den (ofDec a).
Proof.
  unfold ofDec. pose proof DecFacts.precisionMultiplier_val as P.
  destruct (Dec.int a =? 0) eqn:E0.
  - apply Z.eqb_eq in E0. rewrite E0. vm_compute. discriminate.
  - apply Z.eqb_neq in E0. destruct (0 <? Dec.int a) eqn:E1.
    + apply Z.ltb_lt in E1.
      destruct (nearest_within2 (Dec.int a) Dec.precisionMultiplier E1 ltac:(lia)) as [U L].
      pose proof (den_pos (nearest (Dec.int a) Dec.precisionMultiplier)).
      assert (0 <= num (nearest (Dec.int a) Dec.precisionMultiplier)) by nia.
      lia.
    + apply Z.ltb_ge in E1.
      destruct (nearest_within2 (- Dec.int a) Dec.precisionMultiplier ltac:(lia) ltac:(lia))
        as [U L].
      rewrite num_neg, den_neg.
      pose proof (den_pos (nearest (- Dec.int a) Dec.precisionMultiplier)).
      assert (0 <= num (nearest (- Dec.int a) Dec.precisionMultiplier)) by nia.
      lia.
Qed.


Lemma floorAt_atMostTwice (x : t) (p : Z) :
  0 <= num x -> atMostTwice x (floorAt x p) p.
Proof.
  intros Hn. pose proof (den_pos x) as Hd. unfold atMostTwice, floorAt.
  destruct (0 <=? p) eqn:E.
  - apply Z.leb_le in E.
    assert (0 < 10 ^ p) by (apply Z.pow_pos_nonneg; lia).
    pose proof (Z.div_mod (num x) (den x * 10 ^ p) ltac:(nia)) as DM.
    pose proof (Z.mod_pos_bound (num x) (den x * 10 ^ p) ltac:(nia)) as MB.
    assert (0 <= num x / (den x * 10 ^ p)) by (apply Z.div_pos; nia).
    split; [assumption|]. split; [intros _; nia | lia].
  - apply Z.leb_gt in E.
    assert (0 < 10 ^ (- p)) by (apply Z.pow_pos_nonneg; lia).
    pose proof (Z.div_mod (num x * 10 ^ (- p)) (den x) ltac:(lia)) as DM.
    pose proof (Z.mod_pos_bound (num x * 10 ^ (- p)) (den x) ltac:(lia)) as MB.
    assert (0 <= num x * 10 ^ (- p) / den x) by (apply Z.div_pos; nia).
    split; [assumption|]. split; [lia | intros _; nia].
Qed.

Lemma readsBack_atMostTwice (x : t) (s p : Z) :
  readsBack x s p = true -> atMostTwice x s p.
Proof.
  unfold readsBack. intros H. apply andb_prop in H. destruct H as [Hs H].
  apply Z.ltb_lt in Hs. apply andb_prop in H. destruct H as [Hm He].
  apply Z.eqb_eq in Hm. apply Z.eqb_eq in He.
  unfold atMostTwice. split; [lia|].
  destruct (0 <=? p) eqn:E.
  - apply Z.leb_le in E.
    assert (0 < 10 ^ p) by (apply Z.pow_pos_nonneg; lia).
    destruct (nearest_within2 (s * 10 ^ p) 1 ltac:(nia) ltac:(lia)) as [U L].
    assert (X : nearest (s * 10 ^ p) 1 = x).
    { destruct x, (nearest (s * 10 ^ p) 1). simpl in *. congruence. }
    rewrite X in *. split; [intros _; lia | lia].
  - apply Z.leb_gt in E.
    assert (0 < 10 ^ (- p)) by (apply Z.pow_pos_nonneg; lia).
    destruct (nearest_within2 s (10 ^ (- p)) ltac:(lia) ltac:(lia)) as [U L].
    assert (X : nearest s (10 ^ (- p)) = x).
    { destruct x, (nearest s (10 ^ (- p))). simpl in *. congruence. }
    rewrite X in *. split; [lia | intros _; lia].
Qed.

Lemma shortestFrom_atMostTwice (x : t) (more : nat) :
  0 <= num x ->
  forall p, atMostTwice x (fst (shortestFrom x more p)) (snd (shortestFrom x more p)).
Proof.
  intros Hn. induction more as [|more IH]; intros p; simpl;
    destruct (readsBack x (floorAt x p) p) eqn:OkLo;
    destruct (readsBack x (floorAt x p + 1) p) eqn:OkHi; simpl;
    try destruct (nearerLow x (floorAt x p) p); simpl;
    auto using floorAt_atMostTwice, readsBack_atMostTwice.
Qed.

Lemma num_sign (x : t) : (0 < mant x -> 0 < num x) /\ (mant x < 0 -> num x < 0).
Proof.
  unfold num. destruct (0 <=? expo x) eqn:E; [|lia].
  apply Z.leb_le in E. assert (0 < 2 ^ expo x) by (apply Z.pow_pos_nonneg; lia). nia.
Qed.

(** The printed decimal is at most twice the number, in absolute value. *)
Lemma toDecimal_bound (x : t) :
  let s := fst (toDecimal x) in
  let p := snd (toDecimal x) in
  (0 <= p -> Z.abs s * 10 ^ p * den x <= 2 * Z.abs (num x))
  /\ (p < 0 -> Z.abs s * den x <= 2 * Z.abs (num x) * 10 ^ (- p)).
Proof.
  unfold toDecimal. pose proof (den_pos x) as Hd. pose proof (num_sign x) as [Sp Sn].
  destruct (mant x =? 0) eqn:E0.
  - cbn [fst snd]. change (Z.abs 0) with 0. split; intros; lia.
  - apply Z.eqb_neq in E0. destruct (0 <? mant x) eqn:E1.
    + apply Z.ltb_lt in E1. specialize (Sp E1).
      destruct (shortestFrom_atMostTwice x 16 ltac:(lia) (leadingPosition x))
        as (S0 & S1 & S2).
      cbv zeta. rewrite (Z.abs_eq (num x)), (Z.abs_eq (fst _)) by lia. auto.
    + apply Z.ltb_ge in E1. specialize (Sn ltac:(lia)).
      pose proof (num_neg x) as Nn.
      destruct (shortestFrom_atMostTwice (neg x) 16 ltac:(lia) (leadingPosition (neg x)))
        as (S0 & S1 & S2).
      rewrite den_neg, Nn in *.
      destruct (shortestFrom (neg x) 16 (leadingPosition (neg x))) as [s p].
      cbn [fst snd] in *. rewrite Z.abs_opp, (Z.abs_eq s), (Z.abs_neq (num x)) by lia.
      auto.
Qed.

(** [new Dec(x)] is at most twice [x], whence at most four times a decimal
    that [x] was read from. *)
Lemma Dec_ofNumber_int (x : t) :
  let s := fst (toDecimal x) in
  let p := snd (toDecimal x) in
  let i := if 0 <=? p + Dec.precision then s * 10 ^ (p + Dec.precision)
           else Z.quot s (10 ^ (- (p + Dec.precision))) in
  Dec_ofNumber x = Dec.make i
  /\ Z.abs i * den x <= 2 * Z.abs (num x) * Dec.precisionMultiplier.
Proof.
  intros s p i. split.
  - unfold Dec_ofNumber, i, s, p. destruct (toDecimal x). reflexivity.
  - pose proof (toDecimal_bound x) as [B1 B2]. fold s p in B1, B2.
    pose proof (den_pos x) as Hd.
    unfold i, Dec.precisionMultiplier, Dec.precision.
    destruct (0 <=? p + 18) eqn:E.
    + apply Z.leb_le in E. destruct (Z.le_gt_cases 0 p) as [Hp|Hp].
      * specialize (B1 Hp). rewrite Z.pow_add_r by lia.
        assert (0 < 10 ^ p) by (apply Z.pow_pos_nonneg; lia).
        rewrite !Z.abs_mul, (Z.abs_eq (10 ^ p)), (Z.abs_eq (10 ^ 18)) by lia.
        nia.
      * specialize (B2 Hp).
        assert (K : 10 ^ 18 = 10 ^ (p + 18) * 10 ^ (- p)).
        { rewrite <- Z.pow_add_r by lia. f_equal. lia. }
        assert (0 < 10 ^ (p + 18)) by (apply Z.pow_pos_nonneg; lia).
        assert (0 < 10 ^ (- p)) by (apply Z.pow_pos_nonneg; lia).
        rewrite K, Z.abs_mul, (Z.abs_eq (10 ^ (p + 18))) by lia.
        nia.
    + apply Z.leb_gt in E. specialize (B2 ltac:(lia)).
      set (k := 10 ^ (- (p + 18))).
      assert (Hk : 0 < k) by (apply Z.pow_pos_nonneg; lia).
      assert (K : 10 ^ (- p) = k * 10 ^ 18).
      { unfold k. rewrite <- Z.pow_add_r by lia. f_equal. lia. }
      assert (Q : Z.abs (Z.quot s k) * k <= Z.abs s).
      { pose proof (Z.quot_rem' s k) as QR.
        pose proof (Z.rem_bound_abs s k ltac:(lia)).
        pose proof (Z.quot_abs s k ltac:(lia)) as QA. rewrite (Z.abs_eq k) in QA by lia.
        rewrite <- QA, Z.quot_div_nonneg by lia.
        pose proof (Z.mul_div_le (Z.abs s) k Hk). lia. }
      rewrite K in B2. nia.
Qed.

Lemma Dec_ofNumber_ofDec_bound (a : Dec.t) (i : Z) :
  (let s := fst (toDecimal (ofDec a)) in
   let p := snd (toDecimal (ofDec a)) in
   i = if 0 <=? p + Dec.precision then s * 10 ^ (p + Dec.precision)
       else Z.quot s (10 ^ (- (p + Dec.precision)))) ->
  Z.abs i <= 4 * Z.abs (Dec.int a).
Proof.
  intros Hi. destruct (Dec_ofNumber_int (ofDec a)) as [_ B]. cbv zeta in Hi, B.
  rewrite <- Hi in B. pose proof (ofDec_bound a) as A.
  pose proof (den_pos (ofDec a)) as Hd.
  rewrite DecFacts.precisionMultiplier_val in *. nia.
Qed.

(** *** The order of numbers: reading a decimal as a number is monotone *)

Lemma roundHalfEven_scale (k n d : Z) :
  0 < k -> 0 < d -> roundHalfEven (n * k) (d * k) = roundHalfEven n d.
Proof.
  intros Hk Hd. unfold roundHalfEven.
  rewrite Z.div_mul_cancel_r by lia.
  rewrite Z.mul_mod_distr_r by lia.
  set (q := n / d). set (r := n mod d).
  destruct (Z.ltb_spec (2 * r) d) as [E1|E1];
    destruct (Z.ltb_spec (2 * (r * k)) (d * k)) as [E1'|E1'];
    try reflexivity; try nia.
  destruct (Z.ltb_spec d (2 * r)) as [E2|E2];
    destruct (Z.ltb_spec (d * k) (2 * (r * k))) as [E2'|E2'];
    try reflexivity; nia.
Qed.

Lemma roundHalfEven_mono (n1 n2 d : Z) :
  0 < d -> n1 <= n2 -> roundHalfEven n1 d <= roundHalfEven n2 d.
Proof.
  intros Hd Hn.
  pose proof (roundHalfEven_bounds n1 d) as B1.
  pose proof (roundHalfEven_bounds n2 d) as B2.
  pose proof (Z.div_le_mono n1 n2 d Hd Hn) as Q.
  destruct (Z.eq_dec (n1 / d) (n2 / d)) as [E|E]; [|lia].
  pose proof (Z.div_mod n1 d ltac:(lia)) as D1.
  pose proof (Z.div_mod n2 d ltac:(lia)) as D2.
  assert (R : n1 mod d <= n2 mod d) by (rewrite E in D1; lia).
  unfold roundHalfEven. rewrite E.
  destruct (Z.ltb_spec (2 * (n1 mod d)) d) as [A1|A1];
    destruct (Z.ltb_spec (2 * (n2 mod d)) d) as [A2|A2];
    destruct (Z.ltb_spec d (2 * (n1 mod d))) as [C1|C1];
    destruct (Z.ltb_spec d (2 * (n2 mod d))) as [C2|C2];
    destruct (Z.even (n2 / d)); lia.
Qed.

(** The two branches of a scaled comparison, as one. *)
Lemma scaled_ltb (n d e s c : Z) :
  0 <= s -> 0 <= e + s ->
  (if 0 <=? e then n <? c * (d * 2 ^ e) else n * 2 ^ (- e) <? c * d)
  = (n * 2 ^ s <? c * (d * 2 ^ (e + s))).
Proof.
  intros Hs Hes.
  assert (Ps : 0 < 2 ^ s) by (apply Z.pow_pos_nonneg; lia).
  assert (Pes : 0 < 2 ^ (e + s)) by (apply Z.pow_pos_nonneg; lia).
  destruct (0 <=? e) eqn:E.
  - apply Z.leb_le in E. rewrite Z.pow_add_r by lia.
    assert (0 < 2 ^ e) by (apply Z.pow_pos_nonneg; lia).
    destruct (n <? c * (d * 2 ^ e)) eqn:A;
      [apply Z.ltb_lt in A; symmetry; apply Z.ltb_lt
      |apply Z.ltb_ge in A; symmetry; apply Z.ltb_ge]; nia.
  - apply Z.leb_gt in E.
    assert (K : 2 ^ s = 2 ^ (- e) * 2 ^ (e + s)).
    { rewrite <- Z.pow_add_r by lia. f_equal. lia. }
    rewrite K.
    assert (0 < 2 ^ (- e)) by (apply Z.pow_pos_nonneg; lia).
    destruct (n * 2 ^ (- e) <? c * d) eqn:A;
      [apply Z.ltb_lt in A; symmetry; apply Z.ltb_lt
      |apply Z.ltb_ge in A; symmetry; apply Z.ltb_ge]; nia.
Qed.

Lemma scaled_roundHalfEven (n d e s : Z) :
  0 < d -> 0 <= s -> 0 <= e + s ->
  (if 0 <=? e then roundHalfEven n (d * 2 ^ e) else roundHalfEven (n * 2 ^ (- e)) d)
  = roundHalfEven (n * 2 ^ s) (d * 2 ^ (e + s)).
Proof.
  intros Hd Hs Hes.
  assert (Ps : 0 < 2 ^ s) by (apply Z.pow_pos_nonneg; lia).
  assert (Pes : 0 < 2 ^ (e + s)) by (apply Z.pow_pos_nonneg; lia).
  destruct (0 <=? e) eqn:E.
  - apply Z.leb_le in E. rewrite Z.pow_add_r by lia.
    assert (0 < 2 ^ e) by (apply Z.pow_pos_nonneg; lia).
    rewrite Z.mul_assoc. symmetry. apply roundHalfEven_scale; nia.
  - apply Z.leb_gt in E.
    assert (K : 2 ^ s = 2 ^ (- e) * 2 ^ (e + s)).
    { rewrite <- Z.pow_add_r by lia. f_equal. lia. }
    rewrite K, Z.mul_assoc. symmetry. apply roundHalfEven_scale; lia.
Qed.

(** [nearest], with every quantity scaled by [2^s], [s = log2 den + 53]:
    the exponent [e] puts the quotient in [[2^52, 2^53)]. *)
Lemma nearest_scaled (n d : Z) :
  0 < n -> 0 < d ->
  let s := Z.log2 d + 53 in
  exists e,
    0 <= e + s
    /\ 2 ^ 52 * (d * 2 ^ (e + s)) <= n * 2 ^ s < 2 ^ 53 * (d * 2 ^ (e + s))
    /\ nearest n d
       = (if roundHalfEven (n * 2 ^ s) (d * 2 ^ (e + s)) =? 2 ^ 53
          then mk (2 ^ 52) (e + 1)
          else mk (roundHalfEven (n * 2 ^ s) (d * 2 ^ (e + s))) e).
Proof.
  intros Hn Hd s.
  pose proof (Z.log2_spec n Hn) as [Ln Un].
  pose proof (Z.log2_spec d Hd) as [Ld Ud].
  pose proof (Z.log2_nonneg n) as Nn.
  pose proof (Z.log2_nonneg d) as Nd.
  assert (Hs : 0 <= s) by (unfold s; lia).
  unfold nearest.
  set (e0 := Z.log2 n - Z.log2 d - 52).
  assert (He0 : e0 + s = Z.log2 n + 1) by (unfold e0, s; lia).
  rewrite (scaled_ltb n d e0 s (2 ^ 52) Hs ltac:(lia)).
  set (A := 2 ^ Z.log2 n) in *. set (B := 2 ^ Z.log2 d) in *.
  assert (PA : 0 < A) by (apply Z.pow_pos_nonneg; lia).
  assert (PB : 0 < B) by (apply Z.pow_pos_nonneg; lia).
  assert (Es : 2 ^ s = 2 ^ 53 * B).
  { unfold s, B. rewrite Z.pow_add_r by lia. ring. }
  assert (E1 : 2 ^ (e0 + s) = 2 * A).
  { rewrite He0. unfold A. rewrite Z.pow_add_r by lia. ring. }
  assert (E2 : 2 ^ (e0 - 1 + s) = A).
  { unfold A. f_equal. lia. }
  rewrite Z.pow_succ_r in Un, Ud by lia. fold A in Un. fold B in Ud.
  assert (P53 : 0 < 2 ^ 53) by reflexivity.
  assert (P52 : 2 ^ 53 = 2 * 2 ^ 52) by reflexivity.
  set (c52 := 2 ^ 52) in *. set (c53 := 2 ^ 53) in *.
  destruct (n * 2 ^ s <? c52 * (d * 2 ^ (e0 + s))) eqn:Below.
  - apply Z.ltb_lt in Below. exists (e0 - 1).
    rewrite (scaled_roundHalfEven n d (e0 - 1) s Hd Hs ltac:(lia)).
    replace (e0 - 1 + 1) with e0 by lia.
    split; [lia|]. split; [|reflexivity].
    rewrite E2. rewrite E1 in Below. rewrite Es in *. clearbody A B c52 c53.
    split.
    + assert (d * A <= 2 * B * A) by nia.
      assert (A * B <= n * B) by nia. nia.
    + nia.
  - apply Z.ltb_ge in Below. exists e0.
    rewrite (scaled_roundHalfEven n d e0 s Hd Hs ltac:(lia)).
    split; [lia|]. split; [|reflexivity].
    rewrite E1 in *. rewrite Es in *. clearbody A B c52 c53.
    split; [lia|].
    assert (n * B < 2 * A * B) by nia.
    assert (2 * A * B <= 2 * A * d) by nia. nia.
Qed.

Lemma roundHalfEven_window (n d : Z) :
  0 < d -> 2 ^ 52 * d <= n < 2 ^ 53 * d ->
  2 ^ 52 <= roundHalfEven n d <= 2 ^ 53.
Proof.
  intros Hd [L U].
  pose proof (roundHalfEven_bounds n d) as B.
  assert (2 ^ 52 <= n / d) by (apply Z.div_le_lower_bound; lia).
  assert (n / d < 2 ^ 53) by (apply Z.div_lt_upper_bound; lia).
  lia.
Qed.

Lemma nearest_normal (n d : Z) :
  0 < n -> 0 < d -> 2 ^ 52 <= mant (nearest n d) < 2 ^ 53.
Proof.
  intros Hn Hd. destruct (nearest_scaled n d Hn Hd) as (e & He & W & ->).
  assert (0 < 2 ^ (e + (Z.log2 d + 53))) by (apply Z.pow_pos_nonneg; lia).
  pose proof (roundHalfEven_window _ (d * 2 ^ (e + (Z.log2 d + 53))) ltac:(nia) W) as R.
  destruct (_ =? 2 ^ 53) eqn:E; cbn [mant].
  - split; [lia | reflexivity].
  - apply Z.eqb_neq in E. lia.
Qed.

Lemma leb_le_expo (x y : t) :
  expo x <= expo y -> leb x y = (mant x <=? mant y * 2 ^ (expo y - expo x)).
Proof.
  intros H. unfold leb. rewrite Z.min_l by lia.
  rewrite Z.sub_diag. change (2 ^ 0) with 1. rewrite Z.mul_1_r. reflexivity.
Qed.

Lemma leb_ge_expo (x y : t) :
  expo y <= expo x -> leb x y = (mant x * 2 ^ (expo x - expo y) <=? mant y).
Proof.
  intros H. unfold leb. rewrite Z.min_r by lia.
  rewrite Z.sub_diag. change (2 ^ 0) with 1. rewrite Z.mul_1_r. reflexivity.
Qed.

(** [nearest] is monotone in the numerator. *)
Lemma nearest_mono (n1 n2 d : Z) :
  0 < n1 -> n1 <= n2 -> 0 < d -> leb (nearest n1 d) (nearest n2 d) = true.
Proof.
  intros H1 H12 Hd.
  destruct (nearest_scaled n1 d H1 Hd) as (e1 & He1 & W1 & ->).
  destruct (nearest_scaled n2 d ltac:(lia) Hd) as (e2 & He2 & W2 & ->).
  set (s := Z.log2 d + 53) in *.
  assert (Ps : 0 < 2 ^ s) by (apply Z.pow_pos_nonneg; unfold s; pose proof (Z.log2_nonneg d); lia).
  assert (P1 : 0 < 2 ^ (e1 + s)) by (apply Z.pow_pos_nonneg; lia).
  assert (P2 : 0 < 2 ^ (e2 + s)) by (apply Z.pow_pos_nonneg; lia).
  pose proof (roundHalfEven_window _ (d * 2 ^ (e1 + s)) ltac:(nia) W1) as R1.
  pose proof (roundHalfEven_window _ (d * 2 ^ (e2 + s)) ltac:(nia) W2) as R2.
  assert (N12 : n1 * 2 ^ s <= n2 * 2 ^ s) by nia.
  assert (E12 : e1 <= e2).
  { destruct (Z.le_gt_cases e1 e2) as [?|G]; [assumption|]. exfalso.
    assert (K : 2 ^ (e1 + s) = 2 ^ (e1 - e2 - 1) * (2 * 2 ^ (e2 + s))).
    { replace (2 * 2 ^ (e2 + s)) with (2 ^ (e2 + s + 1))
        by (rewrite Z.pow_add_r by lia; ring).
      rewrite <- Z.pow_add_r by lia. f_equal. lia. }
    assert (0 < 2 ^ (e1 - e2 - 1)) by (apply Z.pow_pos_nonneg; lia).
    change (2 ^ 53) with (2 * 2 ^ 52) in W2.
    set (c52 := 2 ^ 52) in *. assert (0 < c52) by reflexivity.
    rewrite K in W1. clearbody c52.
    set (X := 2 ^ (e2 + s)) in *. set (Y := 2 ^ (e1 - e2 - 1)) in *.
    clearbody X Y.
    assert (c52 * (d * (1 * (2 * X))) <= c52 * (d * (Y * (2 * X)))).
    { apply Z.mul_le_mono_nonneg_l; [lia|].
      apply Z.mul_le_mono_nonneg_l; [lia|].
      apply Z.mul_le_mono_nonneg_r; lia. }
    lia. }
  set (m1 := roundHalfEven (n1 * 2 ^ s) (d * 2 ^ (e1 + s))) in *.
  set (m2 := roundHalfEven (n2 * 2 ^ s) (d * 2 ^ (e2 + s))) in *.
  destruct (Z.eq_dec e1 e2) as [Ee|Ne].
  - subst e2.
    assert (M : m1 <= m2) by (apply roundHalfEven_mono; [nia | exact N12]).
    destruct (Z.eqb_spec m1 (2 ^ 53)) as [A1|A1];
      destruct (Z.eqb_spec m2 (2 ^ 53)) as [A2|A2].
    + rewrite leb_le_expo by (cbn [expo]; lia). cbn [mant expo].
      rewrite Z.sub_diag. reflexivity.
    + lia.
    + rewrite leb_le_expo by (cbn [expo]; lia). cbn [mant expo].
      replace (e1 + 1 - e1) with 1 by lia. apply Z.leb_le.
      change (2 ^ 52 * 2 ^ 1) with (2 ^ 53). lia.
    + rewrite leb_le_expo by (cbn [expo]; lia). cbn [mant expo].
      rewrite Z.sub_diag. apply Z.leb_le. change (2 ^ 0) with 1. lia.
  - assert (L : e1 + 1 <= e2) by lia.
    assert (Pw : forall k, 1 <= k -> 2 <= 2 ^ k).
    { intros k Hk. change 2 with (2 ^ 1) at 1. apply Z.pow_le_mono_r; lia. }
    assert (Pw0 : forall k, 0 <= k -> 1 <= 2 ^ k).
    { intros k Hk. change 1 with (2 ^ 0) at 1. apply Z.pow_le_mono_r; lia. }
    change (2 ^ 53) with (2 * 2 ^ 52) in *.
    destruct (Z.eqb_spec m1 (2 * 2 ^ 52)) as [A1|A1];
      destruct (Z.eqb_spec m2 (2 * 2 ^ 52)) as [A2|A2];
      rewrite leb_le_expo by (cbn [expo]; lia); cbn [mant expo]; apply Z.leb_le.
    + pose proof (Pw0 (e2 + 1 - (e1 + 1)) ltac:(lia)). nia.
    + pose proof (Pw0 (e2 - (e1 + 1)) ltac:(lia)). nia.
    + pose proof (Pw (e2 + 1 - e1) ltac:(lia)). nia.
    + pose proof (Pw (e2 - e1) ltac:(lia)). nia.
Qed.

Lemma leb_neg (x y : t) : leb (neg x) (neg y) = leb y x.
Proof.
  unfold leb, neg. cbn [mant expo]. rewrite (Z.min_comm (expo y) (expo x)).
  set (e := Z.min (expo x) (expo y)).
  destruct (mant y * 2 ^ (expo y - e) <=? mant x * 2 ^ (expo x - e)) eqn:E;
    [apply Z.leb_le in E; apply Z.leb_le | apply Z.leb_gt in E; apply Z.leb_gt]; lia.
Qed.

(** Two normal numbers of one value are one number. *)
Lemma normal_unique (x y : t) :
  normal x -> normal y -> leb x y = true -> leb y x = true -> x = y.
Proof.
  assert (Pw : forall k, 1 <= k -> 2 <= 2 ^ k).
  { intros k Hk. change 2 with (2 ^ 1) at 1. apply Z.pow_le_mono_r; lia. }
  assert (Main : forall x y, expo x <= expo y -> normal x -> normal y ->
                   leb x y = true -> leb y x = true -> x = y).
  { clear x y. intros x y He Nx Ny Lxy Lyx.
    rewrite leb_le_expo in Lxy by exact He. rewrite leb_ge_expo in Lyx by exact He.
    apply Z.leb_le in Lxy. apply Z.leb_le in Lyx.
    assert (Em : mant x = mant y * 2 ^ (expo y - expo x)) by lia.
    destruct (Z.eq_dec (expo x) (expo y)) as [Ee|Ne].
    - rewrite Ee, Z.sub_diag in Em. change (2 ^ 0) with 1 in Em.
      destruct x, y. cbn [mant expo] in *. f_equal; lia.
    - exfalso. pose proof (Pw (expo y - expo x) ltac:(lia)) as P.
      set (k := 2 ^ (expo y - expo x)) in *. clearbody k.
      change (2 ^ 53) with (2 * 2 ^ 52) in *. set (c := 2 ^ 52) in *.
      assert (0 < c) by reflexivity. clearbody c.
      destruct Nx as [[Mx Ex]|Nx]; destruct Ny as [[My Ey]|Ny].
      + lia.
      + assert (mant y = 0) by nia. lia.
      + rewrite My in Em. lia.
      + assert (Z.abs (mant x) = Z.abs (mant y) * k)
          by (rewrite Em, Z.abs_mul, (Z.abs_eq k); lia).
        nia. }
  intros Nx Ny Lxy Lyx.
  destruct (Z.le_gt_cases (expo x) (expo y)) as [H|H].
  - apply Main; assumption.
  - symmetry. apply Main; try assumption. lia.
Qed.

Lemma ofDec_normal (a : Dec.t) : normal (ofDec a).
Proof.
  unfold ofDec. pose proof DecFacts.precisionMultiplier_val as P.
  destruct (Dec.int a =? 0) eqn:E0; [left; split; reflexivity|].
  apply Z.eqb_neq in E0. right.
  destruct (0 <? Dec.int a) eqn:E1.
  - apply Z.ltb_lt in E1.
    pose proof (nearest_normal (Dec.int a) Dec.precisionMultiplier E1 ltac:(lia)).
    lia.
  - apply Z.ltb_ge in E1.
    pose proof (nearest_normal (- Dec.int a) Dec.precisionMultiplier ltac:(lia) ltac:(lia)).
    unfold neg. cbn [mant]. lia.
Qed.

Lemma leb_signs (x y : t) : mant x <= 0 -> 0 <= mant y -> leb x y = true.
Proof.
  intros Hx Hy. unfold leb. apply Z.leb_le.
  set (e := Z.min (expo x) (expo y)).
  assert (0 <= 2 ^ (expo x - e)) by (apply Z.pow_nonneg; lia).
  assert (0 <= 2 ^ (expo y - e)) by (apply Z.pow_nonneg; lia).
  nia.
Qed.

(** [Number(d.toString())] is monotone. *)
Lemma ofDec_mono (a b : Dec.t) :
  Dec.int a <= Dec.int b -> leb (ofDec a) (ofDec b) = true.
Proof.
  intros H. unfold ofDec. pose proof DecFacts.precisionMultiplier_val as P.
  destruct (Z.eqb_spec (Dec.int a) 0) as [A0|A0];
    destruct (Z.eqb_spec (Dec.int b) 0) as [B0|B0].
  - reflexivity.
  - replace (0 <? Dec.int b) with true by (symmetry; apply Z.ltb_lt; lia).
    pose proof (nearest_normal (Dec.int b) Dec.precisionMultiplier ltac:(lia) ltac:(lia)).
    apply leb_signs; cbn [mant zero]; lia.
  - replace (0 <? Dec.int a) with false by (symmetry; apply Z.ltb_ge; lia).
    pose proof (nearest_normal (- Dec.int a) Dec.precisionMultiplier ltac:(lia) ltac:(lia)).
    apply leb_signs; cbn [mant zero neg]; lia.
  - destruct (0 <? Dec.int a) eqn:A1; destruct (0 <? Dec.int b) eqn:B1;
      try (apply Z.ltb_lt in A1); try (apply Z.ltb_ge in A1);
      try (apply Z.ltb_lt in B1); try (apply Z.ltb_ge in B1).
    + apply nearest_mono; lia.
    + lia.
    + pose proof (nearest_normal (- Dec.int a) Dec.precisionMultiplier ltac:(lia) ltac:(lia)).
      pose proof (nearest_normal (Dec.int b) Dec.precisionMultiplier ltac:(lia) ltac:(lia)).
      apply leb_signs; cbn [mant neg]; lia.
    + rewrite leb_neg. apply nearest_mono; lia.
Qed.

(** [Math.min] of two decimals read as numbers is the lesser decimal read
    as a number. *)
Lemma min_ofDec (a b : Dec.t) :
  JSNumber.min (ofDec a) (ofDec b) = ofDec (Dec.mk (Z.min (Dec.int a) (Dec.int b))).
Proof.
  unfold JSNumber.min.
  destruct (Z.le_gt_cases (Dec.int a) (Dec.int b)) as [H|H].
  - rewrite (ofDec_mono a b H), Z.min_l by exact H. destruct a; reflexivity.
  - rewrite Z.min_r by lia.
    replace (Dec.mk (Dec.int b)) with b by (destruct b; reflexivity).
    destruct (leb (ofDec a) (ofDec b)) eqn:L; [|reflexivity].
    apply normal_unique; auto using ofDec_normal. apply ofDec_mono. lia.
Qed.

End NumberFacts.

(** ** The status of a position *)

Section StatusFacts.
Import Dec DecFacts.

Lemma quot_abs_le (a b : Z) : b <> 0 -> Z.abs (Z.quot a b) <= Z.abs a.
Proof.
  intros Hb. rewrite <- Z.quot_abs by exact Hb.
  rewrite Z.quot_div_nonneg by lia.
  apply Z.div_le_upper_bound; [lia|]. nia.
Qed.

Lemma quot_abs_bound (a b k : Z) :
  b <> 0 -> 0 <= k -> Z.abs a <= k * Z.abs b -> Z.abs (Z.quot a b) <= k.
Proof.
  intros Hb Hk H. rewrite <- Z.quot_abs by exact Hb.
  rewrite Z.quot_div_nonneg by lia.
  apply Z.div_le_upper_bound; [lia|]. lia.
Qed.

(** [diff] is the lesser of the two distances, read as a number and made a
    decimal again. *)
Lemma nearerDistance_ok (i : PositionStatusInput) :
  Z.abs (int (lowerPrice i)) <= priceBound ->
  Z.abs (int (upperPrice i)) <= priceBound ->
  Z.abs (int (currentPrice i)) <= priceBound ->
  let nearer := Z.min (int (currentPrice i) - int (lowerPrice i))
                      (int (upperPrice i) - int (currentPrice i)) in
  exists diff,
    Dec_ofNumber (JSNumber.ofDec (mk nearer)) = Ok diff
    /\ nearerDistance i = Ok diff
    /\ Z.abs (int diff) <= 4 * Z.abs nearer.
Proof.
  intros Hl Hu Hc nearer. unfold nearerDistance, sub.
  assert (M : 8 * priceBound <= maxDec) by (vm_compute; discriminate).
  rewrite !make_ok by lia. cbn [bind].
  rewrite NumberFacts.min_ofDec. cbn [int]. fold nearer.
  destruct (NumberFacts.Dec_ofNumber_int (JSNumber.ofDec (mk nearer))) as [E _].
  cbv zeta in E. rewrite E.
  pose proof (NumberFacts.Dec_ofNumber_ofDec_bound (mk nearer) _ eq_refl) as Bd.
  cbn [int] in Bd.
  rewrite make_ok by (unfold nearer in *; lia).
  eexists. split; [reflexivity|]. split; [reflexivity|]. cbn [int]. exact Bd.
Qed.

(** The rounded quotient against a threshold [t]: below [t + 1/2] it is at
    most [t], and it is at most [t] only up to [t + 1/2]. *)
Lemma chop_quot_threshold (d w t : Z) :
  0 < w -> 0 <= t ->
  let q := chopPrecisionAndRound (Z.quot (d * precisionMultiplier * precisionMultiplier) w) in
  (2 * d * precisionMultiplier * precisionMultiplier
   < (2 * t * precisionMultiplier + precisionMultiplier) * w -> q <= t)
  /\ (q <= t ->
      2 * d * precisionMultiplier * precisionMultiplier
      < (2 * t * precisionMultiplier + precisionMultiplier + 2) * w).
Proof.
  intros Hw Ht q.
  pose proof (chop_bounds (Z.quot (d * precisionMultiplier * precisionMultiplier) w)) as C.
  fold q in C.
  set (D := d * precisionMultiplier * precisionMultiplier) in *.
  replace (2 * d * precisionMultiplier * precisionMultiplier) with (2 * D) by (unfold D; ring).
  set (y := Z.quot D w) in *.
  rewrite precisionMultiplier_val in *.
  destruct (Z.le_gt_cases 0 D) as [Dpos|Dneg].
  - assert (Y : y * w <= D < (y + 1) * w).
    { unfold y. rewrite Z.quot_div_nonneg by lia.
      pose proof (Z.div_mod D w ltac:(lia)). pose proof (Z.mod_pos_bound D w Hw). nia. }
    split; intros H; nia.
  - assert (Y : y <= 0).
    { unfold y. replace D with (- (- D)) by ring.
      rewrite Z.quot_opp_l by lia.
      pose proof (Z.quot_pos (- D) w ltac:(lia) Hw). lia. }
    split; intros H; nia.
Qed.

(** The percentage: 0 when the current price or the width is zero;
    otherwise 100 times the rounded quotient of [diff] by the width when
    that is in range, and an exception when it is not. *)
Lemma diffPercentage_cases (i : PositionStatusInput) (diff : t) :
  Z.abs (int (lowerPrice i)) <= priceBound ->
  Z.abs (int (upperPrice i)) <= priceBound ->
  nearerDistance i = Ok diff ->
  let width := int (upperPrice i) - int (lowerPrice i) in
  let ratio :=
    chopPrecisionAndRound (Z.quot (int diff * precisionMultiplier * precisionMultiplier) width) in
  (int (currentPrice i) = 0 \/ width = 0 -> diffPercentage i = Ok (lit 0))
  /\ (int (currentPrice i) <> 0 -> width <> 0 ->
      (Z.abs ratio * 10 ^ 20 <= maxDec -> diffPercentage i = Ok (mk (ratio * 100)))
      /\ (maxDec < Z.abs ratio * 10 ^ 20 ->
          diffPercentage i = Throw IntegerOutOfRange)).
Proof.
  intros Hl Hu Hd width ratio.
  assert (M : 2 * priceBound <= maxDec) by (vm_compute; discriminate).
  unfold diffPercentage. rewrite Hd. cbn [bind]. unfold sub.
  rewrite make_ok by lia. cbn [bind]. unfold isZero. cbn [int]. fold width.
  split.
  - intros [E|E].
    + rewrite E. reflexivity.
    + rewrite E. rewrite orb_true_r. reflexivity.
  - intros Ec Ew.
    replace (int (currentPrice i) =? 0) with false by (symmetry; apply Z.eqb_neq; exact Ec).
    replace (width =? 0) with false by (symmetry; apply Z.eqb_neq; exact Ew).
    cbn [orb].
    pose proof (chop_bounds
                  (Z.quot (int diff * precisionMultiplier * precisionMultiplier) width)) as C.
    fold ratio in C.
    set (Q := Z.quot (int diff * precisionMultiplier * precisionMultiplier) width) in *.
    assert (M18 : 10 ^ 18 <= maxDec) by (vm_compute; discriminate).
    split; intros H.
    + pose proof (quo_ok diff (mk width)) as K. cbn [int] in K. fold Q ratio in K.
      rewrite K; [|exact Ew|rewrite precisionMultiplier_val in C; lia].
      cbn [bind]. unfold lit. rewrite mul_integral; [reflexivity|].
      cbn [int]. rewrite precisionMultiplier_val, Z.abs_mul.
      change (Z.abs (100 * 1000000000000000000)) with (10 ^ 20). exact H.
    + destruct (Z.le_gt_cases (Z.abs Q) maxDec) as [L|G].
      * pose proof (quo_ok diff (mk width)) as K. cbn [int] in K. fold Q ratio in K.
        rewrite K by assumption. cbn [bind]. apply mul_throws.
        unfold lit. cbn [int]. rewrite precisionMultiplier_val, Z.abs_mul.
        change (Z.abs (100 * 1000000000000000000)) with (10 ^ 20). exact H.
      * pose proof (quo_throws diff (mk width)) as K. cbn [int] in K. fold Q in K.
        rewrite K by assumption. reflexivity.
Qed.

End StatusFacts.

(** C1, as stated, fails: the distance to the nearer bound goes through a
    double-precision number before it is compared.  With the bounds 1 and 2
    and the current price [1.150000000000000001], the nearer distance
    [0.150000000000000001] is more than 15% of the width, yet it reads as
    the number [0.15] and the status is [nearBounds]. *)
Lemma getPositionStatus_double_rounding :
  let i := mkPositionStatusInput (Dec.lit 1) (Dec.lit 2)
             (Dec.mk 1150000000000000001) false false false false in
  getPositionStatus i = Ok nearBounds
  /\ Dec.lt (lowerPrice i) (currentPrice i) = true
  /\ Dec.gt (upperPrice i) (currentPrice i) = true
  /\ Z.min (Dec.int (currentPrice i) - Dec.int (lowerPrice i))
           (Dec.int (upperPrice i) - Dec.int (currentPrice i))
     = 150000000000000001
  /\ ~ (100 * 150000000000000001
        <= 15 * (Dec.int (upperPrice i) - Dec.int (lowerPrice i))).
Proof.
  repeat split; try (vm_compute; reflexivity). vm_compute. intros H. apply H. reflexivity.
Qed.

(** C1, amended.  Take prices up to [10^56] in absolute value.  [diff] is
    the distance from [currentPrice] to the nearer bound, the lesser of
    [currentPrice - lowerPrice] and [upperPrice - currentPrice], after its
    passage through a double ([Number], [Math.min], [new Dec]), and [ratio]
    is the quotient of [diff] by the width [upperPrice - lowerPrice], rounded
    to 18 decimals.  The percentage is 0 when [currentPrice] or the width is
    zero, and [100 * ratio] otherwise.  Unless [currentPrice] or the width is
    zero, [getPositionStatus] throws when [|ratio| * 100] leaves the range of
    a decimal, whatever the flags; this does not happen when
    [lowerPrice < currentPrice < upperPrice].  Otherwise it returns, by fixed
    precedence, [fullRange] when [isFullRange], else [unbonding] when
    [isUnbonding], else [superfluidStaked] when [isSuperfluid], else
    [superfluidUnstaking] when [isSuperfluidUnstaking]; otherwise, when
    [lowerPrice < currentPrice < upperPrice], [nearBounds] if the percentage
    is at most 15 and [inRange] if not; and [outOfRange] in the remaining
    cases.  With a current price that is not zero and a positive width, the
    percentage is at most 15 when [diff / width < 0.15 + 0.5 * 10^-18], and
    only when [diff / width < 0.15 + 0.5 * 10^-18 + 10^-36]. *)
Theorem getPositionStatus_correct (i : PositionStatusInput) :
  Z.abs (Dec.int (lowerPrice i)) <= 10 ^ 74 ->
  Z.abs (Dec.int (upperPrice i)) <= 10 ^ 74 ->
  Z.abs (Dec.int (currentPrice i)) <= 10 ^ 74 ->
  let l := Dec.int (lowerPrice i) in
  let u := Dec.int (upperPrice i) in
  let c := Dec.int (currentPrice i) in
  let width := u - l in
  exists diff,
    Dec_ofNumber (JSNumber.ofDec (Dec.mk (Z.min (c - l) (u - c)))) = Ok diff
    /\ nearerDistance i = Ok diff
    /\ let ratio := Dec.chopPrecisionAndRound (Z.quot (Dec.int diff * 10 ^ 36) width) in
       let pct := if (c =? 0) || (width =? 0) then 0 else 100 * ratio in
       let fits :=
         (c =? 0) || (width =? 0) || (Z.abs ratio * 10 ^ 20 <=? Dec.maxDec) in
       (fits = true ->
        diffPercentage i = Ok (Dec.mk pct)
        /\ getPositionStatus i
           = Ok (if isFullRange i then fullRange
                 else if isUnbonding i then unbonding
                 else if isSuperfluid i then superfluidStaked
                 else if isSuperfluidUnstaking i then superfluidUnstaking
                 else if (l <? c) && (c <? u)
                      then (if pct <=? 15 * 10 ^ 18 then nearBounds else inRange)
                 else outOfRange))
       /\ (fits = false -> getPositionStatus i = Throw IntegerOutOfRange)
       /\ (l < c -> c < u -> fits = true)
       /\ (c <> 0 -> 0 < width ->
           (10 ^ 36 * Dec.int diff < (15 * 10 ^ 34 + 5 * 10 ^ 17) * width ->
            pct <= 15 * 10 ^ 18)
           /\ (pct <= 15 * 10 ^ 18 ->
               10 ^ 36 * Dec.int diff < (15 * 10 ^ 34 + 5 * 10 ^ 17 + 1) * width)).
Proof.
  intros Hl Hu Hc l u c width.
  destruct (nearerDistance_ok i Hl Hu Hc) as (diff & Hn & Hd & Bd).
  cbv zeta in Hn, Bd. fold l u c in Hn, Bd.
  exists diff. split; [exact Hn|]. split; [exact Hd|].
  destruct (diffPercentage_cases i diff Hl Hu Hd) as (Hz & Hnz).
  cbv zeta in Hnz. fold l u c width in Hz, Hnz.
  rewrite DecFacts.precisionMultiplier_val in Hnz.
  replace (Dec.int diff * 1000000000000000000 * 1000000000000000000)
    with (Dec.int diff * 10 ^ 36) in Hnz by (change (10 ^ 36) with (1000000000000000000 * 1000000000000000000); ring).
  set (ratio := Dec.chopPrecisionAndRound (Z.quot (Dec.int diff * 10 ^ 36) width)) in *.
  cbv zeta.
  assert (Status : forall pct,
             diffPercentage i = Ok (Dec.mk pct) ->
             getPositionStatus i
             = Ok (if isFullRange i then fullRange
                   else if isUnbonding i then unbonding
                   else if isSuperfluid i then superfluidStaked
                   else if isSuperfluidUnstaking i then superfluidUnstaking
                   else if (l <? c) && (c <? u)
                        then (if pct <=? 15 * 10 ^ 18 then nearBounds else inRange)
                   else outOfRange)).
  { intros pct Hp. unfold getPositionStatus. rewrite Hp. cbn [bind].
    unfold Dec.lt, Dec.gt, Dec.lte, Dec.lit. cbn [Dec.int].
    rewrite DecFacts.precisionMultiplier_val. reflexivity. }
  split; [|split; [|split]].
  - intros F.
    destruct (Z.eqb_spec c 0) as [Ec|Ec]; cbn [orb] in *.
    { assert (P : diffPercentage i = Ok (Dec.mk 0)) by (apply Hz; now left).
      split; [exact P | apply Status, P]. }
    destruct (Z.eqb_spec width 0) as [Ew|Ew]; cbn [orb] in *.
    { assert (P : diffPercentage i = Ok (Dec.mk 0)) by (apply Hz; now right).
      split; [exact P | apply Status, P]. }
    apply Z.leb_le in F. destruct (Hnz Ec Ew) as [K _].
    assert (P : diffPercentage i = Ok (Dec.mk (100 * ratio)))
      by (rewrite (Z.mul_comm 100 ratio); apply K, F).
    split; [exact P | apply Status, P].
  - intros F.
    destruct (Z.eqb_spec c 0) as [Ec|Ec]; cbn [orb] in F; [discriminate|].
    destruct (Z.eqb_spec width 0) as [Ew|Ew]; cbn [orb] in F; [discriminate|].
    apply Z.leb_gt in F. destruct (Hnz Ec Ew) as [_ K].
    unfold getPositionStatus. rewrite (K F). reflexivity.
  - intros Hlc Hcu.
    destruct (Z.eqb_spec c 0) as [Ec|Ec]; cbn [orb]; [reflexivity|].
    destruct (Z.eqb_spec width 0) as [Ew|Ew]; cbn [orb]; [reflexivity|].
    apply Z.leb_le.
    assert (Q : Z.abs (Z.quot (Dec.int diff * 10 ^ 36) width) <= 2 * 10 ^ 36).
    { apply quot_abs_bound; [exact Ew | lia|].
      rewrite Z.abs_mul. change (Z.abs (10 ^ 36)) with (10 ^ 36).
      unfold width in *. lia. }
    pose proof (DecFacts.chop_abs_le (Z.quot (Dec.int diff * 10 ^ 36) width)) as A.
    fold ratio in A.
    assert (2 * 10 ^ 36 * 10 ^ 20 <= Dec.maxDec) by (vm_compute; discriminate).
    lia.
  - intros Ec Hw.
    replace (c =? 0) with false by (symmetry; apply Z.eqb_neq; exact Ec).
    replace (width =? 0) with false by (symmetry; apply Z.eqb_neq; lia).
    cbn [orb].
    pose proof (chop_quot_threshold (Dec.int diff) width (15 * 10 ^ 16) Hw ltac:(lia))
      as [T1 T2].
    cbv zeta in T1, T2. rewrite DecFacts.precisionMultiplier_val in *.
    replace (Dec.int diff * 1000000000000000000 * 1000000000000000000)
      with (Dec.int diff * 10 ^ 36) in T1, T2
      by (change (10 ^ 36) with (1000000000000000000 * 1000000000000000000); ring).
    fold ratio in T1, T2.
    split; intros H.
    + assert (ratio <= 15 * 10 ^ 16) by (apply T1; lia). lia.
    + assert (2 * Dec.int diff * 1000000000000000000 * 1000000000000000000
              < (2 * (15 * 10 ^ 16) * 1000000000000000000 + 1000000000000000000 + 2)
                * width) by (apply T2; lia).
      lia.
Qed.

Lemma getPositionStatus_correct_witness :
  let i := mkPositionStatusInput (Dec.lit 1) (Dec.lit 2)
             (Dec.mk 1400000000000000000) false false false false in
  exists diff,
    nearerDistance i = Ok diff
    /\ Dec.int diff = 400000000000000000
    /\ diffPercentage i = Ok (Dec.mk (40 * 10 ^ 18))
    /\ getPositionStatus i = Ok inRange.
Proof.
  intros i.
  destruct (getPositionStatus_correct i) as (diff & Hn & Hd & Hfit & _ & Hin & _).
  - vm_compute. discriminate.
  - vm_compute. discriminate.
  - vm_compute. discriminate.
  - exists diff. split; [exact Hd|].
    assert (Ed : diff = Dec.mk 400000000000000000).
    { assert (X : nearerDistance i = Ok (Dec.mk 400000000000000000))
        by (vm_compute; reflexivity).
      congruence. }
    subst diff. split; [reflexivity|].
    destruct Hfit as [Hp Hs].
    + apply Hin; vm_compute; reflexivity.
    + split; [exact Hp | exact Hs].
Defined.

(** ** The helpers are pure *)

Module HeapFacts.
Import HeapSpec.

Section World.
Context {G : Type}.

Lemma extends_refl (w : Heap.world G) : extends w w.
Proof. split; [exists []; now rewrite app_nil_r | reflexivity]. Qed.

Lemma extends_trans (w1 w2 w3 : Heap.world G) :
  extends w1 w2 -> extends w2 w3 -> extends w1 w3.
Proof.
  intros [[n1 E1] M1] [[n2 E2] M2]. split; [|congruence].
  exists (n1 ++ n2). rewrite E2, E1, app_assoc. reflexivity.
Qed.

Lemma extends_deref (w w' : Heap.world G) (r : Heap.ref) (v : Z) :
  extends w w' -> Heap.deref w r = Some v -> Heap.deref w' r = Some v.
Proof.
  intros [[new E] _] D. unfold Heap.deref in *. rewrite E.
  rewrite nth_error_app1; [exact D|]. apply nth_error_Some. congruence.
Qed.


Lemma sim_bind {A A' B B' : Type} (m : Heap.JS G A) (k : A -> Heap.JS G A')
    (p : result B) (kp : B -> result B') (w : Heap.world G)
    (R : B -> A -> Heap.world G -> Prop) (R' : B' -> A' -> Heap.world G -> Prop) :
  sim m w p R ->
  (forall b a w', extends w w' -> (tableOk w -> tableOk w') -> R b a w' ->
                  sim (k a) w' (kp b) R') ->
  sim (Heap.bindJS m k) w (bind p kp) R'.
Proof.
  unfold sim, Heap.bindJS. destruct p as [b|e]; simpl.
  - intros (a & w' & E & X & T & HR) K. rewrite E.
    specialize (K b a w' X T HR). destruct (kp b) as [b'|e'].
    + destruct K as (a' & w'' & E' & X' & T' & HR').
      exists a', w''. split; [exact E'|]. split; [eapply extends_trans; eauto|].
      split; [auto | exact HR'].
    + exact K.
  - intros E _. rewrite E. reflexivity.
Qed.

(** A step of the computation that the pure function does not make. *)
Lemma sim_step {A A' B B' : Type} (m : Heap.JS G A) (k : A -> Heap.JS G A')
    (b : B) (p' : result B') (w : Heap.world G)
    (R : B -> A -> Heap.world G -> Prop) (R' : B' -> A' -> Heap.world G -> Prop) :
  sim m w (Ok b) R ->
  (forall a w', extends w w' -> (tableOk w -> tableOk w') -> R b a w' ->
                sim (k a) w' p' R') ->
  sim (Heap.bindJS m k) w p' R'.
Proof.
  unfold sim, Heap.bindJS.
  intros (a & w' & E & X & T & HR) K. rewrite E.
  specialize (K a w' X T HR). destruct p' as [b'|e'].
  - destruct K as (a' & w'' & E' & X' & T' & HR').
    exists a', w''. split; [exact E'|]. split; [eapply extends_trans; eauto|].
    split; [auto | exact HR'].
  - exact K.
Qed.

Lemma sim_ret {A B : Type} (a : A) (b : B) (w : Heap.world G)
    (R : B -> A -> Heap.world G -> Prop) :
  R b a w -> sim (Heap.ret a) w (Ok b) R.
Proof.
  intros HR. exists a, w. split; [reflexivity|]. split; [apply extends_refl|]. auto.
Qed.

Lemma tableOk_alloc (w : Heap.world G) (v : Z) :
  tableOk w ->
  tableOk (Heap.mkWorld (Heap.objects w ++ [v]) (Heap.tenExponentNs w) (Heap.moduleState w)).
Proof.
  intros T n r I. destruct (T n r I) as (d & Hd & D).
  exists d. split; [exact Hd|]. unfold Heap.deref in *. simpl.
  rewrite nth_error_app1; [exact D|]. apply nth_error_Some. congruence.
Qed.


Lemma sim_alloc (d : Dec.t) (w : Heap.world G) :
  sim (Heap.alloc (Dec.int d)) w (Ok d) holds.
Proof.
  eexists. eexists. split; [reflexivity|]. split; [|split].
  - split; [eexists; reflexivity | reflexivity].
  - apply tableOk_alloc.
  - unfold holds, Heap.deref. simpl.
    rewrite nth_error_app2, Nat.sub_diag by lia. reflexivity.
Qed.

Lemma sim_read (r : Heap.ref) (v : Z) (w : Heap.world G) :
  Heap.deref w r = Some v -> sim (Heap.read r) w (Ok v) same.
Proof.
  intros D. exists v, w. unfold Heap.read. rewrite D.
  split; [reflexivity|]. split; [apply extends_refl|]. split; [auto | reflexivity].
Qed.

Lemma mk_int (d : Dec.t) : Dec.mk (Dec.int d) = d.
Proof. destruct d. reflexivity. Qed.

Lemma sim_method2 (f : Dec.t -> Dec.t -> result Dec.t) (a b : Heap.ref) (x y : Dec.t)
    (w : Heap.world G) :
  Heap.deref w a = Some (Dec.int x) -> Heap.deref w b = Some (Dec.int y) ->
  sim (Heap.method2 f a b) w (f x y) holds.
Proof.
  intros Da Db. unfold sim, Heap.method2, Heap.bindJS, Heap.read, Heap.lift.
  rewrite Da, Db, !mk_int. destruct (f x y) as [d|e]; [|reflexivity].
  apply (sim_alloc d w).
Qed.

Lemma sim_test2 (f : Dec.t -> Dec.t -> bool) (a b : Heap.ref) (x y : Dec.t)
    (w : Heap.world G) :
  Heap.deref w a = Some (Dec.int x) -> Heap.deref w b = Some (Dec.int y) ->
  sim (Heap.test2 f a b) w (Ok (f x y)) same.
Proof.
  intros Da Db. unfold sim, Heap.test2, Heap.bindJS, Heap.read, Heap.ret.
  rewrite Da, Db, !mk_int. eexists. eexists. split; [reflexivity|].
  split; [apply extends_refl|]. split; [auto | reflexivity].
Qed.

Lemma sim_isZero (a : Heap.ref) (x : Dec.t) (w : Heap.world G) :
  Heap.deref w a = Some (Dec.int x) ->
  sim (Heap.Dec_isZero a) w (Ok (Dec.isZero x)) same.
Proof.
  intros Da. unfold sim, Heap.Dec_isZero, Heap.bindJS, Heap.read, Heap.ret.
  rewrite Da, mk_int. eexists. eexists. split; [reflexivity|].
  split; [apply extends_refl|]. split; [auto | reflexivity].
Qed.

Lemma sim_toNumber (a : Heap.ref) (x : Dec.t) (w : Heap.world G) :
  Heap.deref w a = Some (Dec.int x) ->
  sim (Heap.Dec_toNumber a) w (Ok (JSNumber.ofDec x)) same.
Proof.
  intros Da. unfold sim, Heap.Dec_toNumber, Heap.bindJS, Heap.read, Heap.ret.
  rewrite Da, mk_int. eexists. eexists. split; [reflexivity|].
  split; [apply extends_refl|]. split; [auto | reflexivity].
Qed.

Lemma sim_ofNumber (x : JSNumber.t) (w : Heap.world G) :
  sim (Heap.Dec_ofNumber x) w (Dec_ofNumber x) holds.
Proof.
  unfold sim, Heap.Dec_ofNumber, Heap.bindJS, Heap.lift.
  destruct (Dec_ofNumber x) as [d|e]; [|reflexivity]. apply (sim_alloc d w).
Qed.

Lemma sim_new (n : Z) (w : Heap.world G) :
  sim (Heap.Dec_new n) w (Ok (Dec.lit n)) holds.
Proof. apply (sim_alloc (Dec.lit n) w). Qed.


(** The pure function, step by step. *)
Lemma getPositionStatus_steps (i : PositionStatusInput) :
  getPositionStatus i
  = (a <- Dec.sub (currentPrice i) (lowerPrice i) ;;
     b <- Dec.sub (upperPrice i) (currentPrice i) ;;
     diff <- Dec_ofNumber (JSNumber.min (JSNumber.ofDec a) (JSNumber.ofDec b)) ;;
     rangeDiff <- Dec.sub (upperPrice i) (lowerPrice i) ;;
     pct <- (if Dec.isZero (currentPrice i) || Dec.isZero rangeDiff
             then Ok (Dec.lit 0)
             else q <- Dec.quo diff rangeDiff ;; Dec.mul q (Dec.lit 100)) ;;
     Ok (statusOf i pct)).
Proof.
  unfold getPositionStatus, diffPercentage, nearerDistance, statusOf.
  destruct (Dec.sub (currentPrice i) (lowerPrice i)); [|reflexivity]. cbn [bind].
  destruct (Dec.sub (upperPrice i) (currentPrice i)); [|reflexivity]. cbn [bind].
  destruct (Dec_ofNumber _); [|reflexivity]. cbn [bind].
  destruct (Dec.sub (upperPrice i) (lowerPrice i)); reflexivity.
Qed.

Ltac transport X :=
  repeat match goal with
         | H : Heap.deref ?w ?r = Some ?v |- _ =>
             match type of X with
             | extends w ?w' =>
                 lazymatch goal with
                 | _ : Heap.deref w' r = Some v |- _ => fail
                 | _ => pose proof (extends_deref w w' r v X H)
                 end
             end
         end.

(** A step that both sides make, and a step of the computation alone. *)
Tactic Notation "both" constr(lem) "as" ident(b) ident(a) ident(w) :=
  eapply sim_bind; [eapply lem; eassumption|];
  let X := fresh "X" in
  let HR := fresh "HR" in
  intros b a w X _ HR; unfold same, holds in HR; transport X.

Tactic Notation "alone" constr(lem) "as" ident(a) ident(w) :=
  eapply sim_step; [eapply lem; eassumption|];
  let X := fresh "X" in
  let HR := fresh "HR" in
  intros a w X _ HR; unfold same, holds in HR; transport X.

Lemma getPositionStatus_sim (w : Heap.world G) (l u c : Heap.ref) (vl vu vc : Dec.t)
    (full superfluid unstaking unbond : bool) :
  Heap.deref w l = Some (Dec.int vl) ->
  Heap.deref w u = Some (Dec.int vu) ->
  Heap.deref w c = Some (Dec.int vc) ->
  sim (Heap.getPositionStatus l u c full superfluid unstaking unbond) w
      (getPositionStatus
         (mkPositionStatusInput vl vu vc full superfluid unstaking unbond))
      same.
Proof.
  intros Hl Hu Hc. rewrite getPositionStatus_steps.
  cbn [lowerPrice upperPrice currentPrice]. unfold Heap.getPositionStatus.
  alone sim_test2 as below w1. subst below.
  eapply sim_step with (b := Dec.lt vl vc && Dec.gt vu vc) (R := same).
  { destruct (Dec.lt vl vc); [eapply sim_test2; eassumption | apply sim_ret; reflexivity]. }
  intros inRange_ w2 X2 _ HR2. unfold same in HR2. subst inRange_. transport X2.
  both sim_method2 as a ra w3.
  alone sim_toNumber as na w4. subst na.
  both sim_method2 as b rb w5.
  alone sim_toNumber as nb w6. subst nb.
  both sim_ofNumber as diff rdiff w7.
  both sim_method2 as rangeDiff rrange w8.
  alone sim_isZero as currentIsZero w9. subst currentIsZero.
  eapply sim_step with (b := Dec.isZero vc || Dec.isZero rangeDiff) (R := same).
  { destruct (Dec.isZero vc); [apply sim_ret; reflexivity | eapply sim_isZero; eassumption]. }
  intros noRange w10 X10 _ HR10. unfold same in HR10. subst noRange. transport X10.
  eapply sim_bind with (R := holds).
  { destruct (Dec.isZero vc || Dec.isZero rangeDiff).
    - apply sim_new.
    - both sim_method2 as q rq w11.
      eapply sim_step; [apply sim_new|].
      intros hundred w12 X12 _ HR12. unfold holds in HR12. transport X12.
      eapply sim_method2; eassumption. }
  intros pct rpct w13 X13 _ HR13. unfold holds in HR13. transport X13.
  unfold statusOf.
  cbn [isFullRange isUnbonding isSuperfluid isSuperfluidUnstaking
       lowerPrice upperPrice currentPrice].
  destruct full; [apply sim_ret; reflexivity|].
  destruct unbond; [apply sim_ret; reflexivity|].
  destruct superfluid; [apply sim_ret; reflexivity|].
  destruct unstaking; [apply sim_ret; reflexivity|].
  destruct (Dec.lt vl vc && Dec.gt vu vc); [|apply sim_ret; reflexivity].
  eapply sim_step; [apply sim_new|].
  intros fifteen w14 X14 _ HR14. unfold holds in HR14. transport X14.
  alone sim_test2 as near w15. subst near. apply sim_ret. reflexivity.
Qed.

Lemma lookup_In (table : list (Z * Heap.ref)) (n : Z) (r : Heap.ref) :
  Heap.lookup table n = Some r -> In (n, r) table.
Proof.
  unfold Heap.lookup. destruct (find _ table) as [[n' r']|] eqn:F; [|discriminate].
  intros [= <-]. apply find_some in F. destruct F as [I E].
  simpl in E. apply Z.eqb_eq in E. subst. exact I.
Qed.

(** The table answers as the computation of the power would. *)
Lemma getTenExponentN_sim (n : Z) (w : Heap.world G) :
  tableOk w -> sim (Heap.getTenExponentN n) w (DecUtils.getTenExponentN n) holds.
Proof.
  intros T. unfold sim, Heap.getTenExponentN.
  destruct (DecUtils.getTenExponentN n) as [d|e] eqn:P;
    unfold DecUtils.getTenExponentN in P;
    destruct (n <? - Dec.precision) eqn:E; try discriminate.
  - destruct (Heap.lookup (Heap.tenExponentNs w) n) as [r|] eqn:L.
    + apply lookup_In in L. destruct (T n r L) as (d' & Hd & D).
      unfold DecUtils.getTenExponentN in Hd. rewrite E, P in Hd.
      injection Hd as <-.
      exists r, w. split; [reflexivity|]. split; [apply extends_refl|].
      split; [auto | exact D].
    + rewrite P. eexists. eexists. split; [reflexivity|]. split; [|split].
      * split; [eexists; reflexivity | reflexivity].
      * intros _ n' r' [[= <- <-] | I].
        -- exists d. split.
           ++ unfold DecUtils.getTenExponentN. rewrite E. exact P.
           ++ unfold Heap.deref. cbn [Heap.objects].
              rewrite nth_error_app2, Nat.sub_diag by lia. reflexivity.
        -- destruct (T n' r' I) as (d' & Hd & D). exists d'. split; [exact Hd|].
           unfold Heap.deref in *. cbn [Heap.objects].
           rewrite nth_error_app1; [exact D|].
           apply nth_error_Some. congruence.
      * unfold holds, Heap.deref. simpl.
        rewrite nth_error_app2, Nat.sub_diag by lia. reflexivity.
  - congruence.
  - destruct (Heap.lookup (Heap.tenExponentNs w) n) as [r|] eqn:L.
    + apply lookup_In in L. destruct (T n r L) as (d' & Hd & D).
      unfold DecUtils.getTenExponentN in Hd. rewrite E, P in Hd. discriminate.
    + rewrite P. reflexivity.
Qed.

Lemma getPriceFromSqrtPrice_sim (w : Heap.world G) (s : Heap.ref) (vs : Dec.t)
    (baseAsset quoteAsset : CoinPretty) :
  tableOk w -> Heap.deref w s = Some (Dec.int vs) ->
  sim (Heap.getPriceFromSqrtPrice s baseAsset quoteAsset) w
      (getPriceFromSqrtPrice vs baseAsset quoteAsset) holds.
Proof.
  intros T Hs. unfold Heap.getPriceFromSqrtPrice, getPriceFromSqrtPrice.
  both getTenExponentN_sim as m rm w1.
  both sim_method2 as square rsquare w2.
  eapply sim_method2; eassumption.
Qed.


Lemma int_mk_int (v : Int.t) : Int.mk (Int.int v) = v.
Proof. destruct v. reflexivity. Qed.

Lemma isPositionFullRange_run {math : TickMath} (w : Heap.world G)
    (l u : option Heap.ref) (vl vu : option Int.t) :
  tickAt w l vl -> tickAt w u vu ->
  Heap.isPositionFullRange l u w = Ok (isPositionFullRange vl vu, w).
Proof.
  unfold tickAt, Heap.isPositionFullRange, isPositionFullRange,
    Heap.bindJS, Heap.read, Heap.ret.
  destruct l as [l|], vl as [vl|]; try tauto.
  intros -> Hu. rewrite int_mk_int.
  destruct (Int.equals vl minTick); cbn [andb];
    [|destruct u, vu; try tauto; reflexivity].
  destruct u as [u|], vu as [vu|]; try tauto.
  cbv beta. rewrite Hu, int_mk_int. reflexivity.
Qed.


Lemma sim_sameOutcome {A B : Type} (m1 m2 : Heap.JS G A) (w1 w2 : Heap.world G)
    (p : result B) (R1 R2 : B -> A -> Heap.world G -> Prop)
    (E : A -> Heap.world G -> A -> Heap.world G -> Prop) :
  sim m1 w1 p R1 -> sim m2 w2 p R2 ->
  (forall b a1 w1' a2 w2', R1 b a1 w1' -> R2 b a2 w2' -> E a1 w1' a2 w2') ->
  sameOutcome E w1 w2 (m1 w1) (m2 w2).
Proof.
  unfold sim, sameOutcome. destruct p as [b|e].
  - intros (a1 & w1' & -> & X1 & _ & H1) (a2 & w2' & -> & X2 & _ & H2) HE. eauto.
  - intros -> -> _. reflexivity.
Qed.

End World.
End HeapFacts.

(** C5.  [getPositionStatus], [getPriceFromSqrtPrice] and
    [isPositionFullRange] are pure.  Run in two worlds on references to
    objects of equal contents (and equal flags and assets), each of them
    ends alike in both: the same status, prices of equal value, the same
    boolean, or the same exception; and each run leaves the objects that
    existed and the state of the module as they were.  [getPositionStatus]
    and [getPriceFromSqrtPrice] allocate their intermediate results, and the
    latter may file a power of ten in the table of [DecUtils], which answers
    as the computation would; [isPositionFullRange] leaves the world as it
    is.  The values are those of the pure functions. *)
Theorem helpers_pure {G : Type} {math : TickMath} :
  (forall (w1 w2 : Heap.world G) (l1 u1 c1 l2 u2 c2 : Heap.ref)
          (i : PositionStatusInput),
      Heap.deref w1 l1 = Some (Dec.int (lowerPrice i)) ->
      Heap.deref w1 u1 = Some (Dec.int (upperPrice i)) ->
      Heap.deref w1 c1 = Some (Dec.int (currentPrice i)) ->
      Heap.deref w2 l2 = Some (Dec.int (lowerPrice i)) ->
      Heap.deref w2 u2 = Some (Dec.int (upperPrice i)) ->
      Heap.deref w2 c2 = Some (Dec.int (currentPrice i)) ->
      HeapSpec.sameOutcome (fun s1 _ s2 _ => s1 = s2) w1 w2
        (Heap.getPositionStatus l1 u1 c1 (isFullRange i) (isSuperfluid i)
           (isSuperfluidUnstaking i) (isUnbonding i) w1)
        (Heap.getPositionStatus l2 u2 c2 (isFullRange i) (isSuperfluid i)
           (isSuperfluidUnstaking i) (isUnbonding i) w2)
      /\ HeapSpec.sim
           (Heap.getPositionStatus l1 u1 c1 (isFullRange i) (isSuperfluid i)
              (isSuperfluidUnstaking i) (isUnbonding i))
           w1 (getPositionStatus i) HeapSpec.same)
  /\ (forall (w1 w2 : Heap.world G) (s1 s2 : Heap.ref) (sqrtPrice : Dec.t)
             (baseAsset quoteAsset : CoinPretty),
         HeapSpec.tableOk w1 -> HeapSpec.tableOk w2 ->
         Heap.deref w1 s1 = Some (Dec.int sqrtPrice) ->
         Heap.deref w2 s2 = Some (Dec.int sqrtPrice) ->
         HeapSpec.sameOutcome
           (fun r1 w1' r2 w2' =>
              exists price, Heap.deref w1' r1 = Some price
                            /\ Heap.deref w2' r2 = Some price)
           w1 w2
           (Heap.getPriceFromSqrtPrice s1 baseAsset quoteAsset w1)
           (Heap.getPriceFromSqrtPrice s2 baseAsset quoteAsset w2)
         /\ HeapSpec.sim (Heap.getPriceFromSqrtPrice s1 baseAsset quoteAsset) w1
              (getPriceFromSqrtPrice sqrtPrice baseAsset quoteAsset) HeapSpec.holds)
  /\ (forall (w1 w2 : Heap.world G) (l1 u1 l2 u2 : option Heap.ref)
             (lowerTick upperTick : option Int.t),
         HeapSpec.tickAt w1 l1 lowerTick -> HeapSpec.tickAt w1 u1 upperTick ->
         HeapSpec.tickAt w2 l2 lowerTick -> HeapSpec.tickAt w2 u2 upperTick ->
         Heap.isPositionFullRange l1 u1 w1
         = Ok (isPositionFullRange lowerTick upperTick, w1)
         /\ Heap.isPositionFullRange l2 u2 w2
            = Ok (isPositionFullRange lowerTick upperTick, w2)).
Proof.
  split; [|split].
  - intros w1 w2 l1 u1 c1 l2 u2 c2 [vl vu vc f1 f2 f3 f4].
    cbn [lowerPrice upperPrice currentPrice isFullRange isSuperfluid
         isSuperfluidUnstaking isUnbonding].
    intros L1 U1 C1 L2 U2 C2.
    pose proof (HeapFacts.getPositionStatus_sim w1 l1 u1 c1 vl vu vc f1 f2 f3 f4 L1 U1 C1)
      as S1.
    pose proof (HeapFacts.getPositionStatus_sim w2 l2 u2 c2 vl vu vc f1 f2 f3 f4 L2 U2 C2)
      as S2.
    split; [|exact S1].
    eapply HeapFacts.sim_sameOutcome; [exact S1 | exact S2 |].
    unfold HeapSpec.same. intros; congruence.
  - intros w1 w2 s1 s2 v base quote T1 T2 D1 D2.
    pose proof (HeapFacts.getPriceFromSqrtPrice_sim w1 s1 v base quote T1 D1) as S1.
    pose proof (HeapFacts.getPriceFromSqrtPrice_sim w2 s2 v base quote T2 D2) as S2.
    split; [|exact S1].
    eapply HeapFacts.sim_sameOutcome; [exact S1 | exact S2 |].
    unfold HeapSpec.holds. intros b a1 w1' a2 w2' H1 H2. eauto.
  - intros w1 w2 l1 u1 l2 u2 vl vu A1 B1 A2 B2. split.
    + apply HeapFacts.isPositionFullRange_run; assumption.
    + apply HeapFacts.isPositionFullRange_run; assumption.
Qed.

Lemma helpers_pure_witness :
  let w1 : Heap.world unit :=
    Heap.mkWorld [10 ^ 18; 2 * 10 ^ 18; 14 * 10 ^ 17] [] tt in
  let w2 : Heap.world unit :=
    Heap.mkWorld [7; 14 * 10 ^ 17; 2 * 10 ^ 18; 10 ^ 18] [] tt in
  HeapSpec.sameOutcome (fun s1 _ s2 _ => s1 = s2) w1 w2
    (Heap.getPositionStatus 0%nat 1%nat 2%nat false false false false w1)
    (Heap.getPositionStatus 3%nat 2%nat 1%nat false false false false w2)
  /\ HeapSpec.sim
       (Heap.getPositionStatus 0%nat 1%nat 2%nat false false false false)
       w1 (Ok inRange) HeapSpec.same.
Proof.
  intros w1 w2.
  apply (proj1 (helpers_pure (G := unit) (math := ReferenceMath.tickMath))
           w1 w2 0%nat 1%nat 2%nat 3%nat 2%nat 1%nat
           (mkPositionStatusInput (Dec.lit 1) (Dec.lit 2) (Dec.mk (14 * 10 ^ 17))
              false false false false));
    reflexivity.
Defined.

(** ** More of [utils/string] *)

Section MoreStringFacts.

Lemma substring_inside (s : jsstring) (b e : Z) :
  0 <= b -> b <= e -> e <= JSString.length s ->
  JSString.substring s b e = firstn (Z.to_nat (e - b)) (skipn (Z.to_nat b) s).
Proof.
  intros Hb Hbe He. unfold JSString.substring.
  rewrite (Z.max_l b 0), (Z.max_l e 0) by lia.
  rewrite (Z.min_l b), (Z.min_l e) by lia.
  rewrite Z.min_l, Z.max_r by lia. reflexivity.
Qed.

Lemma substring_head (s : jsstring) (e : Z) :
  JSString.substring s 0 e
  = firstn (Z.to_nat (Z.min (Z.max e 0) (JSString.length s))) s.
Proof.
  unfold JSString.substring. unfold JSString.length.
  change (Z.max 0 0) with 0. rewrite (Z.min_l 0) by lia.
  rewrite (Z.min_l 0), (Z.max_r 0) by lia. rewrite Z.sub_0_r. reflexivity.
Qed.

Lemma substring_tail (s : jsstring) (b : Z) :
  JSString.substring s b (JSString.length s)
  = skipn (Z.to_nat (Z.min (Z.max b 0) (JSString.length s))) s.
Proof.
  unfold JSString.substring. unfold JSString.length.
  set (len := Z.of_nat (List.length s)).
  assert (0 <= len) by (unfold len; lia).
  set (b' := Z.min (Z.max b 0) len).
  assert (E : Z.min (Z.max len 0) len = len) by lia. rewrite E.
  assert (b' <= len) by (unfold b'; lia).
  rewrite (Z.min_l b' len), (Z.max_r b' len) by lia.
  apply firstn_all2. rewrite length_skipn. unfold len. lia.
Qed.

End MoreStringFacts.

(** [getShortAddress] on an address that is not empty and has room for both
    ends: the result is the first [prefixLength] (by default 6) characters
    and the last [suffixLength] (by default 5) characters of the address,
    with ["..."] in the place of what lies between them. *)
Theorem getShortAddress_shape (address : jsstring) (prefixLength suffixLength : option Z) :
  let p := nullish prefixLength 6 in
  let s := nullish suffixLength 5 in
  address <> [] -> 0 <= p -> 0 <= s -> p + s <= JSString.length address ->
  exists pre mid suf,
    address = pre ++ mid ++ suf
    /\ JSString.length pre = p /\ JSString.length suf = s
    /\ getShortAddress address prefixLength suffixLength = pre ++ str "..." ++ suf.
Proof.
  intros p s Hne Hp Hs Hlen.
  assert (E : getShortAddress address prefixLength suffixLength
              = JSString.substring address 0 p ++ str "..."
                ++ JSString.substring address (JSString.length address - s)
                     (JSString.length address)).
  { unfold getShortAddress. destruct address; [congruence | reflexivity]. }
  rewrite E, substring_head, substring_tail. clear E. clearbody p s.
  unfold JSString.length in *.
  set (len := Z.of_nat (List.length address)) in *.
  rewrite (Z.max_l p 0), (Z.min_l p len) by lia.
  rewrite (Z.max_l (len - s) 0), (Z.min_l (len - s) len) by lia.
  exists (firstn (Z.to_nat p) address),
         (firstn (Z.to_nat (len - s - p)) (skipn (Z.to_nat p) address)),
         (skipn (Z.to_nat (len - s)) address).
  repeat split.
  - replace (skipn (Z.to_nat (len - s)) address)
      with (skipn (Z.to_nat (len - s - p)) (skipn (Z.to_nat p) address)).
    + now rewrite !firstn_skipn.
    + rewrite skipn_skipn. f_equal. lia.
  - rewrite length_firstn. unfold len. lia.
  - rewrite length_skipn. unfold len. lia.
Qed.

Lemma getShortAddress_shape_witness :
  exists pre mid suf,
    str "osmo1qwertyuiopasdfghjkl" = pre ++ mid ++ suf
    /\ JSString.length pre = 6 /\ JSString.length suf = 5
    /\ getShortAddress (str "osmo1qwertyuiopasdfghjkl") None None
       = pre ++ str "..." ++ suf.
Proof.
  apply (getShortAddress_shape (str "osmo1qwertyuiopasdfghjkl") None None).
  - discriminate.
  - vm_compute. discriminate.
  - vm_compute. discriminate.
  - vm_compute. discriminate.
Defined.

(** The length of a short address: each end is cut to the length of the
    address, so that the result is shorter than the address exactly when
    the address has more than [prefixLength + suffixLength + 3]
    characters; a shorter address is made longer. *)
Theorem getShortAddress_length (address : jsstring) (prefixLength suffixLength : option Z) :
  let p := nullish prefixLength 6 in
  let s := nullish suffixLength 5 in
  let len := JSString.length address in
  let short := JSString.length (getShortAddress address prefixLength suffixLength) in
  address <> [] -> 0 <= p -> 0 <= s ->
  short = Z.min p len + 3 + Z.min s len
  /\ (short < len <-> p + s + 3 < len).
Proof.
  intros p s len short Hne Hp Hs.
  assert (E : getShortAddress address prefixLength suffixLength
              = JSString.substring address 0 p ++ str "..."
                ++ JSString.substring address (JSString.length address - s)
                     (JSString.length address)).
  { unfold getShortAddress. destruct address; [congruence | reflexivity]. }
  assert (L : short = Z.min p len + 3 + Z.min s len).
  { unfold short. rewrite E, substring_head, substring_tail. fold len.
    clearbody p s. unfold len, JSString.length.
    rewrite !length_app, length_firstn, length_skipn. simpl List.length. lia. }
  split; [exact L|]. rewrite L.
  assert (0 <= len) by (unfold len, JSString.length; lia).
  clearbody p s len. lia.
Qed.

Lemma getShortAddress_length_witness :
  JSString.length (getShortAddress (str "abc") None None)
  = Z.min 6 (JSString.length (str "abc")) + 3 + Z.min 5 (JSString.length (str "abc"))
  /\ (JSString.length (getShortAddress (str "abc") None None) < JSString.length (str "abc")
      <-> 6 + 5 + 3 < JSString.length (str "abc")).
Proof.
  apply (getShortAddress_length (str "abc") None None).
  - discriminate.
  - vm_compute. discriminate.
  - vm_compute. discriminate.
Defined.

Section SplitFacts.

Lemma Some_eq {A : Type} (a b : A) : Some a = Some b -> a = b.
Proof. congruence. Qed.

Lemma split_no_separator (s : jsstring) (sep : ascii) :
  ~ In sep s -> JSString.split s sep = (s, []).
Proof.
  induction s as [|c s IH]; intros N; [reflexivity|].
  simpl. rewrite IH by (intros I; apply N; now right).
  destruct (Ascii.eqb c sep) eqn:E; [|reflexivity].
  apply Ascii.eqb_eq in E. exfalso. apply N. now left.
Qed.

Lemma split_first (front rest : jsstring) (sep : ascii) :
  ~ In sep front ->
  JSString.split (front ++ sep :: rest) sep
  = (front, fst (JSString.split rest sep) :: snd (JSString.split rest sep)).
Proof.
  induction front as [|c front IH]; intros N.
  - simpl. destruct (JSString.split rest sep). now rewrite Ascii.eqb_refl.
  - simpl. rewrite IH by (intros I; apply N; now right).
    destruct (Ascii.eqb c sep) eqn:E; [|reflexivity].
    apply Ascii.eqb_eq in E. exfalso. apply N. now left.
Qed.

Lemma removePrefix_Some (p url rest : jsstring) :
  removePrefix p url = Some rest -> url = p ++ rest.
Proof.
  revert url. induction p as [|c p IH]; intros url H.
  - destruct url; injection H as <-; reflexivity.
  - destruct url as [|d url]; [discriminate|]. simpl in H.
    destruct (Ascii.eqb d c) eqn:E; [|discriminate].
    apply Ascii.eqb_eq in E. subst. simpl. f_equal. now apply IH.
Qed.

Lemma removePrefix_startsWith (p url : jsstring) :
  JSString.startsWith url p = match removePrefix p url with Some _ => true | None => false end.
Proof.
  revert url. induction p as [|c p IH]; intros url.
  - destruct url; reflexivity.
  - destruct url as [|d url]; [reflexivity|]. simpl.
    destruct (Ascii.eqb d c); [apply IH | reflexivity].
Qed.

Lemma length_trimStart (s : jsstring) :
  (List.length (JSString.trimStart s) <= List.length s)%nat.
Proof.
  induction s as [|c s IH]; simpl; [lia|].
  destruct (JSString.isWhiteSpace c); simpl; lia.
Qed.

Lemma length_trim (s : jsstring) :
  JSString.length (JSString.trim s) <= JSString.length s.
Proof.
  unfold JSString.length, JSString.trim, JSString.trimEnd.
  rewrite length_rev.
  pose proof (length_trimStart (rev (JSString.trimStart s))) as A.
  rewrite length_rev in A. pose proof (length_trimStart s). lia.
Qed.

Lemma lowerCaseChar_lower (c : ascii) :
  isUpperLetter (JSString.lowerCaseChar c) = false
  /\ JSString.lowerCaseChar (JSString.lowerCaseChar c) = JSString.lowerCaseChar c.
Proof. destruct c as [[] [] [] [] [] [] [] []]; split; reflexivity. Qed.

Lemma separateWords_no_upper (s : jsstring) :
  forallb (fun c => negb (isUpperLetter c)) s = true -> separateWords s = s.
Proof.
  induction s as [|a s IH]; [reflexivity|].
  intros H. simpl in H. apply andb_true_iff in H. destruct H as [Ha Hs].
  destruct s as [|b rest]; [reflexivity|].
  change (separateWords (a :: b :: rest))
    with (if isLowerLetter a && isUpperLetter b
          then a :: "_"%char :: b :: separateWords rest
          else a :: separateWords (b :: rest)).
  simpl in Hs. apply andb_true_iff in Hs. destruct Hs as [Hb Hr].
  apply negb_true_iff in Hb. rewrite Hb, andb_false_r.
  f_equal. apply IH. simpl. now rewrite Hb, Hr.
Qed.


Lemma formatICNSName_long (name : jsstring) (maxLength : option Z) :
  name <> [] -> orDefault maxLength 28 < JSString.length name ->
  formatICNSName (Some name) maxLength
  = let nameParts := JSString.split name "."%char in
    let userName := fst nameParts in
    Some (JSString.substring userName 0 10 ++ str "..."
          ++ JSString.substring userName (JSString.length userName - 5)
               (JSString.length userName)
          ++ str "." ++ stringOf (hd_error (snd nameParts))).
Proof.
  intros Hne Hmax. unfold formatICNSName.
  apply Z.leb_gt in Hmax. rewrite Hmax.
  destruct name; [congruence | reflexivity].
Qed.

End SplitFacts.

(** [formatICNSName] on a name that is too long and has no dot:
    [nameParts[1]] is [undefined], and the result ends in [".undefined"]. *)
Theorem formatICNSName_no_chain (name : jsstring) (maxLength : option Z) :
  ~ In "."%char name ->
  orDefault maxLength 28 < JSString.length name ->
  15 <= JSString.length name ->
  formatICNSName (Some name) maxLength
  = Some (firstn 10 name ++ str "..."
          ++ skipn (List.length name - 5) name ++ str ".undefined").
Proof.
  intros Hdot Hmax Hlen.
  rewrite formatICNSName_long;
    [|intros ->; unfold JSString.length in Hlen; simpl in Hlen; lia | exact Hmax].
  rewrite split_no_separator by exact Hdot. cbn [fst snd hd_error stringOf].
  rewrite substring_head, substring_tail.
  unfold JSString.length in *.
  do 2 f_equal; [f_equal; lia|]. f_equal. f_equal. f_equal. lia.
Qed.

Lemma formatICNSName_no_chain_witness :
  formatICNSName (Some (str "averyveryverylongusernamewithoutchain")) None
  = Some (firstn 10 (str "averyveryverylongusernamewithoutchain") ++ str "..."
          ++ skipn (List.length (str "averyveryverylongusernamewithoutchain") - 5)
                   (str "averyveryverylongusernamewithoutchain")
          ++ str ".undefined").
Proof.
  apply (formatICNSName_no_chain (str "averyveryverylongusernamewithoutchain") None).
  - vm_compute. intuition discriminate.
  - vm_compute. reflexivity.
  - vm_compute. discriminate.
Defined.

(** [formatICNSName] on a name [userName.chain], or [userName.chain.more],
    that is too long, with a user name of 15 characters or more: the result
    is the first 10 and the last 5 characters of the user name around
    ["..."], a dot and the chain; what follows a second dot is dropped.  The
    result has 19 characters and the chain, whatever [maxLength] is. *)
Theorem formatICNSName_parts (name userName chain rest : jsstring) (maxLength : option Z) :
  name = userName ++ str "." ++ chain ++ rest ->
  ~ In "."%char userName -> ~ In "."%char chain ->
  rest = [] \/ hd_error rest = Some "."%char ->
  orDefault maxLength 28 < JSString.length name ->
  15 <= JSString.length userName ->
  formatICNSName (Some name) maxLength
  = Some (firstn 10 userName ++ str "..."
          ++ skipn (List.length userName - 5) userName ++ str "." ++ chain)
  /\ forall short, formatICNSName (Some name) maxLength = Some short ->
       JSString.length short = 19 + JSString.length chain.
Proof.
  intros -> Hu Hc Hrest Hmax Hlen.
  assert (E : formatICNSName (Some (userName ++ str "." ++ chain ++ rest)) maxLength
              = Some (firstn 10 userName ++ str "..."
                      ++ skipn (List.length userName - 5) userName ++ str "." ++ chain)).
  { rewrite formatICNSName_long; [|destruct userName; discriminate | exact Hmax].
    cbv zeta.
    change (userName ++ str "." ++ chain ++ rest)
      with (userName ++ "."%char :: (chain ++ rest)).
    rewrite split_first by exact Hu. cbn [fst snd hd_error stringOf].
    assert (Ec : fst (JSString.split (chain ++ rest) ".") = chain).
    { destruct Hrest as [-> | Hr].
      - rewrite app_nil_r, split_no_separator by exact Hc. reflexivity.
      - destruct rest as [|d rest']; [discriminate|]. simpl in Hr.
        injection Hr as ->. rewrite split_first by exact Hc. reflexivity. }
    rewrite Ec, substring_head, substring_tail.
    unfold JSString.length in *.
    do 2 f_equal; [f_equal; lia|]. f_equal. f_equal. f_equal. lia. }
  split; [exact E|]. intros short Hs.
  assert (Es : Some short = Some (firstn 10 userName ++ str "..."
                  ++ skipn (List.length userName - 5) userName ++ str "." ++ chain))
    by exact (eq_trans (eq_sym Hs) E).
  apply Some_eq in Es. subst short. clear E Hs.
  unfold JSString.length in *.
  rewrite !length_app, length_firstn, length_skipn. simpl List.length. lia.
Qed.

Lemma formatICNSName_parts_witness :
  formatICNSName (Some (str "averyveryverylongusername_indeed.osmo.more")) None
  = Some (firstn 10 (str "averyveryverylongusername_indeed") ++ str "..."
          ++ skipn (List.length (str "averyveryverylongusername_indeed") - 5)
                   (str "averyveryverylongusername_indeed")
          ++ str "." ++ str "osmo").
Proof.
  apply (formatICNSName_parts (str "averyveryverylongusername_indeed.osmo.more")
           (str "averyveryverylongusername_indeed") (str "osmo") (str ".more") None).
  - reflexivity.
  - vm_compute. intuition discriminate.
  - vm_compute. intuition discriminate.
  - right. reflexivity.
  - vm_compute. reflexivity.
  - vm_compute. discriminate.
Defined.

(** [normalizeUrl] takes off at most a scheme, then a ["www."], from the
    front and one slash from the end, and nothing else. *)
Theorem normalizeUrl_removes (url : jsstring) :
  exists scheme www slash,
    url = scheme ++ www ++ normalizeUrl url ++ slash
    /\ In scheme [str ""; str "http://"; str "https://"]
    /\ In www [str ""; str "www."]
    /\ In slash [str ""; str "/"].
Proof.
  unfold normalizeUrl.
  set (u1 := match removePrefix (str "https://") url with
             | Some rest => rest
             | None => match removePrefix (str "http://") url with
                       | Some rest => rest
                       | None => url
                       end
             end).
  assert (S : exists scheme, url = scheme ++ u1
                             /\ In scheme [str ""; str "http://"; str "https://"]).
  { unfold u1. destruct (removePrefix (str "https://") url) as [r|] eqn:E.
    - exists (str "https://"). split; [now apply removePrefix_Some | simpl; auto].
    - destruct (removePrefix (str "http://") url) as [r|] eqn:E'.
      + exists (str "http://"). split; [now apply removePrefix_Some | simpl; auto].
      + exists (str ""). split; [reflexivity | simpl; auto]. }
  destruct S as (scheme & Es & Is).
  set (u2 := match removePrefix (str "www.") u1 with Some rest => rest | None => u1 end).
  assert (W : exists www, u1 = www ++ u2 /\ In www [str ""; str "www."]).
  { unfold u2. destruct (removePrefix (str "www.") u1) as [r|] eqn:E.
    - exists (str "www."). split; [now apply removePrefix_Some | simpl; auto].
    - exists (str ""). split; [reflexivity | simpl; auto]. }
  destruct W as (www & Ew & Iw).
  exists scheme, www.
  assert (T : exists slash,
            u2 = match rev u2 with
                 | c :: front => if Ascii.eqb c "/"%char then rev front else u2
                 | [] => u2
                 end ++ slash /\ In slash [str ""; str "/"]).
  { destruct (rev u2) as [|c front] eqn:R.
    - exists (str ""). split; [now rewrite app_nil_r | simpl; auto].
    - destruct (Ascii.eqb c "/"%char) eqn:E.
      + apply Ascii.eqb_eq in E. subst c. exists (str "/"). split; [|simpl; auto].
        rewrite <- (rev_involutive u2), R. reflexivity.
      + exists (str ""). split; [now rewrite app_nil_r | simpl; auto]. }
  destruct T as (slash & Et & It). exists slash.
  split; [|auto]. rewrite Es at 1. rewrite Ew at 1. rewrite Et at 1. reflexivity.
Qed.

Section UrlFacts.

Lemma normalizeUrl_steps (url : jsstring) :
  normalizeUrl url = StringSpec.withoutSlash (StringSpec.withoutWww (StringSpec.withoutScheme url)).
Proof. reflexivity. Qed.

Lemma removePrefix_shorter (p url rest : jsstring) :
  removePrefix p url = Some rest ->
  List.length url = (List.length p + List.length rest)%nat.
Proof. intros H. apply removePrefix_Some in H. subst. apply length_app. Qed.

Lemma withoutScheme_fix (url : jsstring) :
  (List.length (StringSpec.withoutScheme url) <= List.length url)%nat
  /\ (List.length (StringSpec.withoutScheme url) = List.length url ->
      StringSpec.withoutScheme url = url
      /\ JSString.startsWith url (str "http://") = false
      /\ JSString.startsWith url (str "https://") = false).
Proof.
  unfold StringSpec.withoutScheme. rewrite !removePrefix_startsWith.
  destruct (removePrefix (str "https://") url) as [r|] eqn:E.
  - apply removePrefix_shorter in E. simpl in E. split; [lia | intros; lia].
  - destruct (removePrefix (str "http://") url) as [r|] eqn:E'.
    + apply removePrefix_shorter in E'. simpl in E'. split; [lia | intros; lia].
    + auto.
Qed.

Lemma withoutWww_fix (url : jsstring) :
  (List.length (StringSpec.withoutWww url) <= List.length url)%nat
  /\ (List.length (StringSpec.withoutWww url) = List.length url ->
      StringSpec.withoutWww url = url /\ JSString.startsWith url (str "www.") = false).
Proof.
  unfold StringSpec.withoutWww. rewrite removePrefix_startsWith.
  destruct (removePrefix (str "www.") url) as [r|] eqn:E.
  - apply removePrefix_shorter in E. simpl in E. split; [lia | intros; lia].
  - auto.
Qed.

Lemma withoutSlash_fix (url : jsstring) :
  (List.length (StringSpec.withoutSlash url) <= List.length url)%nat
  /\ (List.length (StringSpec.withoutSlash url) = List.length url ->
      StringSpec.withoutSlash url = url /\ JSString.endsWith url (str "/") = false).
Proof.
  unfold StringSpec.withoutSlash, JSString.endsWith.
  pose proof (length_rev url) as L.
  destruct (rev url) as [|c front] eqn:R; [auto|].
  simpl. simpl in L. destruct (Ascii.eqb c "/"%char).
  - rewrite length_rev. split; [lia | intros; lia].
  - auto.
Qed.

End UrlFacts.

(** [normalizeUrl] leaves a URL as it is exactly when the URL has no scheme
    and no ["www."] in front and no slash at the end. *)
Theorem normalizeUrl_unchanged (url : jsstring) :
  normalizeUrl url = url
  <-> JSString.startsWith url (str "http://") = false
      /\ JSString.startsWith url (str "https://") = false
      /\ JSString.startsWith url (str "www.") = false
      /\ JSString.endsWith url (str "/") = false.
Proof.
  rewrite normalizeUrl_steps.
  destruct (withoutScheme_fix url) as [L1 F1].
  destruct (withoutWww_fix (StringSpec.withoutScheme url)) as [L2 F2].
  destruct (withoutSlash_fix (StringSpec.withoutWww (StringSpec.withoutScheme url))) as [L3 F3].
  split.
  - intros E. assert (L : List.length (StringSpec.withoutSlash (StringSpec.withoutWww (StringSpec.withoutScheme url)))
                          = List.length url) by now rewrite E.
    destruct (F1 ltac:(lia)) as (E1 & H1 & H2). rewrite E1 in *.
    destruct (F2 ltac:(lia)) as (E2 & H3). rewrite E2 in *.
    destruct (F3 ltac:(lia)) as (E3 & H4). auto.
  - intros (H1 & H2 & H3 & H4).
    rewrite !removePrefix_startsWith in *.
    assert (E1 : StringSpec.withoutScheme url = url).
    { unfold StringSpec.withoutScheme.
      destruct (removePrefix (str "https://") url); [discriminate|].
      destruct (removePrefix (str "http://") url); [discriminate | reflexivity]. }
    rewrite E1.
    assert (E2 : StringSpec.withoutWww url = url).
    { unfold StringSpec.withoutWww.
      destruct (removePrefix (str "www.") url); [discriminate | reflexivity]. }
    rewrite E2. unfold StringSpec.withoutSlash. unfold JSString.endsWith in H4.
    destruct (rev url) as [|c front]; [reflexivity|]. simpl in H4.
    rewrite andb_true_r in H4. rewrite H4. reflexivity.
Qed.

(** The two schemes are removed alike; and a URL made of a scheme, a
    ["www."], a rest without ["www."] in front or slash at the end, and a
    slash, comes down to the rest. *)
Theorem normalizeUrl_scheme (rest : jsstring) :
  normalizeUrl (str "https://" ++ rest) = normalizeUrl (str "http://" ++ rest)
  /\ (JSString.startsWith rest (str "www.") = false ->
      JSString.endsWith rest (str "/") = false ->
      normalizeUrl (str "https://" ++ rest) = rest
      /\ normalizeUrl (str "https://www." ++ rest) = rest
      /\ normalizeUrl (str "https://www." ++ rest ++ str "/") = rest).
Proof.
  split; [reflexivity|]. intros Hw Hs.
  assert (S : StringSpec.withoutSlash rest = rest).
  { unfold StringSpec.withoutSlash. unfold JSString.endsWith in Hs.
    destruct (rev rest) as [|c front]; [reflexivity|]. simpl in Hs.
    rewrite andb_true_r in Hs. rewrite Hs. reflexivity. }
  assert (W : StringSpec.withoutWww rest = rest).
  { unfold StringSpec.withoutWww. rewrite removePrefix_startsWith in Hw.
    destruct (removePrefix (str "www.") rest); [discriminate | reflexivity]. }
  rewrite !normalizeUrl_steps.
  change (StringSpec.withoutScheme (str "https://" ++ rest)) with rest.
  change (StringSpec.withoutWww (StringSpec.withoutScheme (str "https://www." ++ rest))) with rest.
  change (StringSpec.withoutWww (StringSpec.withoutScheme (str "https://www." ++ rest ++ str "/")))
    with (rest ++ str "/").
  rewrite W, S. repeat split.
  unfold StringSpec.withoutSlash. rewrite rev_app_distr. simpl. apply rev_involutive.
Qed.

Lemma normalizeUrl_scheme_witness :
  normalizeUrl (str "https://" ++ str "osmosis.zone") = str "osmosis.zone"
  /\ normalizeUrl (str "https://www." ++ str "osmosis.zone") = str "osmosis.zone"
  /\ normalizeUrl (str "https://www." ++ str "osmosis.zone" ++ str "/") = str "osmosis.zone".
Proof.
  apply (proj2 (normalizeUrl_scheme (str "osmosis.zone"))); reflexivity.
Defined.

(** With [maxLength] at least 3, the result of [ellipsisText] has at most
    [maxLength] characters. *)
Theorem ellipsisText_length (s : jsstring) (maxLength : Z) :
  3 <= maxLength -> JSString.length (ellipsisText s maxLength) <= maxLength.
Proof.
  intros H. unfold ellipsisText.
  destruct s as [|c s']; [unfold JSString.length; simpl; lia|].
  set (s := c :: s') in *. pose proof (length_trim s) as T.
  destruct (maxLength <? JSString.length s) eqn:E.
  - unfold JSString.slice0, JSString.length in *.
    replace (maxLength - 3 <? 0) with false by (symmetry; apply Z.ltb_ge; lia).
    rewrite length_app, length_firstn. simpl List.length. lia.
  - apply Z.ltb_ge in E. lia.
Qed.

Lemma ellipsisText_length_witness :
  JSString.length (ellipsisText (str "  hello world  ") 10) <= 10.
Proof. apply (ellipsisText_length (str "  hello world  ") 10). vm_compute. discriminate. Defined.

Section SnakeFacts.

Lemma toLowerCase_lower (s : jsstring) :
  forallb (fun c => negb (isUpperLetter c)) (JSString.toLowerCase s) = true
  /\ JSString.toLowerCase (JSString.toLowerCase s) = JSString.toLowerCase s.
Proof.
  induction s as [|c s [IH1 IH2]]; [auto|]. simpl.
  destruct (lowerCaseChar_lower c) as [U I]. rewrite U, I, IH1, IH2. auto.
Qed.

Lemma separateWords_cons (a b : ascii) (rest : jsstring) :
  separateWords (a :: b :: rest)
  = if isLowerLetter a && isUpperLetter b
    then a :: "_"%char :: b :: separateWords rest
    else a :: separateWords (b :: rest).
Proof. reflexivity. Qed.

Lemma lower_not_upper (c : ascii) : isLowerLetter c = true -> isUpperLetter c = false.
Proof.
  unfold isLowerLetter, isUpperLetter. intros H.
  apply andb_true_iff in H. destruct H as [H1 H2].
  apply Z.leb_le in H1. apply andb_false_iff. right. apply Z.leb_gt. lia.
Qed.

Lemma upper_not_lower (c : ascii) : isUpperLetter c = true -> isLowerLetter c = false.
Proof.
  unfold isLowerLetter, isUpperLetter. intros H.
  apply andb_true_iff in H. destruct H as [H1 H2].
  apply Z.leb_le in H2. apply andb_false_iff. left. apply Z.leb_gt. lia.
Qed.

(** A capital letter begins no match. *)
Lemma separateWords_upper (b : ascii) (rest : jsstring) :
  isUpperLetter b = true -> separateWords (b :: rest) = b :: separateWords rest.
Proof.
  intros Hb. destruct rest as [|x rest]; [reflexivity|].
  rewrite separateWords_cons, (upper_not_lower b Hb). reflexivity.
Qed.

(** A word boundary splits the work: what stands before it ends in a small
    letter, which no match of the part before can have taken. *)
Lemma separateWords_boundary (front rest : jsstring) (a b : ascii) :
  isLowerLetter a = true -> isUpperLetter b = true ->
  separateWords (front ++ a :: b :: rest)
  = separateWords (front ++ [a]) ++ "_"%char :: separateWords (b :: rest).
Proof.
  intros Ha Hb. assert (Ua := lower_not_upper a Ha).
  assert (B : forall n front, (List.length front <= n)%nat ->
            separateWords (front ++ a :: b :: rest)
            = separateWords (front ++ [a]) ++ "_"%char :: separateWords (b :: rest)).
  { induction n as [|n IH]; intros f Hn.
    - destruct f; [|simpl in Hn; lia].
      rewrite (separateWords_upper b rest Hb).
      change ([] ++ a :: b :: rest) with (a :: b :: rest).
      rewrite separateWords_cons, Ha, Hb. reflexivity.
    - destruct f as [|x f]; [apply (IH []); simpl; lia|].
      destruct f as [|y f].
      + rewrite (separateWords_upper b rest Hb).
        change ([x] ++ a :: b :: rest) with (x :: a :: b :: rest).
        change ([x] ++ [a]) with (x :: a :: []).
        rewrite !(separateWords_cons x a), (separateWords_cons a b).
        rewrite Ua, andb_false_r, Ha, Hb. reflexivity.
      + change ((x :: y :: f) ++ a :: b :: rest) with (x :: y :: (f ++ a :: b :: rest)).
        change ((x :: y :: f) ++ [a]) with (x :: y :: (f ++ [a])).
        rewrite !separateWords_cons.
        destruct (isLowerLetter x && isUpperLetter y).
        * simpl. do 3 f_equal. apply IH. simpl in Hn. lia.
        * simpl. f_equal. apply (IH (y :: f)). simpl in Hn. simpl. lia. }
  apply (B (List.length front)); lia.
Qed.

End SnakeFacts.

(** The result of [camelCaseToSnakeCase] has no capital letter of [A-Z],
    and the function changes nothing when applied again. *)
Theorem camelCaseToSnakeCase_idempotent (input : jsstring) :
  (forall c, In c (camelCaseToSnakeCase input) -> isUpperLetter c = false)
  /\ camelCaseToSnakeCase (camelCaseToSnakeCase input) = camelCaseToSnakeCase input.
Proof.
  unfold camelCaseToSnakeCase.
  destruct (toLowerCase_lower (separateWords input)) as [U I]. split.
  - intros c Hc. rewrite forallb_forall in U. apply negb_true_iff. now apply U.
  - rewrite (separateWords_no_upper _ U). exact I.
Qed.

(** A small letter followed by a capital letter is a word boundary: the
    function works on the two sides apart and joins them with ["_"]. *)
Theorem camelCaseToSnakeCase_boundary (front rest : jsstring) (a b : ascii) :
  isLowerLetter a = true -> isUpperLetter b = true ->
  camelCaseToSnakeCase (front ++ [a] ++ [b] ++ rest)
  = camelCaseToSnakeCase (front ++ [a]) ++ str "_" ++ camelCaseToSnakeCase ([b] ++ rest).
Proof.
  intros Ha Hb. unfold camelCaseToSnakeCase. simpl app.
  rewrite (separateWords_boundary front rest a b Ha Hb).
  unfold JSString.toLowerCase. rewrite map_app. reflexivity.
Qed.

Lemma camelCaseToSnakeCase_boundary_witness :
  camelCaseToSnakeCase (str "poolI" ++ ["d"%char] ++ ["O"%char] ++ str "fAsset")
  = camelCaseToSnakeCase (str "poolI" ++ ["d"%char]) ++ str "_"
    ++ camelCaseToSnakeCase (["O"%char] ++ str "fAsset").
Proof.
  apply (camelCaseToSnakeCase_boundary (str "poolI") (str "fAsset") "d"%char "O"%char);
    reflexivity.
Defined.

(** ** More of [hooks/input/use-price-input.ts] *)

Section InputFacts.

Lemma eqb_cons_nil (c : ascii) (s : jsstring) : JSString.eqb (c :: s) (str "") = false.
Proof. unfold JSString.eqb. destruct (list_eq_dec ascii_dec (c :: s) (str "")); [discriminate | reflexivity]. Qed.

(** Without its last character, a string of two characters or more keeps its first. *)
Lemma slice0_init (c d : ascii) (s : jsstring) :
  exists rest, JSString.slice0 (c :: d :: s) (-1) = c :: rest.
Proof.
  unfold JSString.slice0, JSString.length. change (-1 <? 0) with true. cbv iota.
  replace (Z.to_nat (Z.max (Z.of_nat (List.length (c :: d :: s)) + -1) 0))
    with (S (List.length s)) by (simpl List.length; lia).
  exists (firstn (List.length s) (d :: s)). reflexivity.
Qed.

End InputFacts.

(** What [input] stores for a string is never empty and never starts with
    a dot, and storing it again changes nothing; so [toDec] hands [new Dec]
    a string that is not empty and does not start with a dot. *)
Theorem input_parses_no_empty_string (value : jsstring) :
  input value <> []
  /\ JSString.startsWith (input value) (str ".") = false
  /\ input (input value) = input value
  /\ forall (newDec : jsstring -> result Dec.t) (mult : Dec.t),
       exists s, s <> [] /\ JSString.startsWith s (str ".") = false
                 /\ toDec newDec mult (input value)
                    = (price <- newDec s ;; removeCurrencyDecimals mult price).
Proof.
  assert (K : forall c s, JSString.startsWith (c :: s) (str ".") = false ->
            input (c :: s) = c :: s
            /\ forall newDec mult,
                 exists s', s' <> [] /\ JSString.startsWith s' (str ".") = false
                   /\ toDec newDec mult (c :: s)
                      = (price <- newDec s' ;; removeCurrencyDecimals mult price)).
  { intros c s H. split.
    - unfold input. rewrite H, eqb_cons_nil. reflexivity.
    - intros newDec mult. unfold toDec.
      destruct (JSString.endsWith (c :: s) (str ".")) eqn:E.
      + destruct s as [|d s].
        * unfold JSString.endsWith in E. simpl in E, H. congruence.
        * destruct (slice0_init c d s) as [rest ->].
          exists (c :: rest). split; [discriminate|]. split; [|reflexivity].
          simpl in *. exact H.
      + exists (c :: s). split; [discriminate|]. split; [exact H | reflexivity]. }
  assert (V : exists c s, input value = c :: s
                          /\ JSString.startsWith (c :: s) (str ".") = false).
  { unfold input. destruct (JSString.startsWith value (str ".")) eqn:S.
    - exists "0"%char, value. split; reflexivity.
    - destruct value as [|c s].
      + exists "0"%char, []. split; reflexivity.
      + rewrite eqb_cons_nil. exists c, s. split; [reflexivity | exact S]. }
  destruct V as (c & s & E & H). rewrite E.
  destruct (K c s H) as [I T].
  split; [discriminate|]. split; [exact H|]. split; [exact I | exact T].
Qed.

Section PowerFacts.
Import Dec DecFacts.

(** A multiplication throws nothing but the range error. *)
Lemma mul_throw (a b : t) (e : exn) : mul a b = Throw e -> e = IntegerOutOfRange.
Proof.
  unfold mul, mulRaw, checkBitLen, make.
  destruct (Z.abs (int a * int b) <=? maxDec); cbn [bind]; [|congruence].
  destruct (Z.abs (chopPrecisionAndRound (int a * int b)) <=? maxDec); congruence.
Qed.

Lemma powLoop_throw (i : positive) :
  forall base tmp e, powLoop i base tmp = Throw e -> e = IntegerOutOfRange.
Proof.
  induction i as [i IH|i IH|]; intros base tmp e; cbn [powLoop].
  - destruct (mul tmp base) as [tmp'|e1] eqn:M1; cbn [bind];
      [|intros [= <-]; exact (mul_throw _ _ _ M1)].
    destruct (mul base base) as [base'|e2] eqn:M2; cbn [bind];
      [|intros [= <-]; exact (mul_throw _ _ _ M2)].
    apply IH.
  - destruct (mul base base) as [base'|e2] eqn:M2; cbn [bind];
      [|intros [= <-]; exact (mul_throw _ _ _ M2)].
    apply IH.
  - apply mul_throw.
Qed.

(** Past 59, the power of ten throws the range error. *)
Lemma getTenExponentN_throws (n : Z) :
  59 < n -> DecUtils.getTenExponentN n = Throw IntegerOutOfRange.
Proof.
  intros H. destruct (DecUtils.getTenExponentN n) as [d|e] eqn:E.
  - apply getTenExponentN_inv in E. lia.
  - f_equal. unfold DecUtils.getTenExponentN in E.
    replace (n <? - precision) with false in E
      by (symmetry; apply Z.ltb_ge; unfold precision; lia).
    destruct n as [|p|p]; try lia. cbn [pow] in E.
    exact (powLoop_throw p _ _ e E).
Qed.

End PowerFacts.

(** The multiplier of a currency pair is [10^d], [d] the base decimals less
    the quote decimals, for [d] from -18 to 59; below, the library refuses
    the precision, and above, the power leaves the range of a decimal on
    its way. *)
Theorem multiplicationQuoteOverBase_correct (base quote : option Currency) :
  let d := decimalsOrZero base - decimalsOrZero quote in
  (-18 <= d <= 59 ->
   multiplicationQuoteOverBase base quote = Ok (Dec.mk (10 ^ (18 + d))))
  /\ (d < -18 -> multiplicationQuoteOverBase base quote = Throw TooLittlePrecision)
  /\ (59 < d -> multiplicationQuoteOverBase base quote = Throw IntegerOutOfRange).
Proof.
  intros d. unfold multiplicationQuoteOverBase. fold d. split; [|split].
  - intros H. apply DecFacts.getTenExponentN_ok. exact H.
  - intros H. unfold DecUtils.getTenExponentN.
    replace (d <? - Dec.precision) with true
      by (symmetry; apply Z.ltb_lt; unfold Dec.precision; lia).
    reflexivity.
  - apply getTenExponentN_throws.
Qed.

Lemma multiplicationQuoteOverBase_correct_witness :
  multiplicationQuoteOverBase (Some Sample.eth) (Some Sample.usdc) = Ok (Dec.mk (10 ^ 30))
  /\ multiplicationQuoteOverBase None (Some (mkCurrency "FINE" "afine" 19))
     = Throw TooLittlePrecision
  /\ multiplicationQuoteOverBase (Some (mkCurrency "WIDE" "awide" 60)) None
     = Throw IntegerOutOfRange.
Proof.
  split; [|split].
  - apply (proj1 (multiplicationQuoteOverBase_correct (Some Sample.eth) (Some Sample.usdc))).
    vm_compute. split; discriminate.
  - apply (proj1 (proj2 (multiplicationQuoteOverBase_correct
                            None (Some (mkCurrency "FINE" "afine" 19))))).
    vm_compute. reflexivity.
  - apply (proj2 (proj2 (multiplicationQuoteOverBase_correct
                            (Some (mkCurrency "WIDE" "awide" 60)) None))).
    vm_compute. reflexivity.
Defined.

(** [getPriceFromSqrtPrice] computes the multiplier first: with [d] the base
    decimals less the quote decimals, it throws for [d] outside -18 to 59,
    whatever the square root.  Within, it returns exactly when the raw
    square and the raw product of the rounded square by [10^d] stay in the
    range of a decimal; the price is then the rounded square times [10^d],
    rounded to 18 decimals, and is exact for [d >= 0]. *)
Theorem getPriceFromSqrtPrice_correct (sqrtPrice : Dec.t) (baseAsset quoteAsset : CoinPretty) :
  let d := coinDecimals (currency baseAsset) - coinDecimals (currency quoteAsset) in
  let square := Dec.chopPrecisionAndRound (Dec.int sqrtPrice * Dec.int sqrtPrice) in
  let price := getPriceFromSqrtPrice sqrtPrice baseAsset quoteAsset in
  (d < -18 -> price = Throw TooLittlePrecision)
  /\ (59 < d -> price = Throw IntegerOutOfRange)
  /\ (-18 <= d <= 59 ->
      (Z.abs (Dec.int sqrtPrice * Dec.int sqrtPrice) <= Dec.maxDec ->
       Z.abs square * 10 ^ (18 + d) <= Dec.maxDec ->
       price = Ok (Dec.mk (Dec.chopPrecisionAndRound (square * 10 ^ (18 + d))))
       /\ (0 <= d -> Dec.chopPrecisionAndRound (square * 10 ^ (18 + d)) = square * 10 ^ d))
      /\ (Dec.maxDec < Z.abs (Dec.int sqrtPrice * Dec.int sqrtPrice)
          \/ Dec.maxDec < Z.abs square * 10 ^ (18 + d) ->
          price = Throw IntegerOutOfRange)).
Proof.
  intros d square price. unfold price, getPriceFromSqrtPrice. fold d.
  split; [|split].
  - intros H. unfold DecUtils.getTenExponentN.
    replace (d <? - Dec.precision) with true
      by (symmetry; apply Z.ltb_lt; unfold Dec.precision; lia).
    reflexivity.
  - intros H. rewrite (getTenExponentN_throws d H). reflexivity.
  - intros H. rewrite (DecFacts.getTenExponentN_ok d H). cbn [bind].
    change (Dec.precision + d) with (18 + d).
    assert (P : 0 < 10 ^ (18 + d)) by (apply Z.pow_pos_nonneg; lia).
    split.
    + intros H1 H2. rewrite (DecFacts.mul_ok _ _ H1). cbn [bind]. fold square.
      rewrite DecFacts.mul_ok
        by (cbn [Dec.int]; rewrite Z.abs_mul, (Z.abs_eq (10 ^ (18 + d))); lia).
      cbn [Dec.int]. split; [reflexivity|].
      intros Hd. rewrite Z.pow_add_r by lia.
      change (10 ^ 18) with Dec.precisionMultiplier.
      replace (square * (Dec.precisionMultiplier * 10 ^ d))
        with (square * 10 ^ d * Dec.precisionMultiplier) by ring.
      apply DecFacts.chop_exact.
    + intros [H1|H2].
      * rewrite (DecFacts.mul_throws _ _ H1). reflexivity.
      * destruct (Z.le_gt_cases (Z.abs (Dec.int sqrtPrice * Dec.int sqrtPrice)) Dec.maxDec)
          as [L|G].
        -- rewrite (DecFacts.mul_ok _ _ L). cbn [bind]. fold square.
           apply DecFacts.mul_throws. cbn [Dec.int].
           rewrite Z.abs_mul, (Z.abs_eq (10 ^ (18 + d))); lia.
        -- rewrite (DecFacts.mul_throws _ _ G). reflexivity.
Qed.

Lemma getPriceFromSqrtPrice_correct_witness :
  getPriceFromSqrtPrice (Dec.lit 2) (mkCoinPretty Sample.eth 0) (mkCoinPretty Sample.usdc 0)
  = Ok (Dec.mk (4 * 10 ^ 30))
  /\ getPriceFromSqrtPrice (Dec.lit 2) (mkCoinPretty Sample.usdc 0)
       (mkCoinPretty (mkCurrency "FINE" "afine" 25) 0)
     = Throw TooLittlePrecision.
Proof.
  split.
  - destruct (getPriceFromSqrtPrice_correct (Dec.lit 2) (mkCoinPretty Sample.eth 0)
                (mkCoinPretty Sample.usdc 0)) as (_ & _ & H).
    destruct H as [H _]; [vm_compute; split; discriminate|].
    destruct H as [H _]; [vm_compute; discriminate | vm_compute; discriminate|].
    rewrite H. vm_compute. reflexivity.
  - destruct (getPriceFromSqrtPrice_correct (Dec.lit 2) (mkCoinPretty Sample.usdc 0)
                (mkCoinPretty (mkCurrency "FINE" "afine" 25) 0)) as (H & _).
    apply H. vm_compute. reflexivity.
Defined.
